(** * The ignite [Engine]: event-driven iteration controller

    A shallow embedding of [ignite/engines/engine.py] (classes [Events],
    [State] and [Engine]) together with the properties its specification
    states about it.

    Conventions of the embedding:
    - Python objects handled by the engine are values of type [value];
      an instance of [State] is its attribute dictionary, a
      [gmap string value];
    - a Python callable (the process function, an event handler) is an
      identifier of type [callable]; what calling it does is given by the
      section variable [call], a function from the engine it receives to
      the engine it leaves behind and the value it returns or the
      exception it raises;
    - the engine's own code runs in the monad [M]: it threads the engine
      and a ghost trace of observations, and ends by returning, by raising
      or by running out of fuel (the two [while]/[for] loops whose length
      handlers can influence take a fuel argument);
    - [time.time()], the elapsed-time breakdown and the debug/info log
      calls never influence control flow; only the two [logger.error]
      calls of the [except] clauses are kept, as trace entries.

    The definitions come first: the data model, the monad, the engine's
    methods, the readings of a trace, the assumptions on callables and a
    few sample engines. The proofs follow. *)

From stdpp Require Import base option numbers list sorting strings gmap.
From Stdlib Require Import ZArith Lia.

Local Open Scope string_scope.
Local Open Scope list_scope.
Local Open Scope nat_scope.

(** ** Data model *)

(** [class Events(Enum)], members in definition order. *)
Inductive Events :=
| EPOCH_STARTED
| EPOCH_COMPLETED
| STARTED
| COMPLETED
| ITERATION_STARTED
| ITERATION_COMPLETED
| EXCEPTION_RAISED.

#[global] Instance Events_eq_dec : EqDecision Events.
Proof. solve_decision. Defined.

Definition Events_members : list Events :=
  [EPOCH_STARTED; EPOCH_COMPLETED; STARTED; COMPLETED;
   ITERATION_STARTED; ITERATION_COMPLETED; EXCEPTION_RAISED].

Definition Events_index (e : Events) : nat :=
  match e with
  | EPOCH_STARTED => 0 | EPOCH_COMPLETED => 1 | STARTED => 2 | COMPLETED => 3
  | ITERATION_STARTED => 4 | ITERATION_COMPLETED => 5 | EXCEPTION_RAISED => 6
  end.

#[global] Instance Events_countable : Countable Events.
Proof.
  refine (inj_countable' Events_index (λ n, default EXCEPTION_RAISED (Events_members !! n)) _).
  by intros [].
Defined.

(** A raised exception: its class name and its message. *)
Record exn := Exn { exn_class : string; exn_msg : string }.

#[global] Instance exn_eq_dec : EqDecision exn.
Proof. solve_decision. Defined.

#[global] Instance exn_countable : Countable exn.
Proof.
  refine (inj_countable' (λ x, (exn_class x, exn_msg x)) (λ p, Exn p.1 p.2) _).
  by intros [].
Defined.

(** Python values the engine stores, compares or passes around. *)
Local Unset Elimination Schemes.
Inductive value :=
| VNone
| VInt (z : Z)
| VStr (s : string)
| VEvent (e : Events)
| VExc (x : exn)
| VList (l : list value)
| VDict (d : list (string * value)).
Local Set Elimination Schemes.

(** Hashable values, the keys of the handler dictionary. *)
Inductive key :=
| KNone
| KInt (z : Z)
| KStr (s : string)
| KEvent (e : Events)
| KExc (x : exn).

#[global] Instance key_eq_dec : EqDecision key.
Proof. solve_decision. Defined.

#[global] Instance key_countable : Countable key.
Proof.
  refine (inj_countable'
    (λ k, match k with
          | KNone => inl ()
          | KInt z => inr (inl z)
          | KStr s => inr (inr (inl s))
          | KEvent e => inr (inr (inr (inl e)))
          | KExc x => inr (inr (inr (inr x)))
          end)
    (λ c, match c with
          | inl _ => KNone
          | inr (inl z) => KInt z
          | inr (inr (inl s)) => KStr s
          | inr (inr (inr (inl e))) => KEvent e
          | inr (inr (inr (inr x))) => KExc x
          end) _).
  by intros [].
Defined.

(** What a Python call produces: a value, or a raised exception. *)
Inductive result (A : Type) :=
| Ok (a : A)
| Err (x : exn).
Arguments Ok {A} a.
Arguments Err {A} x.

Definition type_name (v : value) : string :=
  match v with
  | VNone => "NoneType"
  | VInt _ => "int"
  | VStr _ => "str"
  | VEvent _ => "Events"
  | VExc x => exn_class x
  | VList _ => "list"
  | VDict _ => "dict"
  end.

Definition TypeError (msg : string) : exn := Exn "TypeError" msg.
Definition ValueError (msg : string) : exn := Exn "ValueError" msg.
Definition AttributeError (msg : string) : exn := Exn "AttributeError" msg.
Definition KeyError (msg : string) : exn := Exn "KeyError" msg.

(** [hash(v)]: lists and dictionaries are unhashable. *)
Definition hash_key (v : value) : result key :=
  match v with
  | VNone => Ok KNone
  | VInt z => Ok (KInt z)
  | VStr s => Ok (KStr s)
  | VEvent e => Ok (KEvent e)
  | VExc x => Ok (KExc x)
  | VList _ | VDict _ => Err (TypeError ("unhashable type: '" +:+ type_name v +:+ "'"))
  end.

(** The one-character string holding a double quote. *)
Definition dquote : string := String (Ascii.ascii_of_nat 34) EmptyString.

(** [v += 1]: integer addition; a string refuses the concatenation; a list
    takes [+=] as [extend] and refuses to iterate the integer. *)
Definition py_add1 (v : value) : result value :=
  match v with
  | VInt z => Ok (VInt (z + 1))
  | VStr _ =>
      Err (TypeError ("can only concatenate " +:+ type_name v +:+ " (not " +:+ dquote +:+ "int"
                      +:+ dquote +:+ ") to " +:+ type_name v))
  | VList _ => Err (TypeError "'int' object is not iterable")
  | _ => Err (TypeError ("unsupported operand type(s) for +=: '" +:+ type_name v +:+ "' and 'int'"))
  end.

(** [v < n] for an integer [n]. *)
Definition py_lt (v : value) (n : Z) : result bool :=
  match v with
  | VInt z => Ok (z <? n)%Z
  | _ => Err (TypeError ("'<' not supported between instances of '" +:+ type_name v +:+ "' and 'int'"))
  end.

(** [iter(v)] run to exhaustion: the batches a [for] statement visits. *)
Definition py_iter (v : value) : result (list value) :=
  match v with
  | VList l => Ok l
  | VStr s => Ok ((λ c, VStr (String c EmptyString)) <$> String.list_ascii_of_string s)
  | VDict d => Ok ((λ kv, VStr kv.1) <$> d)
  | _ => Err (TypeError ("'" +:+ type_name v +:+ "' object is not iterable"))
  end.

(** *** [class State] *)

(** An instance of [State] is its attribute dictionary. *)
Abbreviation State := (gmap string value).

(** [State.__init__(self, **kwargs)]: three defaults, then one [setattr]
    per keyword argument, in the order of [kwargs.items()]. *)
Definition State_defaults : State :=
  <["batch" := VNone]> (<["output" := VNone]> (<["iteration" := VInt 0]> ∅)).

Definition State_init (kwargs : list (string * value)) : State :=
  foldl (λ self kv, <[kv.1 := kv.2]> self) State_defaults kwargs.

(** *** [class Engine] *)

(** The identity of a Python callable. *)
Definition callable := nat.

(** One entry of a handler list: [(handler, args, kwargs)]. *)
Abbreviation registration := (callable * list value * list (string * value))%type.

Record Engine := mkEngine {
  _event_handlers : gmap key (list registration);
  _process_function : callable;
  should_terminate : bool;
  state : option State
}.

Definition set_event_handlers (t : gmap key (list registration)) (self : Engine) : Engine :=
  mkEngine t (_process_function self) (should_terminate self) (state self).

Definition set_should_terminate (b : bool) (self : Engine) : Engine :=
  mkEngine (_event_handlers self) (_process_function self) b (state self).

Definition set_state (st : option State) (self : Engine) : Engine :=
  mkEngine (_event_handlers self) (_process_function self) (should_terminate self) st.

(** [Engine.__init__(self, process_function)]. *)
Definition Engine_init (process_function : option callable) : result Engine :=
  match process_function with
  | None => Err (ValueError "Engine must be given a processing function in order to run")
  | Some f => Ok (mkEngine ∅ f false None)
  end.

(** [Engine.terminate(self)]. *)
Definition terminate (self : Engine) : Engine := set_should_terminate true self.

(** [event_name == member] for a member of [Events]: enum members are
    equal to themselves only. *)
Definition value_is_member (v : value) (m : Events) : bool :=
  match v with
  | VEvent e => bool_decide (e = m)
  | _ => false
  end.

(** [event_name in Events.__members__.values()]. *)
Definition in_Events_members (v : value) : bool :=
  existsb (value_is_member v) Events_members.

(** ** The monad of the engine's code *)

(** Ghost observations: the calls the engine makes out of its own code. *)
Inductive obs :=
| Fire (event_name : Events) (event_args : list value) (self : Engine)
| Handled (func : callable) (self : Engine) (args : list value)
    (kwargs : list (string * value)) (self' : Engine) (r : result value)
| Processed (func : callable) (self : Engine) (batch : value)
    (self' : Engine) (r : result value)
| LogError (fmt : string) (x : exn).

Record St := mkSt { eng : Engine; trace : list obs }.

Inductive outcome (A : Type) :=
| Ret (a : A)
| Raise (x : exn)
| OutOfFuel.
Arguments Ret {A} a.
Arguments Raise {A} x.
Arguments OutOfFuel {A}.

Definition M (A : Type) : Type := St → St * outcome A.

Definition ret {A} (a : A) : M A := λ s, (s, Ret a).

Definition raise {A} (x : exn) : M A := λ s, (s, Raise x).

Definition bind {A B} (m : M A) (k : A → M B) : M B :=
  λ s, match m s with
       | (s', Ret a) => k a s'
       | (s', Raise x) => (s', Raise x)
       | (s', OutOfFuel) => (s', OutOfFuel)
       end.

(** [try: body except BaseException as e: handler e]. *)
Definition try_except {A} (body : M A) (handler : exn → M A) : M A :=
  λ s, match body s with
       | (s', Raise x) => handler x s'
       | r => r
       end.

Notation "'let*' x := m 'in' k" := (bind m (λ x, k))
  (at level 10, x name, m at level 100, k at level 200, only parsing).
Notation "m ;; k" := (bind m (λ _, k))
  (at level 100, right associativity, only parsing).

Definition emit (o : obs) : M unit :=
  λ s, (mkSt (eng s) (trace s ++ [o]), Ret tt).

Definition get_self : M Engine := λ s, (s, Ret (eng s)).

Definition put_self (self : Engine) : M unit := λ s, (mkSt self (trace s), Ret tt).

Definition lift {A} (r : result A) : M A :=
  match r with
  | Ok a => ret a
  | Err x => raise x
  end.

Definition no_attribute (v : string) (k : string) : exn :=
  AttributeError ("'" +:+ v +:+ "' object has no attribute '" +:+ k +:+ "'").

(** [self.state.k]. *)
Definition getattr_state (k : string) : M value :=
  let* self := get_self in
  match state self with
  | None => raise (no_attribute "NoneType" k)
  | Some st =>
      match st !! k with
      | None => raise (no_attribute "State" k)
      | Some v => ret v
      end
  end.

(** [self.state.k = v]. *)
Definition setattr_state (k : string) (v : value) : M unit :=
  let* self := get_self in
  match state self with
  | None => raise (no_attribute "NoneType" k)
  | Some st => put_self (set_state (Some (<[k := v]> st)) self)
  end.

(** [self.state.k += 1]. *)
Definition incr_state (k : string) : M unit :=
  let* v := getattr_state k in
  let* v' := lift (py_add1 v) in
  setattr_state k v'.

(** Splits the conjunctions of the goal, leaving defined predicates folded. *)
Ltac conj := repeat match goal with |- _ ∧ _ => split end.

(** *** The run state's attributes *)

(** [self.state.k], when the engine has a state with that attribute. *)
Definition attr (k : string) (self : Engine) : option value :=
  state self ≫= (.!! k).

Section Engine.

(** Python's built-in [str], used to format the invalid-event message. *)
Variable py_str : value → string.

(** [Engine.add_event_handler(self, event_name, handler, *args, **kwargs)]. *)
Definition add_event_handler (event_name : value) (handler : callable)
    (args : list value) (kwargs : list (string * value)) (self : Engine)
    : Engine * result unit :=
  if negb (in_Events_members event_name) then
    (self, Err (ValueError ("Event " +:+ py_str event_name +:+ " is not a valid event for this Engine")))
  else
    match hash_key event_name with
    | Err x => (self, Err x)
    | Ok k =>
        let t1 := match _event_handlers self !! k with
                  | None => <[k := []]> (_event_handlers self)
                  | Some _ => _event_handlers self
                  end in
        match t1 !! k with
        | None => (set_event_handlers t1 self, Err (KeyError (py_str event_name)))
        | Some l => (set_event_handlers (<[k := l ++ [(handler, args, kwargs)]]> t1) self, Ok tt)
        end
    end.

(** [Engine.on(self, event_name, *args, **kwargs)] applied to [f]:
    registers [f] and hands it back. *)
Definition on (event_name : value) (args : list value) (kwargs : list (string * value))
    (f : callable) (self : Engine) : Engine * result callable :=
  match add_event_handler event_name f args kwargs self with
  | (self', Ok _) => (self', Ok f)
  | (self', Err x) => (self', Err x)
  end.

(** What calling a Python callable with [(self, *args, **kwargs)] does:
    the engine as the callee leaves it and what the call produces. *)
Variable call : callable → Engine → list value → list (string * value) → Engine * result value.

(** The [(hours, mins, secs)] tuple built by [ignite._utils._to_hours_mins_secs],
    a module outside these sources; it is only ever logged. *)
Variable hms : Z * Z * Z.

(** The [for func, args, kwargs in self._event_handlers[event_name]] loop
    of [_fire_event]. A Python list iterator reads the list it walks at
    every step, so registrations appended while the loop runs are visited
    too: the loop is by index into the list as the engine holds it now.
    Convention: a callable changes a handler list in place, as
    [add_event_handler] does, so the entry of the table stands for the
    list object being walked. A callable that deletes the entry or binds
    it to another list while the event is dispatched is outside the
    embedding (Python would go on with the list it fetched); every
    statement about a dispatch either assumes the callables leave the
    entry alone or has them go through [add_event_handler]. *)
Fixpoint _fire_event_loop (fuel : nat) (event_name : Events) (event_args : list value)
    (i : nat) : M unit :=
  match fuel with
  | O => λ s, (s, OutOfFuel)
  | S fuel' =>
      let* self := get_self in
      match _event_handlers self !! KEvent event_name ≫= (.!! i) with
      | None => ret tt
      | Some (func, args, kwargs) =>
          let '(self', r) := call func self (event_args ++ args) kwargs in
          put_self self';;
          emit (Handled func self (event_args ++ args) kwargs self' r);;
          lift r;;
          _fire_event_loop fuel' event_name event_args (S i)
      end
  end.

(** [Engine._fire_event(self, event_name, *event_args)]. *)
Definition _fire_event (fuel : nat) (event_name : Events) (event_args : list value) : M unit :=
  let* self := get_self in
  emit (Fire event_name event_args self);;
  if decide (is_Some (_event_handlers self !! KEvent event_name)) then
    _fire_event_loop fuel event_name event_args 0
  else ret tt.

(** [Engine._handle_exception(self, e)]. *)
Definition _handle_exception (fuel : nat) (e : exn) : M unit :=
  let* self := get_self in
  if decide (is_Some (_event_handlers self !! KEvent EXCEPTION_RAISED)) then
    _fire_event fuel EXCEPTION_RAISED [VExc e]
  else raise e.

(** The body of the [for batch in self.state.dataloader] loop, up to the
    [ITERATION_COMPLETED] dispatch. *)
Definition _run_iteration (fuel : nat) (batch : value) : M unit :=
  setattr_state "batch" batch;;
  incr_state "iteration";;
  _fire_event fuel ITERATION_STARTED [];;
  let* self := get_self in
  let '(self', r) := call (_process_function self) self [batch] [] in
  put_self self';;
  emit (Processed (_process_function self) self batch self' r);;
  let* output := lift r in
  setattr_state "output" output;;
  _fire_event fuel ITERATION_COMPLETED [].

(** The [for] loop of [_run_once_on_dataset] over the batches its
    iterator yields; [if self.should_terminate: break] ends it early. *)
Fixpoint _run_batches (fuel : nat) (batches : list value) : M unit :=
  match batches with
  | [] => ret tt
  | batch :: rest =>
      _run_iteration fuel batch;;
      let* self := get_self in
      if should_terminate self then ret tt
      else _run_batches fuel rest
  end.

(** [Engine._run_once_on_dataset(self)]: the time tuple when the pass ends
    normally, Python's [None] when the [except] clause ends normally. *)
Definition _run_once_on_dataset (fuel : nat) : M (option (Z * Z * Z)) :=
  try_except
    (let* dataloader := getattr_state "dataloader" in
     let* batches := lift (py_iter dataloader) in
     _run_batches fuel batches;;
     ret (Some hms))
    (λ e,
     emit (LogError "Current run is terminating due to exception: %s" e);;
     _handle_exception fuel e;;
     ret None).

(** [hours, mins, secs = ...]: unpacking [None] raises. *)
Definition unpack_hms (r : option (Z * Z * Z)) : M (Z * Z * Z) :=
  match r with
  | Some t => ret t
  | None => raise (TypeError "cannot unpack non-iterable NoneType object")
  end.

(** The [while self.state.epoch < max_epochs and not self.should_terminate]
    loop of [run]. The debug log after the pass reads [self.state.epoch]
    for its arguments, which fails when the attribute is gone. *)
Fixpoint _run_epochs (fuel : nat) (max_epochs : Z) : M unit :=
  match fuel with
  | O => λ s, (s, OutOfFuel)
  | S fuel' =>
      let* epoch := getattr_state "epoch" in
      let* below := lift (py_lt epoch max_epochs) in
      let* self := get_self in
      if below && negb (should_terminate self) then
        incr_state "epoch";;
        _fire_event fuel' EPOCH_STARTED [];;
        let* r := _run_once_on_dataset fuel' in
        unpack_hms r;;
        getattr_state "epoch";;
        let* self := get_self in
        if should_terminate self then ret tt
        else
          _fire_event fuel' EPOCH_COMPLETED [];;
          _run_epochs fuel' max_epochs
      else ret tt
  end.

(** [Engine.run(self, data, max_epochs=1)]. *)
Definition run (fuel : nat) (data : value) (max_epochs : Z) : M (option State) :=
  let* self := get_self in
  put_self (set_state (Some (State_init
    [("dataloader", data); ("epoch", VInt 0); ("max_epochs", VInt max_epochs);
     ("metrics", VDict [])])) self);;
  try_except
    (_fire_event fuel STARTED [];;
     _run_epochs fuel max_epochs;;
     _fire_event fuel COMPLETED [])
    (λ e,
     emit (LogError "Training is terminating due to exception: %s" e);;
     _handle_exception fuel e);;
  let* self := get_self in
  ret (state self).

(** ** Reading the engine and its trace *)

(** The dispatches of a trace, in order. *)
Definition fires (t : list obs) : list Events :=
  omap (λ o, match o with Fire ev _ _ => Some ev | _ => None end) t.

(** The batches handed to the process function, in order. *)
Definition processed (t : list obs) : list value :=
  omap (λ o, match o with Processed _ _ b _ _ => Some b | _ => None end) t.

(** The handler invocations of a trace: callable, positional arguments
    after the engine, keyword arguments. *)
Definition invocations (t : list obs) : list registration :=
  omap (λ o, match o with Handled f _ a k _ _ => Some (f, a, k) | _ => None end) t.

(** The exceptions caught by the two [except] clauses, in order. *)
Definition caught (t : list obs) : list exn :=
  omap (λ o, match o with LogError _ x => Some x | _ => None end) t.

(** The registrations of an event, none when the event has no entry. *)
Definition handlers_of (self : Engine) (ev : Events) : list registration :=
  default [] (_event_handlers self !! KEvent ev).

(** ** Assumptions on callables *)

(** Calling [f] never raises. *)
Definition returns_normally (f : callable) : Prop :=
  ∀ self args kwargs, ∃ v, (call f self args kwargs).2 = Ok v.

(** Calling [f] leaves [view] of the engine as it was. *)
Definition keeps {A} (view : Engine → A) (f : callable) : Prop :=
  ∀ self args kwargs, view (call f self args kwargs).1 = view self.

(** The callables an engine can reach: its process function and every
    registered handler. *)
Definition registered (self : Engine) (f : callable) : Prop :=
  f = _process_function self ∨
  ∃ k regs a kw, _event_handlers self !! k = Some regs ∧ (f, a, kw) ∈ regs.

(** The handler table and the process function. *)
Definition wiring (self : Engine) : gmap key (list registration) * callable :=
  (_event_handlers self, _process_function self).

(** The counters and the dataset of the run state. *)
Definition progress (self : Engine) : option value * option value * option value :=
  (attr "iteration" self, attr "epoch" self, attr "dataloader" self).

(** ** Dispatch in registration order *)

Definition to_outcome {A} (r : result A) : outcome A :=
  match r with
  | Ok a => Ret a
  | Err x => Raise x
  end.

(** The dispatch as the specification words it: each registration of the
    list is invoked in order with the engine, the event arguments, then its
    own arguments; the first handler that raises ends the dispatch. *)
Fixpoint dispatch_in_order (regs : list registration) (event_args : list value)
    (self : Engine) : list obs * Engine * result unit :=
  match regs with
  | [] => ([], self, Ok tt)
  | (func, args, kwargs) :: rest =>
      let '(self', r) := call func self (event_args ++ args) kwargs in
      let o := Handled func self (event_args ++ args) kwargs self' r in
      match r with
      | Ok _ =>
          let '(os, self'', r') := dispatch_in_order rest event_args self' in
          (o :: os, self'', r')
      | Err x => ([o], self', Err x)
      end
  end.

(** What the handler invocations of a trace produced, in order. *)
Definition handler_results (t : list obs) : list (result value) :=
  omap (λ o, match o with Handled _ _ _ _ _ r => Some r | _ => None end) t.

(** The entries of [os] are handler calls made one after the other: the
    first receives [self], each next one the engine its predecessor left,
    and [self'] is what the last one leaves. *)
Fixpoint threaded (self : Engine) (os : list obs) (self' : Engine) : Prop :=
  match os with
  | [] => self' = self
  | Handled f e a k e' r :: rest =>
      e = self ∧ call f e a k = (e', r) ∧ threaded e' rest self'
  | _ :: _ => False
  end.

Definition is_Ok {A} (r : result A) : Prop :=
  match r with
  | Ok _ => True
  | Err _ => False
  end.

(** The argument list a registration is invoked with. *)
Definition invoked_as (event_args : list value) (reg : registration) : registration :=
  (reg.1.1, event_args ++ reg.1.2, reg.2).

(** The invalid-event message of [add_event_handler]. *)
Definition invalid_event (event_name : value) : exn :=
  ValueError ("Event " +:+ py_str event_name +:+ " is not a valid event for this Engine").

(** ** Termination under the frame assumption *)

(** The frame every run-level statement assumes: the callables the engine
    can reach leave the handler table and the process function alone and
    do not write the counters or the dataset of the run state. *)
Definition frame_ok (self : Engine) : Prop :=
  ∀ f, registered self f → keeps wiring f ∧ keeps progress f.

(** The longest handler list of the engine. *)
Definition longest (self : Engine) : nat :=
  max_list ((λ ev, length (handlers_of self ev)) <$> Events_members).

(** [self.state.k = v] on an engine that has a state. *)
Definition set_attr (k : string) (v : value) (self : Engine) : Engine :=
  set_state (Some (<[k := v]> (default ∅ (state self)))) self.

(** The integer held by attribute [k] of the run state. *)
Definition int_attr (k : string) (self : Engine) : Z :=
  match attr k self with
  | Some (VInt z) => z
  | _ => 0
  end.

(** ** The run with the handler lists held fixed

    Under [frame_ok] the table cannot change while the engine runs, so a
    dispatch is [dispatch_in_order] over the list it finds and the epoch
    loop is bounded by the epochs left. The functions below are the
    engine's code read that way: pure, without fuel, returning the trace
    they add, the engine they leave and how they end. [run_as_played]
    proves them equal to the code. *)

Definition out (A : Type) : Type := list obs * Engine * result A.

(** Sequencing: the second step runs when the first one returned. *)
Definition and_then {A B} (m : out A) (k : A → Engine → out B) : out B :=
  let '(t, self, r) := m in
  match r with
  | Ok a => let '(t', self', r') := k a self in (t ++ t', self', r')
  | Err x => (t, self, Err x)
  end.

(** The result of monadic code that adds [t], leaves [self'] and ends as [r]. *)
Definition play {A} (o : out A) (s : St) : St * outcome A :=
  let '(t, self', r) := o in (mkSt self' (trace s ++ t), to_outcome r).

Definition dispatch (ev : Events) (event_args : list value) (self : Engine) : out unit :=
  let '(os, self', r) := dispatch_in_order (handlers_of self ev) event_args self in
  (Fire ev event_args self :: os, self', r).

Definition handle_exception_played (e : exn) (self : Engine) : out unit :=
  if decide (is_Some (_event_handlers self !! KEvent EXCEPTION_RAISED)) then
    dispatch EXCEPTION_RAISED [VExc e] self
  else ([], self, Err e).

Definition process_played (batch : value) (self : Engine) : out value :=
  let '(self', r) := call (_process_function self) self [batch] [] in
  ([Processed (_process_function self) self batch self' r], self', r).

Definition iteration_played (batch : value) (self : Engine) : out unit :=
  let self1 := set_attr "iteration" (VInt (int_attr "iteration" self + 1))
                 (set_attr "batch" batch self) in
  and_then (dispatch ITERATION_STARTED [] self1) (λ _ self2,
  and_then (process_played batch self2) (λ output self3,
  dispatch ITERATION_COMPLETED [] (set_attr "output" output self3))).

Fixpoint batches_played (batches : list value) (self : Engine) : out unit :=
  match batches with
  | [] => ([], self, Ok tt)
  | batch :: rest =>
      and_then (iteration_played batch self) (λ _ self',
      if should_terminate self' then ([], self', Ok tt)
      else batches_played rest self')
  end.

Definition once_on_dataset_played (self : Engine) : out (option (Z * Z * Z)) :=
  let body :=
    match py_iter (default VNone (attr "dataloader" self)) with
    | Ok batches => batches_played batches self
    | Err x => ([], self, Err x)
    end in
  match body with
  | (t, self', Ok _) => (t, self', Ok (Some hms))
  | (t, self', Err x) =>
      and_then (t ++ [LogError "Current run is terminating due to exception: %s" x], self', Ok tt)
        (λ _ self', and_then (handle_exception_played x self') (λ _ self'', ([], self'', Ok None)))
  end.

Fixpoint epochs_played (n : nat) (max_epochs : Z) (self : Engine) : out unit :=
  if (int_attr "epoch" self <? max_epochs)%Z && negb (should_terminate self) then
    match n with
    | O => ([], self, Ok tt)
    | S n' =>
        and_then (dispatch EPOCH_STARTED []
                    (set_attr "epoch" (VInt (int_attr "epoch" self + 1)) self)) (λ _ self2,
        and_then (once_on_dataset_played self2) (λ r self3,
        match r with
        | None => ([], self3, Err (TypeError "cannot unpack non-iterable NoneType object"))
        | Some _ =>
            if should_terminate self3 then ([], self3, Ok tt)
            else
              and_then (dispatch EPOCH_COMPLETED [] self3) (λ _ self4,
              epochs_played n' max_epochs self4)
        end))
    end
  else ([], self, Ok tt).

(** The run state [run] starts from. *)
Definition fresh_state (data : value) (max_epochs : Z) : State :=
  State_init [("dataloader", data); ("epoch", VInt 0); ("max_epochs", VInt max_epochs);
              ("metrics", VDict [])].

Definition run_body_played (max_epochs : Z) (self0 : Engine) : out unit :=
  and_then (dispatch STARTED [] self0) (λ _ self1,
  and_then (epochs_played (Z.to_nat max_epochs) max_epochs self1) (λ _ self2,
  dispatch COMPLETED [] self2)).

Definition run_played (data : value) (max_epochs : Z) (self : Engine) : out (option State) :=
  match run_body_played max_epochs (set_state (Some (fresh_state data max_epochs)) self) with
  | (t, self', Ok _) => (t, self', Ok (state self'))
  | (t, self', Err x) =>
      and_then (t ++ [LogError "Training is terminating due to exception: %s" x], self', Ok tt)
        (λ _ self', and_then (handle_exception_played x self') (λ _ self'', ([], self'', Ok (state self''))))
  end.

(** The engine is wired as [self0] and its run state holds integer
    counters, at epoch [ep], and the dataset [data]. *)
Definition steady (self0 : Engine) (ep : Z) (data : value) (self : Engine) : Prop :=
  wiring self = wiring self0 ∧
  (∃ it, attr "iteration" self = Some (VInt it)) ∧
  attr "epoch" self = Some (VInt ep) ∧
  attr "dataloader" self = Some data.

(** *** What the frame preserves *)

(** [P] pins the wiring down and survives the calls of registered
    callables. *)
Definition call_stable (self0 : Engine) (P : Engine → Prop) : Prop :=
  (∀ e, P e → wiring e = wiring self0) ∧
  (∀ f e a k, registered self0 f → P e → P (call f e a k).1).

(** [P] moreover survives the engine's own writes during a pass over the
    dataset. *)
Definition pass_stable (self0 : Engine) (P : Engine → Prop) : Prop :=
  call_stable self0 P ∧
  (∀ v e, P e → P (set_attr "batch" v e)) ∧
  (∀ v e, P e → P (set_attr "output" v e)) ∧
  (∀ e, P e → P (set_attr "iteration" (VInt (int_attr "iteration" e + 1)) e)).

(** [P] survives every write to the run state. *)
Definition run_stable (self0 : Engine) (P : Engine → Prop) : Prop :=
  call_stable self0 P ∧ (∀ st e, P e → P (set_state st e)).

(** ** Runs in which nothing raises *)

(** The engine is wired as [self0], its counters read [it] and [ep] and
    its dataset is [data]. *)
Definition counting (self0 : Engine) (it ep : Z) (data : value) (self : Engine) : Prop :=
  wiring self = wiring self0 ∧
  attr "iteration" self = Some (VInt it) ∧
  attr "epoch" self = Some (VInt ep) ∧
  attr "dataloader" self = Some data.

(** Every registered handler returns normally. *)
Definition handlers_normal (self0 : Engine) : Prop :=
  ∀ ev f a k, (f, a, k) ∈ handlers_of self0 ev → returns_normally f.

(** The process function returns normally on [batch]. *)
Definition processes (self0 : Engine) (batch : value) : Prop :=
  ∀ self, ∃ v, (call (_process_function self0) self [batch] []).2 = Ok v.

Definition iteration_events : list Events := [ITERATION_STARTED; ITERATION_COMPLETED].

(** The dispatches of [j] iterations. *)
Definition pass_events (j : nat) : list Events := concat (replicate j iteration_events).

(** The dispatches of an epoch over [B] batches that ran to its end. *)
Definition epoch_events (B : nat) : list Events :=
  EPOCH_STARTED :: pass_events B ++ [EPOCH_COMPLETED].

(** The dispatches of [m] epochs that ran to their end followed, when
    [last] is [Some j], by an epoch that a termination request ended
    after [j] iterations. *)
Definition epochs_events (B m : nat) (last : option nat) : list Events :=
  concat (replicate m (epoch_events B)) ++
  match last with
  | None => []
  | Some j => EPOCH_STARTED :: pass_events j
  end.

(** The batches processed by such epochs over the dataset [bs]. *)
Definition epochs_batches (bs : list value) (m : nat) (last : option nat) : list value :=
  concat (replicate m bs) ++
  match last with
  | None => []
  | Some j => take j bs
  end.

Definition epochs_count (m : nat) (last : option nat) : nat :=
  m + match last with Some _ => 1 | None => 0 end.

Definition iterations_count (B m : nat) (last : option nat) : nat :=
  m * B + default 0 last.

(** *** What a whole run preserves *)

(** ** Invariants of a run

    [Φ t self] relates the trace a run has added so far to the engine.
    It is an invariant when every step the engine's code takes preserves
    it: a call of a registered handler or of the process function, a
    dispatch entry, the opening of an iteration (batch stored, counter
    incremented, [ITERATION_STARTED] announced), the storing of the
    output, the opening of an epoch (counter incremented while below
    [max_epochs], [EPOCH_STARTED] announced) and a logged exception. *)
Record invariant (self0 : Engine) (max_epochs : Z) (Φ : list obs → Engine → Prop) : Prop := {
  inv_wiring : ∀ t e, Φ t e → wiring e = wiring self0;
  inv_handler : ∀ t e f a k, registered self0 f → Φ t e →
    Φ (t ++ [Handled f e a k (call f e a k).1 (call f e a k).2]) (call f e a k).1;
  inv_process : ∀ t e b, Φ t e →
    Φ (t ++ [Processed (_process_function self0) e b
               (call (_process_function self0) e [b] []).1
               (call (_process_function self0) e [b] []).2])
      (call (_process_function self0) e [b] []).1;
  inv_fire : ∀ t e ev args, ev ≠ ITERATION_STARTED → ev ≠ EPOCH_STARTED →
    Φ t e → Φ (t ++ [Fire ev args e]) e;
  inv_iteration : ∀ t e b, Φ t e →
    Φ (t ++ [Fire ITERATION_STARTED []
               (set_attr "iteration" (VInt (int_attr "iteration" e + 1)) (set_attr "batch" b e))])
      (set_attr "iteration" (VInt (int_attr "iteration" e + 1)) (set_attr "batch" b e));
  inv_output : ∀ t e v, Φ t e → Φ t (set_attr "output" v e);
  inv_epoch : ∀ t e, Φ t e → (int_attr "epoch" e < max_epochs)%Z →
    Φ (t ++ [Fire EPOCH_STARTED [] (set_attr "epoch" (VInt (int_attr "epoch" e + 1)) e)])
      (set_attr "epoch" (VInt (int_attr "epoch" e + 1)) e);
  inv_log : ∀ t e m x, Φ t e → Φ (t ++ [LogError m x]) e
}.

(** [m] extends the trace and the engine within [Φ]. *)
Definition within (Φ : list obs → Engine → Prop) {A} (m : Engine → out A) : Prop :=
  ∀ t e, Φ t e → Φ (t ++ (m e).1.1) (m e).1.2.

(** A callable returned with the termination flag set: [terminate()] has
    been called by then. *)
Definition requested (o : obs) : Prop :=
  match o with
  | Handled _ _ _ _ self' _ | Processed _ _ _ self' _ => should_terminate self' = true
  | _ => False
  end.

(** No registered callable clears the termination flag. *)
Definition never_cleared (self0 : Engine) : Prop :=
  ∀ f e a k, registered self0 f →
    should_terminate e = true → should_terminate (call f e a k).1 = true.

(** ** The trace only grows *)

(** Running [m] keeps the trace it finds and appends to it. *)
Definition extends {A} (m : M A) : Prop :=
  ∀ s, ∃ rest, trace (m s).1 = trace s ++ rest.

(** ** A handler that requests termination at a given iteration *)

(** Handler [h] calls [terminate()] exactly when the run-wide iteration
    counter reads [it0]. *)
Definition terminates_at (h : callable) (it0 : Z) : Prop :=
  ∀ self args kwargs,
    should_terminate (call h self args kwargs).1 =
      should_terminate self || (int_attr "iteration" self =? it0)%Z.

(** Handler [h] is registered for [ITERATION_COMPLETED] and for no other
    event, and is not the process function. *)
Definition on_iteration_completed_only (self0 : Engine) (h : callable) : Prop :=
  (∃ a kw, (h, a, kw) ∈ handlers_of self0 ITERATION_COMPLETED) ∧
  (∀ ev a kw, (h, a, kw) ∈ handlers_of self0 ev → ev = ITERATION_COMPLETED) ∧
  h ≠ _process_function self0.

(** ** Runs in which the process function raises *)

(** The error [hours, mins, secs = None] raises. *)
Definition unpack_error : exn := TypeError "cannot unpack non-iterable NoneType object".

(** ** Exception routing *)

(** The exceptions raised by the callables of a trace, in order. *)
Definition raised (t : list obs) : list exn :=
  omap (λ o, match o with
             | Handled _ _ _ _ _ (Err x) | Processed _ _ _ _ (Err x) => Some x
             | _ => None
             end) t.

(** The handler table has an entry for [EXCEPTION_RAISED]. *)
Definition exception_handled (self0 : Engine) : Prop :=
  is_Some (_event_handlers self0 !! KEvent EXCEPTION_RAISED).

(** Every [EXCEPTION_RAISED] handler returns normally. *)
Definition exception_handlers_normal (self0 : Engine) : Prop :=
  ∀ f a k, (f, a, k) ∈ handlers_of self0 EXCEPTION_RAISED → returns_normally f.

(** Every [EXCEPTION_RAISED] registration was invoked with the error [x]
    as event argument. *)
Definition informed (self0 : Engine) (x : exn) (t : list obs) : Prop :=
  Forall (λ reg, invoked_as [VExc x] reg ∈ invocations t)
    (handlers_of self0 EXCEPTION_RAISED).

(** Nothing was caught in [t]; the callables raised nothing when it ended
    normally, and exactly the error it ended with otherwise. *)
Definition clean {A} (t : list obs) (r : result A) : Prop :=
  caught t = [] ∧
  match r with
  | Ok _ => raised t = []
  | Err x => raised t = [x]
  end.

(** Where the error [x] comes from: it is the one error the callables of
    [t] raised, or no callable raised and it is the error of iterating the
    dataset. *)
Definition origin (data : value) (x : exn) (t : list obs) : Prop :=
  raised t = [x] ∨ (raised t = [] ∧ py_iter data = Err x).

(** How a pass over the dataset [data] can end. *)
Definition pass_outcome (self0 : Engine) (data : value) {A} (t : list obs)
    (r : result (option A)) : Prop :=
  (clean t r ∧ ∃ v, r = Ok (Some v)) ∨
  (∃ x, caught t = [x] ∧ origin data x t ∧ ¬ exception_handled self0 ∧ r = Err x) ∨
  (∃ x, caught t = [x] ∧ origin data x t ∧ exception_handled self0 ∧ r = Ok None ∧
        informed self0 x t).

(** How the epoch loop, and the body of [run]'s [try], can end. *)
Definition inner_outcome (self0 : Engine) (data : value) (t : list obs)
    (r : result unit) : Prop :=
  clean t r ∨
  (∃ x, caught t = [x] ∧ origin data x t ∧ ¬ exception_handled self0 ∧ r = Err x) ∨
  (∃ x, caught t = [x] ∧ origin data x t ∧ exception_handled self0 ∧
        r = Err unpack_error ∧ informed self0 x t).

(** How [run] ends, by the first exception it catches, [st] being the
    state the engine holds at the end. None: no callable raised and [run]
    returns [st]. An exception [x]: it is the error a callable raised, or
    the error of iterating the dataset; with [EXCEPTION_RAISED] handlers
    [run] returns [st] after they were invoked with [x]; without any it
    raises [x]. *)
Definition routed (self0 : Engine) (data : value) (t : list obs)
    (r : result (option State)) (st : option State) : Prop :=
  match head (caught t) with
  | None => raised t = [] ∧ r = Ok st
  | Some x =>
      origin data x t ∧
      (exception_handled self0 → r = Ok st ∧ informed self0 x t) ∧
      (¬ exception_handled self0 → r = Err x)
  end.

(** ** The counters and the keys of the handler table *)

(** The engines an observation records. *)
Definition engines_of (o : obs) : list Engine :=
  match o with
  | Fire _ _ self => [self]
  | Handled _ self _ _ self' _ | Processed _ self _ self' _ => [self; self']
  | LogError _ _ => []
  end.

(** Every engine a trace records, in order: the run as its callables and
    dispatches saw it. *)
Definition snapshots (t : list obs) : list Engine := t ≫= engines_of.

(** The iteration counter at each [ITERATION_STARTED] dispatch, in order. *)
Definition iterations_started (t : list obs) : list Z :=
  omap (λ o, match o with
             | Fire ITERATION_STARTED _ self => Some (int_attr "iteration" self)
             | _ => None
             end) t.

(** The counters of [self] after [t]: [n] iterations were started, numbered
    [1 .. n]; the iteration counter is [n] and never went down; the epoch
    counter never went above [max_epochs], nor above [0] when that is
    negative. *)
Definition tracked (self0 : Engine) (max_epochs : Z) (t : list obs) (self : Engine) : Prop :=
  wiring self = wiring self0 ∧
  ∃ (n : nat) (ep : Z),
    attr "iteration" self = Some (VInt (Z.of_nat n)) ∧
    attr "epoch" self = Some (VInt ep) ∧
    (ep ≤ Z.max 0 max_epochs)%Z ∧
    iterations_started t = Z.of_nat <$> seq 1 n ∧
    StronglySorted Z.le (int_attr "iteration" <$> snapshots t) ∧
    Forall (λ e, (int_attr "iteration" e ≤ Z.of_nat n)%Z ∧
                 (int_attr "epoch" e ≤ Z.max 0 max_epochs)%Z) (snapshots t).

(** The batch in [state.batch] at each [ITERATION_STARTED] dispatch, in
    order: the batches the run drew from the dataset. *)
Definition iterated (t : list obs) : list value :=
  omap (λ o, match o with
             | Fire ITERATION_STARTED _ self => Some (default VNone (attr "batch" self))
             | _ => None
             end) t.

(** How many times [ev] was dispatched. *)
Definition dispatches (ev : Events) (t : list obs) : nat :=
  length (filter (λ e, e = ev) (fires t)).

(** The batches of a dataset, none when it cannot be iterated. *)
Definition batches_of (data : value) : list value :=
  match py_iter data with
  | Ok bs => bs
  | Err _ => []
  end.

(** No epoch event is dispatched in [t]. *)
Definition in_pass (t : list obs) : Prop :=
  Forall (λ ev, ev ≠ EPOCH_STARTED ∧ ev ≠ EPOCH_COMPLETED) (fires t).

(** Every batch drawn in [t] went to the process function, in the order
    drawn, except possibly the last one, and then [t] did not end well. *)
Definition lag (ended_well : Prop) (t : list obs) : Prop :=
  processed t = iterated t ∨ (¬ ended_well ∧ ∃ b, iterated t = processed t ++ [b]).

(** The batches drawn in [t] are [c] whole passes over [bs] followed by
    the first [j] batches of one more; each [EPOCH_COMPLETED] dispatch
    stands for a whole pass, and each pass lies in an epoch that
    [EPOCH_STARTED] announced. *)
Definition drawn (bs : list value) (c j : nat) (t : list obs) : Prop :=
  j ≤ length bs ∧
  iterated t = concat (replicate c bs) ++ take j bs ∧
  dispatches EPOCH_COMPLETED t ≤ c ∧
  c ≤ dispatches EPOCH_STARTED t ∧
  (0 < j → c < dispatches EPOCH_STARTED t).

(** The keys of the handler table are members of [Events]. *)
Definition table_keys_valid (self : Engine) : Prop :=
  ∀ k, is_Some (_event_handlers self !! k) → ∃ ev, k = KEvent ev ∧ ev ∈ Events_members.

(** A sequence of [add_event_handler] calls, each carried out whether or
    not the one before raised. *)
Definition add_event_handlers
    (calls : list (value * callable * list value * list (string * value)))
    (self : Engine) : Engine :=
  foldl (λ self c, (add_event_handler c.1.1.1 c.1.1.2 c.1.2 c.2 self).1) self calls.

(** ** Registering handlers *)

(** One [add_event_handler] call: event, handler, positional and keyword
    arguments. *)
Abbreviation registering := (value * callable * list value * list (string * value))%type.

(** The registrations a sequence of [add_event_handler] calls makes for
    [ev], in the order of the calls; a call whose event is not a member of
    [Events] makes none. *)
Definition registrations_for (ev : Events) (calls : list registering) : list registration :=
  omap (λ c : registering,
          match c.1.1.1 with
          | VEvent e => if decide (e = ev) then Some (c.1.1.2, c.1.2, c.2) else None
          | _ => None
          end) calls.

(** No event is registered with an empty handler list. *)
Definition entries_nonempty (self : Engine) : Prop :=
  ∀ k l, _event_handlers self !! k = Some l → l ≠ [].

(** ** Sample callables and engines

    Concrete callables, a dataset and engines at which the theorems are
    instantiated. *)

(** A stand-in for Python's [str]. *)
Definition sample_str (v : value) : string := type_name v.

(** A stand-in for the elapsed-time breakdown. *)
Definition sample_hms : Z * Z * Z := (0, 0, 0)%Z.

(** Callable [0] is a process function that returns its batch; [1] is a
    process function that raises [ValueError("x")] on the batch [2];
    [2] is a handler that calls [terminate()] when the iteration counter
    reads [3]; [3] is a handler that raises a [RuntimeError]; any other
    callable is a handler that does nothing. *)
Definition sample_call (f : callable) (self : Engine) (args : list value)
    (kwargs : list (string * value)) : Engine * result value :=
  match f with
  | 0 => (self, Ok (default VNone (head args)))
  | 1 => match args with
         | [VInt z] => if (z =? 2)%Z then (self, Err (ValueError "x")) else (self, Ok VNone)
         | _ => (self, Ok VNone)
         end
  | 2 => (if (int_attr "iteration" self =? 3)%Z then terminate self else self, Ok VNone)
  | 3 => (self, Err (Exn "RuntimeError" "handler failed"))
  | _ => (self, Ok VNone)
  end.

(** A dataset of two batches. *)
Definition two_batches : value := VList [VInt 1; VInt 2].

(** An engine around process function [0], without handlers. *)
Definition plain_engine : Engine := mkEngine ∅ 0 false None.

(** Two handlers registered for [ITERATION_STARTED], with their own
    arguments. *)
Definition listening_engine : Engine :=
  mkEngine {[ KEvent ITERATION_STARTED := [(4, [VInt 10], []); (5, [], [("tag", VInt 20)])] ]}
    0 false None.

(** Handler [2] registered for [ITERATION_COMPLETED]. *)
Definition terminating_engine : Engine :=
  mkEngine {[ KEvent ITERATION_COMPLETED := [(2, [], [])] ]} 0 false None.

(** Process function [1] with a quiet [EXCEPTION_RAISED] handler. *)
Definition guarded_engine : Engine :=
  mkEngine {[ KEvent EXCEPTION_RAISED := [(4, [], [])] ]} 1 false None.

(** Process function [1] with the raising handler [3] registered for
    [EXCEPTION_RAISED]. *)
Definition failing_engine : Engine :=
  mkEngine {[ KEvent EXCEPTION_RAISED := [(3, [], [])] ]} 1 false None.

(** A run state as [run] builds it, in its first epoch. *)
Definition sample_state : State :=
  State_init [("dataloader", two_batches); ("epoch", VInt 1); ("max_epochs", VInt 2);
              ("metrics", VDict [])].

(** An engine in the middle of a run. *)
Definition running (self : Engine) : Engine := set_state (Some sample_state) self.

(** The raising handler [3], then a quiet one, registered for
    [ITERATION_STARTED]. *)
Definition interrupted_engine : Engine :=
  mkEngine {[ KEvent ITERATION_STARTED := [(3, [], []); (4, [], [])] ]} 0 false None.

(** A sequence of [add_event_handler] calls, the second one with a string
    in place of an event. *)
Definition sample_calls : list registering :=
  [(VEvent ITERATION_STARTED, 4, [], []);
   (VStr "iteration_started", 5, [], []);
   (VEvent EPOCH_COMPLETED, 6, [], []);
   (VEvent ITERATION_STARTED, 5, [VInt 1], [])].

(** Callable [0] is a handler that registers callable [1] for
    [ITERATION_STARTED]; any other callable does nothing. *)
Definition registering_call (f : callable) (self : Engine) (args : list value)
    (kwargs : list (string * value)) : Engine * result value :=
  match f with
  | 0 => (set_event_handlers
            (<[KEvent ITERATION_STARTED :=
                 handlers_of self ITERATION_STARTED ++ [(1, [VInt 5], [])]]>
               (_event_handlers self)) self, Ok VNone)
  | _ => (self, Ok VNone)
  end.

(** Handler [0] registered for [ITERATION_STARTED]. *)
Definition registering_engine : Engine :=
  mkEngine {[ KEvent ITERATION_STARTED := [(0, [], [])] ]} 0 false None.

(** * Proofs *)

(** *** The run state's attributes *)

Lemma getattr_state_Some k v s :
  attr k (eng s) = Some v → getattr_state k s = (s, Ret v).
Proof.
  unfold attr, getattr_state, bind, get_self. cbn.
  destruct (state (eng s)) as [st|]; cbn; [|done]. by intros ->.
Qed.

Lemma getattr_state_cases k s :
  (∃ v, attr k (eng s) = Some v ∧ getattr_state k s = (s, Ret v)) ∨
  (∃ x, attr k (eng s) = None ∧ getattr_state k s = (s, Raise x)).
Proof.
  unfold attr, getattr_state, bind, get_self. cbn.
  destruct (state (eng s)) as [st|]; cbn; [|by right; eexists].
  destruct (st !! k); [left|right]; by eexists.
Qed.

Lemma setattr_state_cases k v s :
  (∃ st, state (eng s) = Some st ∧
     setattr_state k v s = (mkSt (set_state (Some (<[k := v]> st)) (eng s)) (trace s), Ret tt)) ∨
  (∃ x, state (eng s) = None ∧ setattr_state k v s = (s, Raise x)).
Proof.
  unfold setattr_state, bind, get_self. cbn.
  destruct (state (eng s)) as [st|]; cbn; [left|right]; by eexists.
Qed.

Lemma attr_set_state_eq k v st self :
  attr k (set_state (Some (<[k := v]> st)) self) = Some v.
Proof. unfold attr. cbn. by rewrite lookup_insert_eq. Qed.

Lemma attr_set_state_ne k k' v st self :
  k ≠ k' → state self = Some st →
  attr k' (set_state (Some (<[k := v]> st)) self) = attr k' self.
Proof. intros Hne Hst. unfold attr. rewrite Hst. cbn. by rewrite lookup_insert_ne. Qed.

Lemma attr_is_Some_state k v self : attr k self = Some v → ∃ st, state self = Some st ∧ st !! k = Some v.
Proof. unfold attr. destruct (state self) as [st|]; cbn; [|done]. by exists st. Qed.

(** ** Dispatch in registration order *)

Lemma lift_to_outcome {A} (r : result A) s : lift r s = (s, to_outcome r).
Proof. by destruct r. Qed.

Lemma handlers_of_lookup self ev i :
  _event_handlers self !! KEvent ev ≫= (.!! i) = handlers_of self ev !! i.
Proof. unfold handlers_of. by destruct (_event_handlers self !! KEvent ev). Qed.

Lemma _fire_event_loop_S fuel ev event_args i s :
  _fire_event_loop (S fuel) ev event_args i s =
    match handlers_of (eng s) ev !! i with
    | None => (s, Ret tt)
    | Some (f, a, k) =>
        let '(self', r) := call f (eng s) (event_args ++ a) k in
        let s' := mkSt self' (trace s ++ [Handled f (eng s) (event_args ++ a) k self' r]) in
        match r with
        | Ok _ => _fire_event_loop fuel ev event_args (S i) s'
        | Err x => (s', Raise x)
        end
    end.
Proof.
  cbn [_fire_event_loop]. unfold bind at 1, get_self at 1.
  rewrite handlers_of_lookup.
  destruct (handlers_of (eng s) ev !! i) as [[[f a] k]|]; [|done].
  destruct (call f (eng s) (event_args ++ a) k) as [self' [v|x]]; done.
Qed.

(** While the handlers leave the list being walked alone (they preserve
    [J], which pins the list down), the loop of [_fire_event] from index
    [i] is the in-order dispatch of the rest of the list: exactly so when
    the fuel covers the rest, and otherwise unless the fuel runs out. *)
Lemma _fire_event_loop_in_order (J : Engine → Prop) regs ev event_args fuel : ∀ i s,
  (∀ e, J e → handlers_of e ev = regs) →
  (∀ f a k e, (f, a, k) ∈ regs → J e → J (call f e (event_args ++ a) k).1) →
  J (eng s) →
  let '(os, self', r) := dispatch_in_order (drop i regs) event_args (eng s) in
  let res := _fire_event_loop fuel ev event_args i s in
  (length regs - i < fuel → res = (mkSt self' (trace s ++ os), to_outcome r)) ∧
  (res = (mkSt self' (trace s ++ os), to_outcome r) ∨ res.2 = OutOfFuel).
Proof.
  induction fuel as [|fuel IH]; intros i s HJ Hk Hs.
  { destruct (dispatch_in_order _ _ _) as [[os self'] r]. split; [lia|by right]. }
  rewrite _fire_event_loop_S, (HJ _ Hs).
  destruct (regs !! i) as [[[f a] k]|] eqn:Hi.
  - rewrite (drop_S _ _ _ Hi). cbn [dispatch_in_order].
    assert (Hin : (f, a, k) ∈ regs) by (by eapply list_elem_of_lookup_2).
    pose proof (Hk _ _ _ _ Hin Hs) as Hkeep.
    destruct (call f (eng s) (event_args ++ a) k) as [self1 r1] eqn:Hc.
    cbn in Hkeep. destruct r1 as [v|x]; cbn.
    + specialize (IH (S i) (mkSt self1 (trace s ++ [Handled f (eng s) (event_args ++ a) k self1 (Ok v)]))
                     HJ Hk Hkeep). cbn in IH.
      destruct (dispatch_in_order (drop (S i) regs) event_args self1) as [[os self''] r'].
      rewrite <- app_assoc in IH. cbn in IH. destruct IH as [IH1 IH2].
      split; [|exact IH2]. intros Hf. apply IH1. apply lookup_lt_Some in Hi. lia.
    + split; [done|by left].
  - apply lookup_ge_None in Hi. rewrite drop_ge by done. cbn. rewrite app_nil_r.
    destruct s. split; [done|by left].
Qed.

Lemma dispatch_in_order_spec regs event_args : ∀ self,
  let '(os, self', r) := dispatch_in_order regs event_args self in
  invocations os = invoked_as event_args <$> take (length os) regs ∧
  threaded self os self' ∧
  match r with
  | Ok _ => length os = length regs ∧ Forall is_Ok (handler_results os)
  | Err x => ∃ rs, Forall is_Ok rs ∧ handler_results os = rs ++ [Err x]
  end.
Proof.
  unfold invocations, handler_results.
  induction regs as [|[[f a] k] regs IH]; intros self; cbn.
  - repeat split; constructor.
  - destruct (call f self (event_args ++ a) k) as [self1 r1] eqn:Hc.
    destruct r1 as [v|x].
    + specialize (IH self1).
      destruct (dispatch_in_order regs event_args self1) as [[os self'] r].
      destruct IH as (Hi & Ht & Hr). cbn. rewrite Hi. repeat split; try done.
      destruct r as [[]|x].
      * destruct Hr as [-> Hr]. split; [done|]. by constructor.
      * destruct Hr as (rs & Hrs & ->). exists (Ok v :: rs). split; [by constructor|done].
    + cbn. repeat split; try done. exists []. by split; [constructor|].
Qed.

Lemma _fire_event_cases (J : Engine → Prop) ev event_args fuel s :
  (∀ e, J e → handlers_of e ev = handlers_of (eng s) ev) →
  (∀ f a k e, (f, a, k) ∈ handlers_of (eng s) ev → J e → J (call f e (event_args ++ a) k).1) →
  J (eng s) →
  let '(os, self', r) := dispatch_in_order (handlers_of (eng s) ev) event_args (eng s) in
  let res := (mkSt self' (trace s ++ Fire ev event_args (eng s) :: os), to_outcome r) in
  (length (handlers_of (eng s) ev) < fuel → _fire_event fuel ev event_args s = res) ∧
  (_fire_event fuel ev event_args s = res ∨ (_fire_event fuel ev event_args s).2 = OutOfFuel).
Proof.
  intros HJ Hk Hs.
  assert (Hfire : _fire_event fuel ev event_args s =
    if decide (is_Some (_event_handlers (eng s) !! KEvent ev))
    then _fire_event_loop fuel ev event_args 0 (mkSt (eng s) (trace s ++ [Fire ev event_args (eng s)]))
    else (mkSt (eng s) (trace s ++ [Fire ev event_args (eng s)]), Ret tt)).
  { unfold _fire_event, bind, get_self, emit. cbn. by case_decide. }
  rewrite Hfire. clear Hfire.
  destruct (decide (is_Some (_event_handlers (eng s) !! KEvent ev))) as [Hreg|Hreg].
  - pose proof (_fire_event_loop_in_order J _ ev event_args fuel 0
      (mkSt (eng s) (trace s ++ [Fire ev event_args (eng s)])) HJ Hk Hs) as H.
    cbn in H. rewrite drop_0 in H.
    destruct (dispatch_in_order _ event_args (eng s)) as [[os self'] r].
    rewrite <- app_assoc in H. cbn in H. destruct H as [H1 H2].
    split; [|done]. intros Hf. apply H1. lia.
  - unfold handlers_of. destruct (_event_handlers (eng s) !! KEvent ev); [by destruct Hreg|].
    cbn. split; [done|by left].
Qed.

Lemma _fire_event_as_dispatch ev event_args fuel s :
  (∀ f a k, (f, a, k) ∈ handlers_of (eng s) ev →
     keeps (λ e, _event_handlers e !! KEvent ev) f) →
  length (handlers_of (eng s) ev) < fuel →
  _fire_event fuel ev event_args s =
    let '(os, self', r) := dispatch_in_order (handlers_of (eng s) ev) event_args (eng s) in
    (mkSt self' (trace s ++ Fire ev event_args (eng s) :: os), to_outcome r).
Proof.
  intros Hk Hf.
  pose proof (_fire_event_cases
    (λ e, _event_handlers e !! KEvent ev = _event_handlers (eng s) !! KEvent ev)
    ev event_args fuel s) as H.
  destruct (dispatch_in_order _ event_args (eng s)) as [[os self'] r].
  apply H; [| |done|done].
  - intros e He. unfold handlers_of. by rewrite He.
  - intros f a k e Hin He. by rewrite (Hk f a k Hin).
Qed.

(** Whatever every invoked handler preserves, the dispatch preserves. *)
Lemma dispatch_in_order_closed (P : Engine → Prop) regs event_args : ∀ self,
  (∀ f a k e, (f, a, k) ∈ regs → P e → P (call f e (event_args ++ a) k).1) →
  P self →
  P (dispatch_in_order regs event_args self).1.2.
Proof.
  induction regs as [|[[f a] k] regs IH]; intros self Hstep Hself; cbn; [done|].
  pose proof (Hstep f a k self (list_elem_of_here _ _) Hself) as H1.
  destruct (call f self (event_args ++ a) k) as [self1 [v|x]]; cbn in *; [|done].
  specialize (IH self1).
  destruct (dispatch_in_order regs event_args self1) as [[os self'] r]. cbn in *.
  apply IH; [|done]. intros. apply Hstep; [by apply list_elem_of_further|done].
Qed.

(** A dispatch whose handlers all return normally returns normally. *)
Lemma dispatch_in_order_Ok regs event_args : ∀ self,
  (∀ f a k, (f, a, k) ∈ regs → returns_normally f) →
  (dispatch_in_order regs event_args self).2 = Ok tt.
Proof.
  induction regs as [|[[f a] k] regs IH]; intros self Hn; cbn; [done|].
  destruct (Hn f a k (list_elem_of_here _ _) self (event_args ++ a) k) as [v Hv].
  destruct (call f self (event_args ++ a) k) as [self1 r]; cbn in *; subst.
  specialize (IH self1).
  destruct (dispatch_in_order regs event_args self1) as [[os self'] r]. cbn in *.
  apply IH. intros. eapply Hn. by apply list_elem_of_further.
Qed.

(** The entries a dispatch adds are handler invocations only. *)
Lemma dispatch_in_order_quiet regs event_args : ∀ self,
  let os := (dispatch_in_order regs event_args self).1.1 in
  fires os = [] ∧ processed os = [] ∧ caught os = [].
Proof.
  unfold fires, processed, caught.
  induction regs as [|[[f a] k] regs IH]; intros self; cbn; [done|].
  destruct (call f self (event_args ++ a) k) as [self1 [v|x]]; cbn; [|done].
  specialize (IH self1).
  by destruct (dispatch_in_order regs event_args self1) as [[os self'] r].
Qed.

Lemma in_Events_members_spec v : in_Events_members v = true ↔ ∃ e, v = VEvent e.
Proof.
  split.
  - intros H. apply existsb_exists in H as (m & _ & H).
    destruct v; try done. by eexists.
  - intros [e ->]. by destruct e.
Qed.

Lemma State_init_snoc kwargs k v :
  State_init (kwargs ++ [(k, v)]) = <[k := v]> (State_init kwargs).
Proof. unfold State_init. by rewrite foldl_app. Qed.

(** C6. A dispatch of an event with no registrations is a no-op. Otherwise
    the registrations of the event are invoked one after the other in
    registration order, each with the engine (as its predecessor left it),
    then the event arguments, then the registration's own positional and
    keyword arguments; when a handler raises, the dispatch raises that
    error at once and the registrations after it are not invoked. The
    handlers are assumed not to edit the list being walked. *)
Theorem _fire_event_in_registration_order ev event_args fuel s :
  (∀ f a k, (f, a, k) ∈ handlers_of (eng s) ev →
     keeps (λ e, _event_handlers e !! KEvent ev) f) →
  length (handlers_of (eng s) ev) < fuel →
  ∃ os self' r,
    _fire_event fuel ev event_args s =
      (mkSt self' (trace s ++ Fire ev event_args (eng s) :: os), to_outcome r) ∧
    dispatch_in_order (handlers_of (eng s) ev) event_args (eng s) = (os, self', r) ∧
    (handlers_of (eng s) ev = [] → os = [] ∧ self' = eng s ∧ r = Ok tt) ∧
    invocations os = invoked_as event_args <$> take (length os) (handlers_of (eng s) ev) ∧
    threaded (eng s) os self' ∧
    match r with
    | Ok _ => length os = length (handlers_of (eng s) ev) ∧ Forall is_Ok (handler_results os)
    | Err x => ∃ rs, Forall is_Ok rs ∧ handler_results os = rs ++ [Err x]
    end.
Proof.
  intros Hk Hf.
  pose proof (dispatch_in_order_spec (handlers_of (eng s) ev) event_args (eng s)) as Hspec.
  destruct (dispatch_in_order _ event_args (eng s)) as [[os self'] r] eqn:Hd.
  exists os, self', r. destruct Hspec as (Hi & Ht & Hr).
  split; [|split; [done|split; [|done]]].
  - rewrite _fire_event_as_dispatch by done. by rewrite Hd.
  - intros E. rewrite E in Hd. by inversion Hd.
Qed.

(** C7. For an [event_name] that is not one of the seven members of
    [Events], [add_event_handler] raises the invalid-event [ValueError]
    and leaves the engine, hence its handler table, exactly as it was. *)
Theorem add_event_handler_rejects_invalid_event event_name handler args kwargs self :
  (∀ e, event_name ≠ VEvent e) →
  add_event_handler event_name handler args kwargs self =
    (self, Err (invalid_event event_name)).
Proof.
  intros Hne. unfold add_event_handler.
  destruct (in_Events_members event_name) eqn:Hin; [|done].
  apply in_Events_members_spec in Hin as [e ->]. by destruct (Hne e).
Qed.

(** ** Termination under the frame assumption *)

Lemma longest_ge self ev : (length (handlers_of self ev) ≤ longest self)%nat.
Proof.
  apply max_list_elem_of_le, list_elem_of_fmap. exists ev. split; [done|].
  destruct ev; set_solver.
Qed.

Lemma handlers_of_wiring self self' ev :
  wiring self = wiring self' → handlers_of self ev = handlers_of self' ev.
Proof. unfold wiring, handlers_of. by intros [= -> _]. Qed.

Lemma registered_wiring self self' f :
  wiring self = wiring self' → registered self f → registered self' f.
Proof. unfold wiring, registered. by intros [= -> ->]. Qed.

Lemma registered_handler self ev f a k :
  (f, a, k) ∈ handlers_of self ev → registered self f.
Proof.
  unfold handlers_of. intros Hin. right.
  destruct (_event_handlers self !! KEvent ev) as [regs|] eqn:Hl; cbn in Hin.
  - by exists (KEvent ev), regs, a, k.
  - by apply elem_of_nil in Hin.
Qed.

Lemma registered_process_function self : registered self (_process_function self).
Proof. by left. Qed.

Lemma longest_wiring self self' : wiring self = wiring self' → longest self = longest self'.
Proof.
  intros Hw. unfold longest. f_equal. apply list_fmap_ext. intros _ ev _.
  by rewrite (handlers_of_wiring _ _ _ Hw).
Qed.

Lemma attr_set_attr_eq k v self : attr k (set_attr k v self) = Some v.
Proof. unfold attr. cbn. by rewrite lookup_insert_eq. Qed.

Lemma attr_set_attr_ne k k' v self :
  k ≠ k' → attr k' (set_attr k v self) = attr k' self.
Proof.
  intros Hne. unfold attr, set_attr. cbn. rewrite lookup_insert_ne by done.
  by destruct (state self).
Qed.

Lemma int_attr_set_attr_ne k k' v self :
  k ≠ k' → int_attr k' (set_attr k v self) = int_attr k' self.
Proof. intros Hne. unfold int_attr. by rewrite attr_set_attr_ne. Qed.

Lemma wiring_set_attr k v self : wiring (set_attr k v self) = wiring self.
Proof. done. Qed.

Lemma should_terminate_set_attr k v self :
  should_terminate (set_attr k v self) = should_terminate self.
Proof. done. Qed.

Lemma attr_Some_state k v self : attr k self = Some v → is_Some (state self).
Proof. unfold attr. destruct (state self); [by eexists|done]. Qed.

Lemma setattr_state_Some k v s :
  is_Some (state (eng s)) →
  setattr_state k v s = (mkSt (set_attr k v (eng s)) (trace s), Ret tt).
Proof.
  intros [st Hst]. unfold setattr_state, bind, get_self, set_attr. cbn.
  by rewrite Hst.
Qed.

Lemma setattr_state_None k v s :
  state (eng s) = None →
  setattr_state k v s = (s, Raise (no_attribute "NoneType" k)).
Proof. intros Hst. unfold setattr_state, bind, get_self. cbn. by rewrite Hst. Qed.

Lemma incr_state_Int k z s :
  attr k (eng s) = Some (VInt z) →
  incr_state k s = (mkSt (set_attr k (VInt (z + 1)) (eng s)) (trace s), Ret tt).
Proof.
  intros Ha. unfold incr_state, bind. rewrite (getattr_state_Some _ _ _ Ha). cbn.
  apply setattr_state_Some. by eapply attr_Some_state.
Qed.

(** Outcomes of [incr_state]: the counter was an integer and is now one
    more, or the statement raised and nothing changed. *)
Lemma incr_state_cases k s :
  (∃ z, attr k (eng s) = Some (VInt z) ∧
        incr_state k s = (mkSt (set_attr k (VInt (z + 1)) (eng s)) (trace s), Ret tt)) ∨
  (∃ x, incr_state k s = (s, Raise x)).
Proof.
  destruct (getattr_state_cases k s) as [(v & Hv & Hg)|(x & Hv & Hg)].
  - destruct v as [|z| | | | |].
    2:{ left. exists z. split; [done|]. by apply incr_state_Int. }
    all: right; unfold incr_state, bind; rewrite Hg; cbn; by eexists.
  - right. unfold incr_state, bind. rewrite Hg. by eexists.
Qed.

Lemma bind_Ret {A B} (m : M A) (k : A → M B) s s' a :
  m s = (s', Ret a) → bind m k s = k a s'.
Proof. unfold bind. by intros ->. Qed.

Lemma bind_Raise {A B} (m : M A) (k : A → M B) s s' x :
  m s = (s', Raise x) → bind m k s = (s', Raise x).
Proof. unfold bind. by intros ->. Qed.

Lemma bind_OutOfFuel {A B} (m : M A) (k : A → M B) s :
  (m s).2 = OutOfFuel → (bind m k s).2 = OutOfFuel.
Proof. unfold bind. destruct (m s) as [s' [a|x|]]; cbn; by intros. Qed.

(** ** The run with the handler lists held fixed *)

Lemma play_nil {A} self (a : A) s :
  play ([], self, Ok a) s = (mkSt self (trace s), Ret a).
Proof. unfold play. cbn. by rewrite app_nil_r. Qed.

Lemma play_same_trace {A} (o : out A) s s' : trace s = trace s' → play o s = play o s'.
Proof. destruct o as [[t self] r]. unfold play. by intros ->. Qed.

Lemma played_bind {A B} (m : M A) (k : A → M B) (om : out A) (ok : A → Engine → out B) s :
  m s = play om s →
  (∀ t self a, om = (t, self, Ok a) →
     k a (mkSt self (trace s ++ t)) = play (ok a self) (mkSt self (trace s ++ t))) →
  bind m k s = play (and_then om ok) s.
Proof.
  intros Hm Hk. destruct om as [[t self] [a|x]]; unfold bind; rewrite Hm; cbn.
  - rewrite (Hk t self a eq_refl).
    destruct (ok a self) as [[t' self'] r']. cbn. by rewrite app_assoc.
  - done.
Qed.

(** *** What the frame preserves *)

Lemma run_stable_pass_stable self0 P : run_stable self0 P → pass_stable self0 P.
Proof. intros [Hc Hs]. repeat split; try apply Hc; intros; by apply Hs. Qed.

Lemma steady_call self0 ep data f e a k :
  frame_ok self0 → registered self0 f →
  steady self0 ep data e → steady self0 ep data (call f e a k).1.
Proof.
  intros Hf Hr (Hw & Hit & Hep & Hd).
  destruct (Hf f Hr) as [Hkw Hkp].
  specialize (Hkw e a k). specialize (Hkp e a k). unfold progress in Hkp.
  injection Hkp as Hk1 Hk2 Hk3.
  unfold steady. by rewrite Hkw, Hk1, Hk2, Hk3.
Qed.

Lemma steady_has_state self0 ep data e : steady self0 ep data e → is_Some (state e).
Proof. intros (_ & _ & Hep & _). by eapply attr_Some_state. Qed.

Lemma steady_set_attr self0 ep data k v e :
  k ≠ "iteration" → k ≠ "epoch" → k ≠ "dataloader" →
  steady self0 ep data e → steady self0 ep data (set_attr k v e).
Proof.
  intros H1 H2 H3 (Hw & Hit & Hep & Hd).
  unfold steady. by rewrite !attr_set_attr_ne by done.
Qed.

Lemma steady_set_iteration self0 ep data z e :
  steady self0 ep data e → steady self0 ep data (set_attr "iteration" (VInt z) e).
Proof.
  intros (Hw & Hit & Hep & Hd).
  unfold steady. rewrite attr_set_attr_eq, !attr_set_attr_ne by done. eauto.
Qed.

Lemma steady_set_epoch self0 ep ep' data e :
  steady self0 ep data e → steady self0 ep' data (set_attr "epoch" (VInt ep') e).
Proof.
  intros (Hw & Hit & Hep & Hd).
  unfold steady. rewrite attr_set_attr_eq, !attr_set_attr_ne by done. eauto.
Qed.

Lemma steady_pass_stable self0 ep data :
  frame_ok self0 → pass_stable self0 (steady self0 ep data).
Proof.
  intros Hf. split; [split|split; [|split]].
  - by intros e (Hw & _).
  - intros. by apply steady_call.
  - intros. by apply steady_set_attr.
  - intros. by apply steady_set_attr.
  - intros. by apply steady_set_iteration.
Qed.

Lemma dispatch_stable self0 P ev event_args e :
  call_stable self0 P → P e → P (dispatch ev event_args e).1.2.
Proof.
  intros (Hw & Hc) He. unfold dispatch.
  pose proof (dispatch_in_order_closed P (handlers_of e ev) event_args e) as H.
  destruct (dispatch_in_order _ event_args e) as [[os e'] r]. cbn in *.
  apply H; [|done]. intros f a k e1 Hin H1. apply Hc; [|done].
  apply (registered_wiring e); [by apply Hw|]. by eapply registered_handler.
Qed.

Lemma handle_exception_stable self0 P x e :
  call_stable self0 P → P e → P (handle_exception_played x e).1.2.
Proof.
  intros HP He. unfold handle_exception_played. case_decide; [|done].
  by eapply dispatch_stable.
Qed.

Lemma and_then_stable {A B} (P : Engine → Prop) (m : out A) (k : A → Engine → out B) :
  P m.1.2 → (∀ a e, P e → P (k a e).1.2) → P (and_then m k).1.2.
Proof.
  destruct m as [[t e] [a|x]]; cbn; [|done]. intros He Hk.
  specialize (Hk a e He). by destruct (k a e) as [[t' e'] r'].
Qed.

Lemma process_stable self0 P b e :
  call_stable self0 P → P e → P (process_played b e).1.2.
Proof.
  intros (Hw & Hc) He. unfold process_played.
  pose proof (Hc (_process_function e) e [b] []) as H.
  destruct (call (_process_function e) e [b] []) as [e' r]. cbn in *.
  apply H; [|done]. apply (registered_wiring e); [by apply Hw|]. by left.
Qed.

Lemma iteration_stable self0 P b e :
  pass_stable self0 P → P e → P (iteration_played b e).1.2.
Proof.
  intros HP He. pose proof HP as (Hc & Hb & Ho & Hi). unfold iteration_played.
  apply and_then_stable.
  { eapply dispatch_stable; [done|].
    rewrite <- (int_attr_set_attr_ne "batch" "iteration" b e) by done. apply Hi, Hb, He. }
  intros _ e2 He2. apply and_then_stable; [by eapply process_stable|].
  intros v e3 He3. eapply dispatch_stable; [done|]. by apply Ho.
Qed.

Lemma batches_stable self0 P bs : ∀ e,
  pass_stable self0 P → P e → P (batches_played bs e).1.2.
Proof.
  induction bs as [|b bs IH]; intros e HP He; cbn; [done|].
  apply and_then_stable; [by eapply iteration_stable|].
  intros _ e' He'. destruct (should_terminate e'); [done|]. by apply IH.
Qed.

Lemma once_on_dataset_stable self0 P e :
  pass_stable self0 P → P e → P (once_on_dataset_played e).1.2.
Proof.
  intros HP He. unfold once_on_dataset_played.
  assert (Hbody : P (match py_iter (default VNone (attr "dataloader" e)) with
                     | Ok batches => batches_played batches e
                     | Err x => ([], e, Err x)
                     end).1.2).
  { destruct (py_iter _); [by eapply batches_stable|done]. }
  destruct (match py_iter _ with Ok _ => _ | Err _ => _ end) as [[t e'] [[]|x]]; cbn in *; [done|].
  pose proof (handle_exception_stable _ _ x _ (proj1 HP) Hbody) as Hh.
  by destruct (handle_exception_played x e') as [[t' e''] [[]|y]].
Qed.

(** *** The code equals its fixed-wiring reading *)

Section Played.

Variable self0 : Engine.
Variable data : value.
Hypothesis Hframe : frame_ok self0.

Lemma _fire_event_played ep fuel ev event_args s :
  steady self0 ep data (eng s) →
  longest self0 < fuel →
  _fire_event fuel ev event_args s = play (dispatch ev event_args (eng s)) s.
Proof.
  intros Hs Hf.
  pose proof (_fire_event_cases (steady self0 ep data) ev event_args fuel s) as H.
  unfold dispatch, play.
  destruct (dispatch_in_order _ event_args (eng s)) as [[os self'] r].
  apply H; [| |done|].
  - intros e (Hw & _). destruct Hs as (Hw' & _).
    apply handlers_of_wiring. congruence.
  - intros f a k e Hin He. apply steady_call; [done| |done].
    apply (registered_wiring (eng s)); [by destruct Hs|]. by eapply registered_handler.
  - pose proof (longest_ge (eng s) ev) as Hl.
    rewrite (longest_wiring (eng s) self0) in Hl by (by destruct Hs). lia.
Qed.

Lemma _handle_exception_played ep fuel x s :
  steady self0 ep data (eng s) →
  longest self0 < fuel →
  _handle_exception fuel x s = play (handle_exception_played x (eng s)) s.
Proof.
  intros Hs Hf. unfold _handle_exception, handle_exception_played, bind, get_self. cbn.
  case_decide; [by eapply _fire_event_played|].
  unfold raise, play. cbn. by rewrite app_nil_r; destruct s.
Qed.

Lemma _run_iteration_played ep fuel batch s :
  steady self0 ep data (eng s) →
  longest self0 < fuel →
  _run_iteration fuel batch s = play (iteration_played batch (eng s)) s.
Proof.
  intros Hs Hf. unfold _run_iteration, iteration_played.
  rewrite (bind_Ret _ _ _ _ _ (setattr_state_Some _ _ _ (steady_has_state _ _ _ _ Hs))).
  assert (Hs1 : steady self0 ep data (set_attr "batch" batch (eng s)))
    by (by apply steady_set_attr).
  destruct Hs as (Hw & [it Hit] & Hep & Hd).
  assert (Hit1 : attr "iteration" (set_attr "batch" batch (eng s)) = Some (VInt it))
    by (by rewrite attr_set_attr_ne).
  rewrite (bind_Ret _ _ _ _ _
    (incr_state_Int "iteration" it (mkSt (set_attr "batch" batch (eng s)) (trace s)) Hit1)).
  cbn [eng trace].
  replace (int_attr "iteration" (eng s)) with it by (unfold int_attr; by rewrite Hit).
  set (s1 := mkSt _ (trace s)).
  rewrite <- (play_same_trace _ s1 s) by done.
  assert (Hs1' : steady self0 ep data (eng s1)) by (by apply steady_set_iteration).
  apply played_bind; [by eapply _fire_event_played|].
  intros t1 self2 [] Hd1.
  assert (Hs2 : steady self0 ep data self2).
  { pose proof (dispatch_stable self0 _ ITERATION_STARTED [] _
                  (proj1 (steady_pass_stable self0 ep data Hframe)) Hs1') as H.
    unfold s1 in H. cbn [eng] in H. by rewrite Hd1 in H. }
  set (s2 := mkSt self2 _).
  change (bind get_self ?k s2) with (k self2 s2). cbv beta.
  unfold process_played at 1.
  pose proof (process_stable self0 _ batch self2
                (proj1 (steady_pass_stable self0 ep data Hframe)) Hs2) as Hs3.
  unfold process_played in Hs3.
  destruct (call (_process_function self2) self2 [batch] []) as [self3 r] eqn:Hc.
  cbn in Hs3. unfold bind at 1, put_self at 1. unfold bind at 1, emit at 1. cbn [eng trace].
  destruct r as [output|x]; cbn [lift].
  - unfold bind at 1, ret at 1. cbn [and_then].
    set (s3 := mkSt self3 _).
    rewrite (bind_Ret _ _ _ _ _
      (setattr_state_Some "output" output s3 (steady_has_state _ _ _ _ Hs3))).
    cbn [eng trace].
    rewrite (_fire_event_played ep) by (by try apply steady_set_attr).
    cbn [eng trace].
    destruct (dispatch ITERATION_COMPLETED [] _) as [[t3 self5] r3]. unfold play.
    cbn. by rewrite <- app_assoc.
  - by unfold bind, raise, play.
Qed.

Lemma _run_batches_played ep fuel batches : ∀ s,
  steady self0 ep data (eng s) →
  longest self0 < fuel →
  _run_batches fuel batches s = play (batches_played batches (eng s)) s.
Proof.
  induction batches as [|batch rest IH]; intros s Hs Hf; cbn [_run_batches batches_played].
  { by rewrite play_nil; destruct s. }
  apply played_bind; [by eapply _run_iteration_played|].
  intros t self' [] Hit. change (bind get_self ?k ?s1) with (k (eng s1) s1). cbn [eng].
  destruct (should_terminate self'); [by rewrite play_nil|].
  apply IH; [|done]. cbn [eng].
  pose proof (iteration_stable self0 _ batch _ (steady_pass_stable self0 ep data Hframe) Hs) as H.
  by rewrite Hit in H.
Qed.

Lemma try_except_Ret {A} (m : M A) h s s' a :
  m s = (s', Ret a) → try_except m h s = (s', Ret a).
Proof. unfold try_except. by intros ->. Qed.

Lemma try_except_Raise {A} (m : M A) h s s' x :
  m s = (s', Raise x) → try_except m h s = h x s'.
Proof. unfold try_except. by intros ->. Qed.

Lemma _run_once_on_dataset_played ep fuel s :
  steady self0 ep data (eng s) →
  longest self0 < fuel →
  _run_once_on_dataset fuel s = play (once_on_dataset_played (eng s)) s.
Proof.
  intros Hs Hf. unfold _run_once_on_dataset, once_on_dataset_played.
  pose proof Hs as (Hw & Hit & Hep & Hd). rewrite Hd.
  change (default VNone (Some data)) with data.
  set (body := match py_iter data with
               | Ok batches => batches_played batches (eng s)
               | Err x => ([], eng s, Err x)
               end).
  assert (Hbody : (let* dataloader := getattr_state "dataloader" in
                   let* batches := lift (py_iter dataloader) in
                   _run_batches fuel batches;; ret (Some hms)) s =
                  play (and_then body (λ _ self', ([], self', Ok (Some hms)))) s).
  { rewrite (bind_Ret _ _ _ _ _ (getattr_state_Some _ _ _ Hd)). unfold body.
    destruct (py_iter data) as [batches|x]; cbn [lift].
    - unfold bind at 1, ret at 1. apply played_bind; [by eapply _run_batches_played|].
      intros. by rewrite play_nil.
    - unfold bind, raise, play. cbn. by rewrite app_nil_r; destruct s. }
  assert (Hst : steady self0 ep data body.1.2).
  { unfold body. destruct (py_iter data); [|done].
    by eapply batches_stable; [apply steady_pass_stable|]. }
  destruct body as [[t self'] [[]|x]]; cbn in Hst; cbn [and_then] in Hbody.
  - rewrite app_nil_r in Hbody. by apply try_except_Ret.
  - erewrite try_except_Raise by exact Hbody.
    cbn [and_then]. unfold bind at 1, emit at 1. cbn [eng trace].
    erewrite played_bind with (om := handle_exception_played x self')
      (ok := λ _ self'', ([], self'', Ok None)).
    + destruct (and_then (handle_exception_played x self') _) as [[t' self''] r'].
      unfold play. cbn. by rewrite !app_assoc.
    + by eapply _handle_exception_played.
    + intros. by rewrite play_nil.
Qed.

Lemma once_on_dataset_steady ep e :
  steady self0 ep data e → steady self0 ep data (once_on_dataset_played e).1.2.
Proof. intros. by eapply once_on_dataset_stable; [apply steady_pass_stable|]. Qed.

Lemma dispatch_steady ep ev event_args e :
  steady self0 ep data e → steady self0 ep data (dispatch ev event_args e).1.2.
Proof. intros. by eapply dispatch_stable; [apply (proj1 (steady_pass_stable _ _ _ Hframe))|]. Qed.

Lemma _run_epochs_played max_epochs n : ∀ fuel ep s,
  steady self0 ep data (eng s) →
  Z.to_nat (max_epochs - ep) ≤ n →
  longest self0 + n < fuel →
  _run_epochs fuel max_epochs s = play (epochs_played n max_epochs (eng s)) s.
Proof.
  induction n as [|n IH]; intros fuel ep s Hs Hn Hf.
  all: destruct fuel as [|fuel]; [lia|].
  all: cbn [_run_epochs epochs_played].
  all: pose proof Hs as (Hw & Hit & Hep & Hd).
  all: rewrite (bind_Ret _ _ _ _ _ (getattr_state_Some _ _ _ Hep)).
  all: cbn [py_lt lift]; unfold bind at 1, ret at 1.
  all: change (bind get_self ?k s) with (k (eng s) s); cbv beta.
  all: replace (int_attr "epoch" (eng s)) with ep by (unfold int_attr; by rewrite Hep).
  all: destruct ((ep <? max_epochs)%Z && negb (should_terminate (eng s))) eqn:Hc;
    [|by rewrite play_nil; destruct s].
  { apply andb_true_iff in Hc as [Hc _]. apply Z.ltb_lt in Hc. lia. }
  apply andb_true_iff in Hc as [Hc _]. apply Z.ltb_lt in Hc.
  rewrite (bind_Ret _ _ _ _ _ (incr_state_Int _ _ _ Hep)).
  set (s1 := mkSt _ (trace s)).
  rewrite <- (play_same_trace _ s1 s) by done.
  assert (Hs1 : steady self0 (ep + 1) data (eng s1)) by (by apply (steady_set_epoch _ ep)).
  apply played_bind; [eapply (_fire_event_played (ep + 1)); [done|lia]|].
  intros t1 self2 [] Hd1.
  assert (Hs2 : steady self0 (ep + 1) data self2).
  { pose proof (dispatch_steady _ EPOCH_STARTED [] _ Hs1) as H.
    unfold s1 in H. cbn [eng] in H. by rewrite Hd1 in H. }
  apply played_bind; [eapply (_run_once_on_dataset_played (ep + 1)); [done|lia]|].
  intros t2 self3 r Hd2.
  assert (Hs3 : steady self0 (ep + 1) data self3).
  { pose proof (once_on_dataset_steady _ _ Hs2) as H. by rewrite Hd2 in H. }
  destruct r as [t|]; cbn [unpack_hms].
  2:{ unfold bind, raise, play. cbn. by rewrite app_nil_r. }
  unfold bind at 1, ret at 1.
  erewrite (bind_Ret (getattr_state "epoch") _ _ _ (VInt (ep + 1)))
    by (apply getattr_state_Some; exact (proj1 (proj2 (proj2 Hs3)))).
  match goal with |- bind get_self ?k ?s3 = _ => change (bind get_self k s3) with (k (eng s3) s3) end.
  cbn [eng].
  destruct (should_terminate self3); [by rewrite play_nil|].
  apply played_bind; [eapply (_fire_event_played (ep + 1)); [done|lia]|].
  intros t4 self4 [] Hd4. eapply (IH _ (ep + 1)%Z); [|  |lia].
  - pose proof (dispatch_steady _ EPOCH_COMPLETED [] _ Hs3) as H. cbn [eng].
    rewrite Hd4 in H. exact H.
  - lia.
Qed.

Lemma epochs_steady max_epochs n : ∀ ep e,
  steady self0 ep data e →
  ∃ ep', steady self0 ep' data (epochs_played n max_epochs e).1.2.
Proof.
  induction n as [|n IH]; intros ep e He; cbn [epochs_played];
    destruct (_ && _); eauto.
  apply (and_then_stable (λ e, ∃ ep', steady self0 ep' data e)).
  { eexists. apply dispatch_steady. by apply (steady_set_epoch _ ep). }
  intros _ e2 [ep2 He2].
  apply (and_then_stable (λ e, ∃ ep', steady self0 ep' data e)).
  { eexists. by apply once_on_dataset_steady. }
  intros [r|] e3 [ep3 He3]; [|by eexists].
  destruct (should_terminate e3); [by eexists|].
  apply (and_then_stable (λ e, ∃ ep', steady self0 ep' data e)).
  { eexists. by apply dispatch_steady. }
  intros _ e4 [ep4 He4]. by eapply IH.
Qed.

Lemma run_body_steady max_epochs ep e :
  steady self0 ep data e →
  ∃ ep', steady self0 ep' data (run_body_played max_epochs e).1.2.
Proof.
  intros He. unfold run_body_played.
  apply (and_then_stable (λ e, ∃ ep', steady self0 ep' data e)).
  { eexists. by apply dispatch_steady. }
  intros _ e1 [ep1 He1].
  apply (and_then_stable (λ e, ∃ ep', steady self0 ep' data e)).
  { by eapply epochs_steady. }
  intros _ e2 [ep2 He2]. eexists. by apply dispatch_steady.
Qed.

End Played.

Lemma steady_fresh self data max_epochs :
  steady self 0 data (set_state (Some (fresh_state data max_epochs)) self).
Proof. split; [done|]. split; [by exists 0%Z|]. done. Qed.

(** With the frame assumption and fuel for the longest handler list and
    the epochs asked for, [run] does what [run_played] says. *)
Lemma run_as_played fuel data max_epochs s :
  frame_ok (eng s) →
  longest (eng s) + Z.to_nat max_epochs < fuel →
  run fuel data max_epochs s = play (run_played data max_epochs (eng s)) s.
Proof.
  intros Hframe Hf. unfold run, run_played.
  change (bind get_self ?k s) with (k (eng s) s). cbv beta.
  unfold bind at 1, put_self at 1. cbn [eng trace].
  fold (fresh_state data max_epochs).
  set (s0 := mkSt _ (trace s)).
  pose proof (steady_fresh (eng s) data max_epochs) as Hs0.
  assert (Hbody : (_fire_event fuel STARTED [];; _run_epochs fuel max_epochs;;
                   _fire_event fuel COMPLETED []) s0 =
                  play (run_body_played max_epochs (eng s0)) s0).
  { apply played_bind; [eapply (_fire_event_played (eng s) data Hframe 0); [done|lia]|].
    intros t1 self1 [] Hd1.
    assert (Hs1 : steady (eng s) 0 data self1).
    { pose proof (dispatch_steady (eng s) data Hframe 0 STARTED [] _ Hs0) as H.
      unfold s0 in Hd1. cbn [eng] in Hd1. by rewrite Hd1 in H. }
    apply played_bind.
    { eapply (_run_epochs_played (eng s) data Hframe _ _ _ 0); [done| |]; cbn [eng]; lia. }
    intros t2 self2 [] Hd2.
    assert (∃ ep, steady (eng s) ep data self2) as [ep Hs2].
    { pose proof (epochs_steady (eng s) data Hframe max_epochs (Z.to_nat max_epochs) 0 _ Hs1) as H.
      by rewrite Hd2 in H. }
    eapply (_fire_event_played (eng s) data Hframe ep); [done|lia]. }
  destruct (run_body_steady (eng s) data Hframe max_epochs 0 _ Hs0) as [ep' Hst].
  change (set_state (Some (fresh_state data max_epochs)) (eng s)) with (eng s0) in Hst |- *.
  destruct (run_body_played max_epochs (eng s0)) as [[t self'] [[]|x]] eqn:Hrb;
    cbn [fst snd] in Hst.
  - by rewrite (bind_Ret _ _ _ _ _ (try_except_Ret _ _ _ _ _ Hbody)).
  - unfold bind at 1. erewrite try_except_Raise by exact Hbody.
    unfold bind at 1, emit at 1. cbn [eng trace].
    erewrite (_handle_exception_played (eng s) data Hframe ep') by (done || cbn [eng]; lia).
    cbn [eng and_then].
    destruct (handle_exception_played x self') as [[t' self''] [[]|y]]; cbn.
    + by rewrite !app_nil_r, !app_assoc.
    + by rewrite !app_assoc.
Qed.

(** ** Runs in which nothing raises *)

Lemma fires_app t1 t2 : fires (t1 ++ t2) = fires t1 ++ fires t2.
Proof. apply omap_app. Qed.

Lemma processed_app t1 t2 : processed (t1 ++ t2) = processed t1 ++ processed t2.
Proof. apply omap_app. Qed.

Lemma caught_app t1 t2 : caught (t1 ++ t2) = caught t1 ++ caught t2.
Proof. apply omap_app. Qed.

Lemma invocations_app t1 t2 : invocations (t1 ++ t2) = invocations t1 ++ invocations t2.
Proof. apply omap_app. Qed.

Lemma fires_Fire ev a e t : fires (Fire ev a e :: t) = ev :: fires t.
Proof. done. Qed.

Lemma fires_Handled f e a k e' r t : fires (Handled f e a k e' r :: t) = fires t.
Proof. done. Qed.

Lemma fires_Processed f e b e' r t : fires (Processed f e b e' r :: t) = fires t.
Proof. done. Qed.

Lemma fires_LogError m x t : fires (LogError m x :: t) = fires t.
Proof. done. Qed.

Lemma processed_Fire ev a e t : processed (Fire ev a e :: t) = processed t.
Proof. done. Qed.

Lemma processed_Processed f e b e' r t :
  processed (Processed f e b e' r :: t) = b :: processed t.
Proof. done. Qed.

Lemma processed_LogError m x t : processed (LogError m x :: t) = processed t.
Proof. done. Qed.

Lemma caught_Fire ev a e t : caught (Fire ev a e :: t) = caught t.
Proof. done. Qed.

Lemma caught_Processed f e b e' r t : caught (Processed f e b e' r :: t) = caught t.
Proof. done. Qed.

Lemma caught_LogError m x t : caught (LogError m x :: t) = x :: caught t.
Proof. done. Qed.

Lemma invocations_Fire ev a e t : invocations (Fire ev a e :: t) = invocations t.
Proof. done. Qed.

Lemma invocations_Processed f e b e' r t :
  invocations (Processed f e b e' r :: t) = invocations t.
Proof. done. Qed.

Lemma invocations_LogError m x t : invocations (LogError m x :: t) = invocations t.
Proof. done. Qed.

Lemma fires_nil : fires [] = [].
Proof. done. Qed.

Lemma processed_nil : processed [] = [].
Proof. done. Qed.

Lemma caught_nil : caught [] = [].
Proof. done. Qed.

Lemma invocations_nil : invocations [] = [].
Proof. done. Qed.

Create Rewrite HintDb trace.
#[local] Hint Rewrite fires_app processed_app caught_app invocations_app
  fires_Fire fires_Handled fires_Processed fires_LogError
  processed_Fire processed_Processed processed_LogError
  caught_Fire caught_Processed caught_LogError
  invocations_Fire invocations_Processed invocations_LogError
  fires_nil processed_nil caught_nil invocations_nil : trace.

Lemma counting_eq self0 it it' ep ep' data e :
  counting self0 it ep data e → it = it' → ep = ep' → counting self0 it' ep' data e.
Proof. by intros ? <- <-. Qed.

Lemma counting_steady self0 it ep data e : counting self0 it ep data e → steady self0 ep data e.
Proof. intros (Hw & Hit & Hep & Hd). repeat split; eauto. Qed.

Lemma counting_int_attr self0 it ep data e :
  counting self0 it ep data e → int_attr "iteration" e = it ∧ int_attr "epoch" e = ep.
Proof. intros (Hw & Hit & Hep & Hd). unfold int_attr. by rewrite Hit, Hep. Qed.

Lemma counting_call_stable self0 it ep data :
  frame_ok self0 → call_stable self0 (counting self0 it ep data).
Proof.
  intros Hf. split; [by intros e (Hw & _)|].
  intros f e a k Hr (Hw & Hit & Hep & Hd).
  destruct (Hf f Hr) as [Hkw Hkp].
  specialize (Hkw e a k). specialize (Hkp e a k). unfold progress in Hkp.
  injection Hkp as Hk1 Hk2 Hk3.
  unfold counting. by rewrite Hkw, Hk1, Hk2, Hk3.
Qed.

Lemma counting_set_attr self0 it ep data k v e :
  k ≠ "iteration" → k ≠ "epoch" → k ≠ "dataloader" →
  counting self0 it ep data e → counting self0 it ep data (set_attr k v e).
Proof.
  intros H1 H2 H3 (Hw & Hit & Hep & Hd).
  unfold counting. by rewrite !attr_set_attr_ne by done.
Qed.

Lemma counting_set_iteration self0 it it' ep data e :
  counting self0 it ep data e →
  counting self0 it' ep data (set_attr "iteration" (VInt it') e).
Proof.
  intros (Hw & Hit & Hep & Hd).
  unfold counting. by rewrite attr_set_attr_eq, !attr_set_attr_ne by done.
Qed.

Lemma counting_set_epoch self0 it ep ep' data e :
  counting self0 it ep data e →
  counting self0 it ep' data (set_attr "epoch" (VInt ep') e).
Proof.
  intros (Hw & Hit & Hep & Hd).
  unfold counting. by rewrite attr_set_attr_eq, !attr_set_attr_ne by done.
Qed.

(** What a dispatch adds to the trace, however it ends. *)
Lemma dispatch_trace ev event_args e :
  ∃ os, (dispatch ev event_args e).1.1 = Fire ev event_args e :: os ∧
        fires os = [] ∧ processed os = [] ∧ caught os = [].
Proof.
  unfold dispatch.
  pose proof (dispatch_in_order_quiet (handlers_of e ev) event_args e) as H.
  destruct (dispatch_in_order _ event_args e) as [[os e'] r]. by exists os.
Qed.

Lemma dispatch_normal self0 ev event_args e :
  handlers_normal self0 → wiring e = wiring self0 →
  (dispatch ev event_args e).2 = Ok tt.
Proof.
  intros Hn Hw. unfold dispatch.
  pose proof (dispatch_in_order_Ok (handlers_of e ev) event_args e) as H.
  destruct (dispatch_in_order _ event_args e) as [[os e'] r]. cbn in *.
  apply H. intros f a k Hin. apply (Hn ev f a k).
  by rewrite <- (handlers_of_wiring _ _ _ Hw).
Qed.

(** A dispatch in which nothing raises, as one equation. *)
Lemma dispatch_normal_eq self0 (P : Engine → Prop) ev event_args e :
  handlers_normal self0 → call_stable self0 P → P e →
  ∃ os e', dispatch ev event_args e = (Fire ev event_args e :: os, e', Ok tt) ∧
           fires os = [] ∧ processed os = [] ∧ caught os = [] ∧ P e'.
Proof.
  intros Hn HP He.
  destruct (dispatch_trace ev event_args e) as (os & Ht & Hq).
  pose proof (dispatch_normal self0 ev event_args e Hn (proj1 HP _ He)) as Hr.
  pose proof (dispatch_stable self0 P ev event_args e HP He) as Hs.
  destruct (dispatch ev event_args e) as [[t e'] r]. cbn in *. subst.
  exists os, e'. by destruct Hq as (? & ? & ?).
Qed.

(** Whatever the handlers of the event preserve, its dispatch preserves. *)
Lemma dispatch_closed (P : Engine → Prop) ev event_args e :
  (∀ f a k e', (f, a, k) ∈ handlers_of e ev → P e' → P (call f e' (event_args ++ a) k).1) →
  P e → P (dispatch ev event_args e).1.2.
Proof.
  intros Hstep He. unfold dispatch.
  pose proof (dispatch_in_order_closed P (handlers_of e ev) event_args e Hstep He) as H.
  by destruct (dispatch_in_order _ event_args e) as [[os e'] r].
Qed.

(** One iteration in which nothing raises, step by step: the engine and
    the trace entries of the [ITERATION_STARTED] dispatch, of the call of
    the process function and of the [ITERATION_COMPLETED] dispatch. *)
Lemma iteration_normal self0 data it ep b e :
  frame_ok self0 → handlers_normal self0 → processes self0 b →
  counting self0 it ep data e →
  let e1 := set_attr "iteration" (VInt (it + 1)) (set_attr "batch" b e) in
  ∃ os1 e2 v e3 os2 e5,
    dispatch ITERATION_STARTED [] e1 = (Fire ITERATION_STARTED [] e1 :: os1, e2, Ok tt) ∧
    call (_process_function self0) e2 [b] [] = (e3, Ok v) ∧
    dispatch ITERATION_COMPLETED [] (set_attr "output" v e3) =
      (Fire ITERATION_COMPLETED [] (set_attr "output" v e3) :: os2, e5, Ok tt) ∧
    iteration_played b e =
      (Fire ITERATION_STARTED [] e1 :: os1 ++
       [Processed (_process_function self0) e2 b e3 (Ok v)] ++
       Fire ITERATION_COMPLETED [] (set_attr "output" v e3) :: os2, e5, Ok tt) ∧
    (fires os1 = [] ∧ processed os1 = [] ∧ caught os1 = []) ∧
    (fires os2 = [] ∧ processed os2 = [] ∧ caught os2 = []) ∧
    counting self0 (it + 1) ep data e2 ∧
    counting self0 (it + 1) ep data e3 ∧
    counting self0 (it + 1) ep data e5.
Proof.
  intros Hf Hn Hp He e1.
  pose proof (counting_call_stable self0 (it + 1) ep data Hf) as Hst.
  assert (He1 : counting self0 (it + 1) ep data e1).
  { apply (counting_set_iteration _ it). by apply counting_set_attr. }
  destruct (dispatch_normal_eq self0 _ ITERATION_STARTED [] e1 Hn Hst He1)
    as (os1 & e2 & Hd1 & Hq1 & Hq1' & Hq1'' & He2).
  assert (Hpf : _process_function e2 = _process_function self0).
  { destruct He2 as (Hw & _). unfold wiring in Hw. congruence. }
  destruct (Hp e2) as [v Hv].
  destruct (call (_process_function self0) e2 [b] []) as [e3 r] eqn:Hc.
  cbn in Hv. subst r.
  assert (He3 : counting self0 (it + 1) ep data e3).
  { pose proof (proj2 Hst (_process_function self0) e2 [b] []) as H.
    rewrite Hc in H. apply H; [by left|done]. }
  assert (He4 : counting self0 (it + 1) ep data (set_attr "output" v e3))
    by (by apply counting_set_attr).
  destruct (dispatch_normal_eq self0 _ ITERATION_COMPLETED [] _ Hn Hst He4)
    as (os2 & e5 & Hd2 & Hq2 & Hq2' & Hq2'' & He5).
  exists os1, e2, v, e3, os2, e5.
  split; [done|]. split; [done|]. split; [done|]. split; [|done].
  unfold iteration_played.
  replace (int_attr "iteration" e) with it by (by destruct (counting_int_attr _ _ _ _ _ He)).
  fold e1. rewrite Hd1. cbn [and_then]. unfold process_played. rewrite Hpf, Hc.
  cbn [and_then]. by rewrite Hd2.
Qed.

Lemma pass_events_S j : pass_events (S j) = iteration_events ++ pass_events j.
Proof. done. Qed.

(** A pass in which nothing raises visits the first [j] batches: all of
    them, or fewer when a termination request ended it. *)
Lemma batches_normal self0 data ep bs : ∀ it e,
  frame_ok self0 → handlers_normal self0 →
  (∀ b, b ∈ bs → processes self0 b) →
  counting self0 it ep data e →
  ∃ j t e',
    batches_played bs e = (t, e', Ok tt) ∧
    j ≤ length bs ∧ (bs ≠ [] → 0 < j) ∧
    fires t = pass_events j ∧ processed t = take j bs ∧ caught t = [] ∧
    counting self0 (it + Z.of_nat j) ep data e' ∧
    (j < length bs → should_terminate e' = true).
Proof.
  induction bs as [|b bs IH]; intros it e Hf Hn Hp He.
  { exists 0, [], e. cbn. rewrite Z.add_0_r. conj; try done; try lia. }
  cbn [batches_played].
  destruct (iteration_normal self0 data it ep b e Hf Hn) as
    (os1 & e2 & v & e3 & os2 & e5 & Hd1 & Hc & Hd2 & Hit & Hq1 & Hq2 & He2 & He3 & He5);
    [apply Hp; apply list_elem_of_here|done|].
  rewrite Hit. cbn [and_then].
  set (t1 := Fire ITERATION_STARTED [] _ :: _).
  assert (Ht1 : fires t1 = iteration_events ∧ processed t1 = [b] ∧ caught t1 = []).
  { unfold t1. destruct Hq1 as (Hq1 & Hq1' & Hq1''), Hq2 as (Hq2 & Hq2' & Hq2'').
    autorewrite with trace. by rewrite Hq1, Hq1', Hq1'', Hq2, Hq2', Hq2''. }
  destruct Ht1 as (Hf1 & Hp1 & Hc1).
  destruct (should_terminate e5) eqn:Hflag.
  - exists 1, t1, e5. rewrite app_nil_r. cbn [length take].
    conj; try done; try lia.
  - destruct (IH (it + 1)%Z e5 Hf Hn) as (j & t & e' & Hb & Hj & Hj0 & Hft & Hpt & Hct & He' & Hfl);
      [intros b' Hb'; apply Hp; by apply list_elem_of_further|done|].
    rewrite Hb. exists (S j), (t1 ++ t), e'.
    rewrite fires_app, processed_app, caught_app, Hf1, Hp1, Hc1, Hft, Hpt, Hct.
    cbn [length take]. conj; try done; try lia.
    + replace (it + Z.of_nat (S j))%Z with (it + 1 + Z.of_nat j)%Z by lia. done.
    + intros. apply Hfl. lia.
Qed.

Lemma once_on_dataset_normal self0 data bs it ep e :
  frame_ok self0 → handlers_normal self0 →
  py_iter data = Ok bs →
  (∀ b, b ∈ bs → processes self0 b) →
  counting self0 it ep data e →
  ∃ j t e',
    once_on_dataset_played e = (t, e', Ok (Some hms)) ∧
    j ≤ length bs ∧ (bs ≠ [] → 0 < j) ∧
    fires t = pass_events j ∧ processed t = take j bs ∧ caught t = [] ∧
    counting self0 (it + Z.of_nat j) ep data e' ∧
    (j < length bs → should_terminate e' = true).
Proof.
  intros Hf Hn Hd Hp He.
  destruct (batches_normal self0 data ep bs it e Hf Hn Hp He) as (j & t & e' & Hb & H).
  exists j, t, e'. split; [|done].
  unfold once_on_dataset_played. destruct He as (_ & _ & _ & Hdl).
  rewrite Hdl. change (default VNone (Some data)) with data. by rewrite Hd, Hb.
Qed.

Lemma epochs_normal self0 data bs max_epochs n : ∀ it ep e,
  frame_ok self0 → handlers_normal self0 →
  py_iter data = Ok bs →
  (∀ b, b ∈ bs → processes self0 b) →
  counting self0 it ep data e →
  Z.to_nat (max_epochs - ep) ≤ n →
  ∃ m last t e',
    epochs_played n max_epochs e = (t, e', Ok tt) ∧
    fires t = epochs_events (length bs) m last ∧
    processed t = epochs_batches bs m last ∧
    caught t = [] ∧
    counting self0 (it + Z.of_nat (iterations_count (length bs) m last))
      (ep + Z.of_nat (epochs_count m last)) data e' ∧
    (epochs_count m last = 0 ∨ (ep + Z.of_nat (epochs_count m last) ≤ max_epochs)%Z) ∧
    match last with
    | Some j => j ≤ length bs ∧ (bs ≠ [] → 0 < j) ∧ should_terminate e' = true
    | None => (max_epochs ≤ ep + Z.of_nat m)%Z ∨ should_terminate e' = true
    end.
Proof.
  induction n as [|n IH]; intros it ep e Hf Hn Hd Hp He Hle.
  all: cbn [epochs_played].
  all: replace (int_attr "epoch" e) with ep by (by destruct (counting_int_attr _ _ _ _ _ He)).
  all: destruct ((ep <? max_epochs)%Z && negb (should_terminate e)) eqn:Hc.
  all: try (exists 0, None, [], e; unfold iterations_count, epochs_count; cbn;
            rewrite !Z.add_0_r; conj; try done; try (by left);
            apply andb_false_iff in Hc as [Hc|Hc];
            [left; apply Z.ltb_ge in Hc; lia|right; by destruct (should_terminate e)]).
  { apply andb_true_iff in Hc as [Hc _]. apply Z.ltb_lt in Hc. lia. }
  apply andb_true_iff in Hc as [Hc _]. apply Z.ltb_lt in Hc.
  pose proof (counting_call_stable self0 it (ep + 1) data Hf) as Hst.
  destruct (dispatch_normal_eq self0 _ EPOCH_STARTED []
              (set_attr "epoch" (VInt (ep + 1)) e) Hn Hst)
    as (os1 & e2 & Hd1 & Hq1 & Hq1' & Hq1'' & He2);
    [by apply (counting_set_epoch _ _ ep)|].
  rewrite Hd1. cbn [and_then].
  destruct (once_on_dataset_normal self0 data bs it (ep + 1) e2 Hf Hn Hd Hp He2)
    as (j & t2 & e3 & Hpass & Hj & Hj0 & Hf2 & Hp2 & Hc2 & He3 & Hfl).
  rewrite Hpass. cbn [and_then].
  destruct (should_terminate e3) eqn:Hflag.
  - exists 0, (Some j), ((Fire EPOCH_STARTED [] (set_attr "epoch" (VInt (ep + 1)) e) :: os1) ++ t2 ++ []), e3.
    unfold iterations_count, epochs_count, epochs_events, epochs_batches. cbn [replicate concat default].
    autorewrite with trace. rewrite Hf2, Hp2, Hc2, Hq1, Hq1', Hq1'', !app_nil_r.
    conj; try done; try (right; lia).
  - assert (j = length bs) as -> by (destruct (decide (j < length bs)) as [H|H]; [by apply Hfl in H|lia]).
    pose proof (counting_call_stable self0 (it + Z.of_nat (length bs)) (ep + 1) data Hf) as Hst'.
    destruct (dispatch_normal_eq self0 _ EPOCH_COMPLETED [] e3 Hn Hst' He3)
      as (os3 & e4 & Hd3 & Hq3 & Hq3' & Hq3'' & He4).
    rewrite Hd3. cbn [and_then].
    destruct (IH _ _ e4 Hf Hn Hd Hp He4) as (m & last & t4 & e5 & Hep & Hf4 & Hp4 & Hc4 & He5 & Hb5 & Hl5);
      [lia|].
    rewrite Hep.
    exists (S m), last, ((Fire EPOCH_STARTED [] (set_attr "epoch" (VInt (ep + 1)) e) :: os1) ++
                         t2 ++ (Fire EPOCH_COMPLETED [] e3 :: os3) ++ t4), e5.
    autorewrite with trace.
    rewrite Hf2, Hp2, Hc2, Hf4, Hp4, Hc4, Hq1, Hq1', Hq1'', Hq3, Hq3', Hq3''.
    rewrite firstn_all.
    unfold iterations_count, epochs_count, epochs_events, epochs_batches, epoch_events in *.
    cbn [replicate concat]. conj.
    + done.
    + cbn. by rewrite <- !app_assoc.
    + cbn. by rewrite <- !app_assoc.
    + done.
    + eapply counting_eq; [exact He5|lia|lia].
    + right. destruct Hb5 as [Hb5|Hb5]; lia.
    + destruct last; [done|]. destruct Hl5; [left; lia|by right].
Qed.

(** *** What a whole run preserves *)

Lemma epochs_stable self0 P max_epochs n : ∀ e,
  run_stable self0 P → P e → P (epochs_played n max_epochs e).1.2.
Proof.
  induction n as [|n IH]; intros e HP He; cbn [epochs_played]; destruct (_ && _); try done.
  pose proof (run_stable_pass_stable _ _ HP) as HP'.
  apply and_then_stable.
  { eapply dispatch_stable; [apply HP|]. by apply HP. }
  intros _ e2 He2. apply and_then_stable; [by eapply once_on_dataset_stable|].
  intros [r|] e3 He3; [|done].
  destruct (should_terminate e3); [done|].
  apply and_then_stable; [by eapply dispatch_stable; [apply HP|]|].
  intros _ e4 He4. by apply IH.
Qed.

Lemma run_played_stable self0 P data max_epochs e :
  run_stable self0 P → P e → P (run_played data max_epochs e).1.2.
Proof.
  intros HP He. unfold run_played.
  assert (Hb : P (run_body_played max_epochs
                    (set_state (Some (fresh_state data max_epochs)) e)).1.2).
  { unfold run_body_played. apply and_then_stable.
    { eapply dispatch_stable; [apply HP|]. by apply HP. }
    intros _ e1 He1. apply and_then_stable; [by eapply epochs_stable|].
    intros _ e2 He2. by eapply dispatch_stable; [apply HP|]. }
  destruct (run_body_played _ _) as [[t e'] [[]|x]]; cbn in *; [done|].
  pose proof (handle_exception_stable _ _ x _ (proj1 HP) Hb) as Hh.
  by destruct (handle_exception_played x e') as [[t' e''] [[]|y]].
Qed.

(** A predicate on the termination flag that registered callables
    preserve is preserved by a whole run. *)
Lemma flag_run_stable self0 (Q : bool → Prop) :
  frame_ok self0 →
  (∀ f e a k, registered self0 f →
     Q (should_terminate e) → Q (should_terminate (call f e a k).1)) →
  run_stable self0 (λ e, wiring e = wiring self0 ∧ Q (should_terminate e)).
Proof.
  intros Hf HQ. split; [split|].
  - by intros e [Hw _].
  - intros f e a k Hr [Hw Hq]. split; [|by apply HQ].
    destruct (Hf f Hr) as [Hkw _]. by rewrite (Hkw e a k).
  - by intros st e [Hw Hq].
Qed.

Lemma counting_fresh self data max_epochs :
  counting self 0 0 data (set_state (Some (fresh_state data max_epochs)) self).
Proof. by conj. Qed.

(** A run in which nothing raises: [m] epochs run to their end, possibly
    one more is cut short by a termination request, and [COMPLETED] is
    dispatched on the engine [e_c] the epoch loop left. *)
Lemma run_normal self data bs max_epochs :
  frame_ok self → handlers_normal self →
  py_iter data = Ok bs →
  (∀ b, b ∈ bs → processes self b) →
  ∃ m last t1 e_c os e',
    run_played data max_epochs self = (t1 ++ Fire COMPLETED [] e_c :: os, e', Ok (state e')) ∧
    fires t1 = STARTED :: epochs_events (length bs) m last ∧
    processed t1 = epochs_batches bs m last ∧
    caught t1 = [] ∧
    (fires os = [] ∧ processed os = [] ∧ caught os = []) ∧
    counting self (Z.of_nat (iterations_count (length bs) m last))
      (Z.of_nat (epochs_count m last)) data e_c ∧
    counting self (Z.of_nat (iterations_count (length bs) m last))
      (Z.of_nat (epochs_count m last)) data e' ∧
    (epochs_count m last = 0 ∨ (Z.of_nat (epochs_count m last) ≤ max_epochs)%Z) ∧
    match last with
    | Some j => j ≤ length bs ∧ (bs ≠ [] → 0 < j) ∧ should_terminate e_c = true
    | None => (max_epochs ≤ Z.of_nat m)%Z ∨ should_terminate e_c = true
    end ∧
    (∀ P, run_stable self P → P (set_state (Some (fresh_state data max_epochs)) self) → P e_c).
Proof.
  intros Hf Hn Hd Hp. unfold run_played, run_body_played.
  pose proof (counting_fresh self data max_epochs) as He0.
  destruct (dispatch_normal_eq self _ STARTED [] _ Hn (counting_call_stable self 0 0 data Hf) He0)
    as (os0 & e1 & Hd0 & Hq0 & Hq0' & Hq0'' & He1).
  rewrite Hd0. cbn [and_then].
  destruct (epochs_normal self data bs max_epochs (Z.to_nat max_epochs) 0 0 e1 Hf Hn Hd Hp He1)
    as (m & last & t & e2 & Hep & Hft & Hpt & Hct & He2 & Hb & Hl); [lia|].
  rewrite Hep. cbn [and_then]. rewrite !Z.add_0_l in He2. rewrite Z.add_0_l in Hb, Hl.
  destruct (dispatch_normal_eq self _ COMPLETED [] _ Hn (counting_call_stable self _ _ data Hf) He2)
    as (os & e3 & Hd3 & Hq3 & Hq3' & Hq3'' & He3).
  rewrite Hd3.
  exists m, last, ((Fire STARTED [] (set_state (Some (fresh_state data max_epochs)) self) :: os0) ++ t),
    e2, os, e3.
  autorewrite with trace. rewrite Hq0, Hq0', Hq0'', Hft, Hpt, Hct.
  conj; try done; [by rewrite <- app_assoc|].
  intros P HP HP0.
  pose proof (dispatch_stable self P STARTED [] _ (proj1 HP) HP0) as H1.
  rewrite Hd0 in H1. cbn in H1.
  pose proof (epochs_stable self P max_epochs (Z.to_nat max_epochs) e1 HP H1) as H2.
  by rewrite Hep in H2.
Qed.

Section Invariant.

Variable self0 : Engine.
Variable max_epochs : Z.
Variable Φ : list obs → Engine → Prop.
Hypothesis HΦ : invariant self0 max_epochs Φ.

Lemma within_and_then {A B} (m : Engine → out A) (k : A → Engine → out B) :
  within Φ m → (∀ a, within Φ (k a)) → within Φ (λ e, and_then (m e) (k)).
Proof.
  intros Hm Hk t e He. specialize (Hm t e He).
  destruct (m e) as [[t1 e1] [a|x]]; cbn in *; [|done].
  specialize (Hk a _ _ Hm). destruct (k a e1) as [[t2 e2] r2]. cbn in *.
  by rewrite app_assoc.
Qed.

Lemma within_dispatch_in_order regs event_args : ∀ t e,
  (∀ f a k, (f, a, k) ∈ regs → registered self0 f) →
  Φ t e →
  Φ (t ++ (dispatch_in_order regs event_args e).1.1) (dispatch_in_order regs event_args e).1.2.
Proof.
  induction regs as [|[[f a] k] regs IH]; intros t e Hr He; cbn.
  { by rewrite app_nil_r. }
  pose proof (inv_handler _ _ _ HΦ t e f (event_args ++ a) k
                (Hr f a k (list_elem_of_here _ _)) He) as H1.
  destruct (call f e (event_args ++ a) k) as [e1 [v|x]]; cbn in *; [|done].
  specialize (IH _ e1 (λ f a k Hin, Hr f a k (list_elem_of_further _ _ _ Hin)) H1).
  destruct (dispatch_in_order regs event_args e1) as [[os e'] r]. cbn in *.
  by rewrite <- app_assoc in IH.
Qed.

Lemma within_handlers ev event_args t t' e e0 :
  wiring e0 = wiring self0 →
  Φ (t ++ t') e →
  Φ (t ++ t' ++ (dispatch_in_order (handlers_of e0 ev) event_args e).1.1)
    (dispatch_in_order (handlers_of e0 ev) event_args e).1.2.
Proof.
  intros Hw He. rewrite app_assoc. apply within_dispatch_in_order; [|done].
  intros f a k Hin. apply (registered_wiring e0); [done|]. by eapply registered_handler.
Qed.

Lemma within_dispatch ev event_args :
  ev ≠ ITERATION_STARTED → ev ≠ EPOCH_STARTED →
  within Φ (dispatch ev event_args).
Proof.
  intros H1 H2 t e He. unfold dispatch.
  pose proof (within_handlers ev event_args t [Fire ev event_args e] e e
                (inv_wiring _ _ _ HΦ _ _ He) (inv_fire _ _ _ HΦ _ _ _ _ H1 H2 He)) as H.
  by destruct (dispatch_in_order _ event_args e) as [[os e'] r].
Qed.

Lemma within_handle_exception x : within Φ (handle_exception_played x).
Proof.
  intros t e He. unfold handle_exception_played. case_decide.
  - by apply within_dispatch.
  - cbn. by rewrite app_nil_r.
Qed.

Lemma within_process b : within Φ (process_played b).
Proof.
  intros t e He. unfold process_played.
  pose proof (inv_process _ _ _ HΦ t e b He) as H.
  assert (Hpf : _process_function e = _process_function self0).
  { pose proof (inv_wiring _ _ _ HΦ _ _ He) as Hw. unfold wiring in Hw. congruence. }
  rewrite Hpf. by destruct (call (_process_function self0) e [b] []) as [e' r].
Qed.

Lemma within_iteration b : within Φ (iteration_played b).
Proof.
  intros t e He. unfold iteration_played.
  set (e1 := set_attr "iteration" _ _).
  pose proof (inv_iteration _ _ _ HΦ t e b He) as H1. fold e1 in H1.
  assert (Hd : Φ (t ++ (dispatch ITERATION_STARTED [] e1).1.1)
                 (dispatch ITERATION_STARTED [] e1).1.2).
  { unfold dispatch.
    pose proof (within_handlers ITERATION_STARTED [] t [Fire ITERATION_STARTED [] e1] e1 e1
                  (inv_wiring _ _ _ HΦ _ _ H1) H1) as H.
    by destruct (dispatch_in_order _ [] e1) as [[os e'] r]. }
  destruct (dispatch ITERATION_STARTED [] e1) as [[t1 e2] [[]|x]]; cbn in Hd |- *; [|done].
  pose proof (within_and_then (process_played b)
    (λ output self3, dispatch ITERATION_COMPLETED [] (set_attr "output" output self3))
    (within_process b)) as H.
  specialize (H (λ v t' e' He', within_dispatch ITERATION_COMPLETED [] ltac:(done) ltac:(done)
                   t' _ (inv_output _ _ _ HΦ _ _ v He')) _ _ Hd).
  cbn beta in H. destruct (and_then _ _) as [[t3 e3] r3]. cbn in *.
  by rewrite app_assoc.
Qed.

Lemma within_batches bs : within Φ (batches_played bs).
Proof.
  induction bs as [|b bs IH]; intros t e He; cbn [batches_played].
  { cbn. by rewrite app_nil_r. }
  apply (within_and_then (iteration_played b)
    (λ _ self', if should_terminate self' then ([], self', Ok tt) else batches_played bs self'));
    [apply within_iteration| |done].
  intros _ t' e' He'. destruct (should_terminate e'); [|by apply IH].
  cbn. by rewrite app_nil_r.
Qed.

Lemma within_once_on_dataset : within Φ once_on_dataset_played.
Proof.
  intros t e He. unfold once_on_dataset_played.
  assert (Hbody : ∀ body : out unit, Φ (t ++ body.1.1) body.1.2 →
    Φ (t ++ (match body with
             | (t0, self', Ok _) => (t0, self', Ok (Some hms))
             | (t0, self', Err x) =>
                 and_then (t0 ++ [LogError "Current run is terminating due to exception: %s" x],
                           self', Ok tt)
                   (λ _ self'0, and_then (handle_exception_played x self'0)
                                  (λ _ self'', ([], self'', Ok None)))
             end).1.1)
      (match body with
       | (t0, self', Ok _) => (t0, self', Ok (Some hms))
       | (t0, self', Err x) =>
           and_then (t0 ++ [LogError "Current run is terminating due to exception: %s" x],
                     self', Ok tt)
             (λ _ self'0, and_then (handle_exception_played x self'0)
                            (λ _ self'', ([], self'', Ok None)))
       end).1.2).
  { intros [[t0 e0] [[]|x]] H0; cbn in H0; [done|]. cbn [and_then].
    pose proof (within_handle_exception x _ _
                  (inv_log _ _ _ HΦ _ _ "Current run is terminating due to exception: %s" x H0)) as H.
    destruct (handle_exception_played x e0) as [[t' e''] [[]|y]]; cbn in *.
    - by rewrite app_nil_r, !app_assoc.
    - by rewrite !app_assoc. }
  apply Hbody. destruct (py_iter _); [by apply within_batches|].
  cbn. by rewrite app_nil_r.
Qed.

Lemma within_epochs n : within Φ (epochs_played n max_epochs).
Proof.
  induction n as [|n IH]; intros t e He; cbn [epochs_played].
  all: destruct ((int_attr "epoch" e <? max_epochs)%Z && negb (should_terminate e)) eqn:Hc;
    try (cbn; by rewrite app_nil_r).
  apply andb_true_iff in Hc as [Hc _]. apply Z.ltb_lt in Hc.
  set (e1 := set_attr "epoch" _ _).
  pose proof (inv_epoch _ _ _ HΦ t e He Hc) as H1. fold e1 in H1.
  assert (Hd : Φ (t ++ (dispatch EPOCH_STARTED [] e1).1.1) (dispatch EPOCH_STARTED [] e1).1.2).
  { unfold dispatch.
    pose proof (within_handlers EPOCH_STARTED [] t [Fire EPOCH_STARTED [] e1] e1 e1
                  (inv_wiring _ _ _ HΦ _ _ H1) H1) as H.
    by destruct (dispatch_in_order _ [] e1) as [[os e'] r]. }
  destruct (dispatch EPOCH_STARTED [] e1) as [[t1 e2] [[]|x]]; cbn in Hd |- *; [|done].
  pose proof (within_and_then once_on_dataset_played
    (λ r self3,
       match r with
       | None => ([], self3, Err (TypeError "cannot unpack non-iterable NoneType object"))
       | Some _ =>
           if should_terminate self3 then ([], self3, Ok tt)
           else and_then (dispatch EPOCH_COMPLETED [] self3)
                  (λ _ self4, epochs_played n max_epochs self4)
       end) within_once_on_dataset) as H.
  cbn beta in H.
  assert (Hk : ∀ a : option (Z * Z * Z), within Φ (λ self3,
       match a with
       | None => ([], self3, Err (TypeError "cannot unpack non-iterable NoneType object"))
       | Some _ =>
           if should_terminate self3 then ([], self3, Ok tt)
           else and_then (dispatch EPOCH_COMPLETED [] self3)
                  (λ _ self4, epochs_played n max_epochs self4)
       end)).
  { intros [r|] t' e' He'; [|cbn; by rewrite app_nil_r].
    destruct (should_terminate e'); [cbn; by rewrite app_nil_r|].
    apply (within_and_then (dispatch EPOCH_COMPLETED []) (λ _, epochs_played n max_epochs));
      [by apply within_dispatch|by intros _|done]. }
  specialize (H Hk _ _ Hd). cbn beta in H.
  destruct (and_then _ _) as [[t3 e3] r3]. cbn in *. by rewrite app_assoc.
Qed.

Lemma within_run_body : within Φ (run_body_played max_epochs).
Proof.
  unfold run_body_played.
  apply (within_and_then (dispatch STARTED [])); [by apply within_dispatch|].
  intros _. apply (within_and_then (epochs_played (Z.to_nat max_epochs) max_epochs));
    [apply within_epochs|].
  intros _. by apply within_dispatch.
Qed.

Lemma within_run data t e :
  Φ t (set_state (Some (fresh_state data max_epochs)) e) →
  Φ (t ++ (run_played data max_epochs e).1.1) (run_played data max_epochs e).1.2.
Proof.
  intros He. unfold run_played.
  pose proof (within_run_body _ _ He) as Hb.
  destruct (run_body_played _ _) as [[t0 e0] [[]|x]]; cbn in Hb; [done|]. cbn [and_then].
  pose proof (within_handle_exception x _ _
                (inv_log _ _ _ HΦ _ _ "Training is terminating due to exception: %s" x Hb)) as H.
  destruct (handle_exception_played x e0) as [[t' e''] [[]|y]]; cbn in *.
  - by rewrite app_nil_r, !app_assoc.
  - by rewrite !app_assoc.
Qed.

End Invariant.

Lemma attr_lookup k v self :
  attr k self = Some v → ∃ st, state self = Some st ∧ st !! k = Some v.
Proof. unfold attr. destruct (state self) as [st|]; cbn; [|done]. by exists st. Qed.

(** C1. For [max_epochs = N ≥ 1] and a dataset of [B] batches, when no
    callable raises and nothing requests termination (the flag is clear
    when [run] is called and no registered callable writes it), [run]
    returns the run state with [iteration = N * B] and [epoch = N]. *)
Theorem run_counts_iterations_and_epochs data bs N s :
  (1 ≤ N)%Z →
  py_iter data = Ok bs →
  should_terminate (eng s) = false →
  frame_ok (eng s) →
  handlers_normal (eng s) →
  (∀ b, b ∈ bs → processes (eng s) b) →
  (∀ f, registered (eng s) f → keeps should_terminate f) →
  ∃ fuel0, ∀ fuel, fuel0 ≤ fuel →
    ∃ s' st,
      run fuel data N s = (s', Ret (Some st)) ∧
      st !! "iteration" = Some (VInt (N * Z.of_nat (length bs))) ∧
      st !! "epoch" = Some (VInt N).
Proof.
  intros HN Hd Hflag Hf Hn Hp Hk.
  exists (S (longest (eng s) + Z.to_nat N)). intros fuel Hfuel.
  rewrite run_as_played by (done || lia).
  destruct (run_normal (eng s) data bs N Hf Hn Hd Hp)
    as (m & last & t1 & e_c & os & e' & Hrun & _ & _ & _ & _ & _ & He' & Hb & Hl & Hcl).
  rewrite Hrun. unfold play. cbn [to_outcome].
  assert (Hfc : should_terminate e_c = false).
  { assert (HQ : ∀ f e a k, registered (eng s) f →
              should_terminate e = false → should_terminate (call f e a k).1 = false).
    { intros f e a k Hr He. by rewrite (Hk f Hr e a k). }
    apply (Hcl _ (flag_run_stable (eng s) (λ b, b = false) Hf HQ)). by split. }
  destruct last as [j|]; [destruct Hl as (_ & _ & Hl); congruence|].
  destruct Hl as [Hl|Hl]; [|congruence].
  unfold epochs_count, iterations_count in *. cbn [default] in *.
  assert (Z.of_nat m = N) as Hm by lia.
  destruct He' as (_ & Hit & Hep & _).
  destruct (attr_lookup _ _ _ Hit) as (st & Hst & Hit').
  destruct (attr_lookup _ _ _ Hep) as (st' & Hst' & Hep').
  rewrite Hst in Hst'. injection Hst' as <-.
  eexists _, st. rewrite Hst. split; [done|].
  rewrite Hit', Hep'. split; do 2 f_equal; lia.
Qed.

(** C4. In a run in which no callable raises, the dispatches are
    [STARTED], then for each epoch that ran to its end [EPOCH_STARTED],
    the [ITERATION_STARTED]/[ITERATION_COMPLETED] pair of each of the [B]
    batches and [EPOCH_COMPLETED], then possibly one epoch cut short by a
    termination request ([EPOCH_STARTED] and the pairs of its first [j]
    batches, no [EPOCH_COMPLETED]), then [COMPLETED]. So [EPOCH_STARTED]
    is dispatched once per epoch, before its iterations, and
    [EPOCH_COMPLETED] once per epoch whose pass ended without a
    termination request, after its last [ITERATION_COMPLETED]. *)
Theorem run_dispatches_epoch_events_in_order data bs N s :
  py_iter data = Ok bs →
  frame_ok (eng s) →
  handlers_normal (eng s) →
  (∀ b, b ∈ bs → processes (eng s) b) →
  ∃ fuel0, ∀ fuel, fuel0 ≤ fuel →
    ∃ s' st m last t1 e_c os,
      run fuel data N s = (s', Ret st) ∧
      trace s' = trace s ++ t1 ++ Fire COMPLETED [] e_c :: os ∧
      fires t1 = STARTED :: epochs_events (length bs) m last ∧
      fires os = [] ∧
      (epochs_count m last = 0 ∨ (Z.of_nat (epochs_count m last) ≤ N)%Z) ∧
      match last with
      | Some j => j ≤ length bs ∧ (bs ≠ [] → 0 < j) ∧ should_terminate e_c = true
      | None => (N ≤ Z.of_nat m)%Z ∨ should_terminate e_c = true
      end.
Proof.
  intros Hd Hf Hn Hp.
  exists (S (longest (eng s) + Z.to_nat N)). intros fuel Hfuel.
  rewrite run_as_played by (done || lia).
  destruct (run_normal (eng s) data bs N Hf Hn Hd Hp)
    as (m & last & t1 & e_c & os & e' & Hrun & Hft & _ & _ & (Hfo & _) & _ & He' & Hb & Hl & _).
  rewrite Hrun. unfold play. cbn [to_outcome].
  by eexists _, _, m, last, t1, e_c, os.
Qed.

Lemma frame_ok_wiring self self' : wiring self = wiring self' → frame_ok self → frame_ok self'.
Proof. intros Hw Hf f Hr. apply Hf. by apply (registered_wiring self'). Qed.

Lemma handlers_normal_wiring self self' :
  wiring self = wiring self' → handlers_normal self → handlers_normal self'.
Proof.
  intros Hw Hn ev f a k Hin. apply (Hn ev f a k). by rewrite (handlers_of_wiring _ _ _ Hw).
Qed.

(** Once requested, termination stays requested to the end of the run. *)
Lemma requested_invariant self0 max_epochs (b0 : bool) :
  frame_ok self0 → never_cleared self0 →
  invariant self0 max_epochs (λ t e,
    wiring e = wiring self0 ∧
    (b0 = true ∨ Exists requested t → should_terminate e = true)).
Proof.
  intros Hf Hnc.
  assert (Hcall : ∀ t e f a k o, registered self0 f →
    (requested o ↔ should_terminate (call f e a k).1 = true) →
    wiring e = wiring self0 ∧ (b0 = true ∨ Exists requested t → should_terminate e = true) →
    wiring (call f e a k).1 = wiring self0 ∧
    (b0 = true ∨ Exists requested (t ++ [o]) → should_terminate (call f e a k).1 = true)).
  { intros t e f a k o Hr Ho [Hw Hq]. split.
    - destruct (Hf f Hr) as [Hkw _]. by rewrite (Hkw e a k).
    - intros [Hb|Hex].
      + apply Hnc; [done|]. apply Hq. by left.
      + apply Exists_app in Hex as [Hex|Hex].
        * apply Hnc; [done|]. apply Hq. by right.
        * apply Exists_cons in Hex as [Hex|Hex]; [by apply Ho|by apply Exists_nil in Hex]. }
  assert (Hquiet : ∀ t e e' o, ¬ requested o →
    wiring e' = wiring e → should_terminate e' = should_terminate e →
    wiring e = wiring self0 ∧ (b0 = true ∨ Exists requested t → should_terminate e = true) →
    wiring e' = wiring self0 ∧
    (b0 = true ∨ Exists requested (t ++ [o]) → should_terminate e' = true)).
  { intros t e e' o Ho Hw' Hfl [Hw Hq]. split; [congruence|].
    rewrite Hfl. intros [Hb|Hex]; [apply Hq; by left|].
    apply Exists_app in Hex as [Hex|Hex]; [apply Hq; by right|].
    apply Exists_cons in Hex as [Hex|Hex]; [done|by apply Exists_nil in Hex]. }
  split.
  - by intros t e [Hw _].
  - intros t e f a k Hr He. by apply Hcall.
  - intros t e b He. apply Hcall; [by left|done|done].
  - intros t e ev args _ _ He. apply (Hquiet t e e); [by intros []|done..].
  - intros t e b He. apply (Hquiet t e); [by intros []|done..].
  - by intros t e v [Hw Hq].
  - intros t e He _. apply (Hquiet t e); [by intros []|done..].
  - intros t e m x He. apply (Hquiet t e e); [by intros []|done..].
Qed.

(** A run that starts with termination already requested: no epoch and
    no iteration, only [STARTED] and [COMPLETED]. *)
Lemma run_played_terminated self data max_epochs :
  frame_ok self → never_cleared self → handlers_normal self →
  should_terminate self = true →
  ∃ os1 e1 os2 e2,
    run_played data max_epochs self =
      (Fire STARTED [] (set_state (Some (fresh_state data max_epochs)) self) :: os1 ++
       Fire COMPLETED [] e1 :: os2, e2, Ok (state e2)) ∧
    (fires os1 = [] ∧ processed os1 = []) ∧
    (fires os2 = [] ∧ processed os2 = []) ∧
    counting self 0 0 data e2.
Proof.
  intros Hf Hnc Hn Hflag. unfold run_played, run_body_played.
  set (P := λ e, counting self 0 0 data e ∧ should_terminate e = true).
  assert (HP : call_stable self P).
  { destruct (counting_call_stable self 0 0 data Hf) as [Hw Hc]. split.
    - intros e [He _]. by apply Hw.
    - intros f e a k Hr [He Hfl]. split; [by apply Hc|by apply Hnc]. }
  destruct (dispatch_normal_eq self P STARTED []
              (set_state (Some (fresh_state data max_epochs)) self) Hn HP)
    as (os1 & e1 & Hd1 & Hq1 & Hq1' & _ & [He1 Hfl1]);
    [split; [apply counting_fresh|done]|].
  rewrite Hd1. cbn [and_then].
  assert (Hep : epochs_played (Z.to_nat max_epochs) max_epochs e1 = ([], e1, Ok tt)).
  { destruct (Z.to_nat max_epochs); cbn [epochs_played]; rewrite Hfl1;
      by rewrite andb_false_r. }
  rewrite Hep. cbn [and_then].
  destruct (dispatch_normal_eq self P COMPLETED [] e1 Hn HP)
    as (os2 & e2 & Hd2 & Hq2 & Hq2' & _ & [He2 Hfl2]); [done|].
  rewrite Hd2. by exists os1, e1, os2, e2.
Qed.

(** C9. [run] never writes [should_terminate]: when no registered
    callable writes the flag, it is after the run what it was before.
    Consequently, when no registered callable clears the flag and
    termination was requested before or during one run, the next [run] on
    the same engine starts with the flag set, dispatches only [STARTED]
    and [COMPLETED], processes no batch and returns a fresh run state
    with [epoch = 0] and [iteration = 0]. *)
Theorem run_leaves_should_terminate_as_found data1 N1 data2 N2 s :
  frame_ok (eng s) →
  never_cleared (eng s) →
  handlers_normal (eng s) →
  ∃ fuel0, ∀ fuel1 fuel2, fuel0 ≤ fuel1 → fuel0 ≤ fuel2 →
    let s1 := (run fuel1 data1 N1 s).1 in
    ((∀ f, registered (eng s) f → keeps should_terminate f) →
       should_terminate (eng s1) = should_terminate (eng s)) ∧
    ∀ t1, trace s1 = trace s ++ t1 →
      should_terminate (eng s) = true ∨ Exists requested t1 →
      should_terminate (eng s1) = true ∧
      ∃ s2 st t2,
        run fuel2 data2 N2 s1 = (s2, Ret (Some st)) ∧
        trace s2 = trace s1 ++ t2 ∧
        fires t2 = [STARTED; COMPLETED] ∧
        processed t2 = [] ∧
        st !! "epoch" = Some (VInt 0) ∧
        st !! "iteration" = Some (VInt 0).
Proof.
  intros Hf Hnc Hn.
  exists (S (longest (eng s) + Z.to_nat N1 + Z.to_nat N2)). intros fuel1 fuel2 H1 H2 s1.
  assert (Hs1 : s1 = (play (run_played data1 N1 (eng s)) s).1).
  { unfold s1. by rewrite run_as_played by (done || lia). }
  split.
  - intros Hk. rewrite Hs1.
    assert (HQ : ∀ f e a k, registered (eng s) f →
              should_terminate e = should_terminate (eng s) →
              should_terminate (call f e a k).1 = should_terminate (eng s)).
    { intros f e a k Hr He. by rewrite (Hk f Hr e a k). }
    pose proof (run_played_stable (eng s) _ data1 N1 (eng s)
                  (flag_run_stable (eng s) (λ b, b = should_terminate (eng s)) Hf HQ)
                  (conj eq_refl eq_refl)) as [_ H].
    by destruct (run_played data1 N1 (eng s)) as [[t e'] r].
  - intros t1 Ht1 Hreq.
    pose proof (within_run (eng s) N1 _
                  (requested_invariant (eng s) N1 (should_terminate (eng s)) Hf Hnc)
                  data1 [] (eng s) (conj eq_refl (λ H, match H with
                                                      | or_introl Hb => Hb
                                                      | or_intror Hex => False_ind _ (proj1 (Exists_nil _) Hex)
                                                      end))) as [Hw Hfl].
    rewrite app_nil_l in Hfl.
    assert (Heng : eng s1 = (run_played data1 N1 (eng s)).1.2 ∧
                   t1 = (run_played data1 N1 (eng s)).1.1).
    { rewrite Hs1 in Ht1 |- *. destruct (run_played data1 N1 (eng s)) as [[t e'] r].
      cbn in *. split; [done|]. by apply app_inv_head in Ht1. }
    destruct Heng as [Heng Ht]. rewrite <- Heng in Hw, Hfl. rewrite <- Ht in Hfl.
    specialize (Hfl Hreq). split; [done|].
    rewrite run_as_played.
    2:{ by apply (frame_ok_wiring (eng s)). }
    2:{ rewrite (longest_wiring _ _ Hw). lia. }
    destruct (run_played_terminated (eng s1) data2 N2)
      as (os1 & e1 & os2 & e2 & Hrun & [Hq1 Hq1'] & [Hq2 Hq2'] & He2); try done.
    + by apply (frame_ok_wiring (eng s)).
    + intros f e a k Hr. apply Hnc. by apply (registered_wiring (eng s1)).
    + by apply (handlers_normal_wiring (eng s)).
    + rewrite Hrun. unfold play. cbn [to_outcome].
      destruct He2 as (_ & Hit & Hep & _).
      destruct (attr_lookup _ _ _ Hit) as (st & Hst & Hit').
      destruct (attr_lookup _ _ _ Hep) as (st' & Hst' & Hep').
      rewrite Hst in Hst'. injection Hst' as <-.
      eexists _, st, _. rewrite Hst. split; [done|]. split; [done|].
      autorewrite with trace. by rewrite Hq1, Hq1', Hq2, Hq2'.
Qed.

(** ** The trace only grows *)

Lemma extends_same {A} (m : M A) :
  (∀ s, trace (m s).1 = trace s) → extends m.
Proof. intros H s. exists []. by rewrite app_nil_r. Qed.

Lemma extends_bind {A B} (m : M A) (k : A → M B) :
  extends m → (∀ a, extends (k a)) → extends (bind m k).
Proof.
  intros Hm Hk s. destruct (Hm s) as [r1 H1]. unfold bind.
  destruct (m s) as [s1 [a|x|]]; cbn in *; [|by eexists..].
  destruct (Hk a s1) as [r2 H2]. exists (r1 ++ r2). by rewrite H2, H1, app_assoc.
Qed.

Lemma extends_try {A} (m : M A) (h : exn → M A) :
  extends m → (∀ x, extends (h x)) → extends (try_except m h).
Proof.
  intros Hm Hh s. destruct (Hm s) as [r1 H1]. unfold try_except.
  destruct (m s) as [s1 [a|x|]]; cbn in *; [by eexists| |by eexists].
  destruct (Hh x s1) as [r2 H2]. exists (r1 ++ r2). by rewrite H2, H1, app_assoc.
Qed.

Lemma extends_emit o : extends (emit o).
Proof. intros s. by exists [o]. Qed.

Lemma extends_lift {A} (r : result A) : extends (lift r).
Proof. apply extends_same. by destruct r. Qed.

Lemma extends_getattr_state k : extends (getattr_state k).
Proof.
  apply extends_same. intros s. unfold getattr_state, bind, get_self. cbn.
  destruct (state (eng s)) as [st|]; [|done]. by destruct (st !! k).
Qed.

Lemma extends_setattr_state k v : extends (setattr_state k v).
Proof.
  apply extends_same. intros s. unfold setattr_state, bind, get_self. cbn.
  by destruct (state (eng s)).
Qed.

Lemma extends_incr_state k : extends (incr_state k).
Proof.
  unfold incr_state. apply extends_bind; [apply extends_getattr_state|]. intros v.
  apply extends_bind; [apply extends_lift|]. intros v'. apply extends_setattr_state.
Qed.

Lemma extends__fire_event_loop fuel ev event_args : ∀ i,
  extends (_fire_event_loop fuel ev event_args i).
Proof.
  induction fuel as [|fuel IH]; intros i s; [exists []; by rewrite app_nil_r|].
  rewrite _fire_event_loop_S.
  destruct (handlers_of (eng s) ev !! i) as [[[f a] k]|]; [|exists []; by rewrite app_nil_r].
  destruct (call f (eng s) (event_args ++ a) k) as [self' [v|x]]; [|by eexists].
  destruct (IH (S i) (mkSt self' (trace s ++ [Handled f (eng s) (event_args ++ a) k self' (Ok v)])))
    as [r Hr].
  cbv beta iota zeta. eexists. rewrite Hr. cbn. by rewrite <- app_assoc.
Qed.

(** A dispatch first records itself, with the engine as it finds it. *)
Lemma _fire_event_first fuel ev event_args s :
  ∃ rest, trace (_fire_event fuel ev event_args s).1 =
          trace s ++ Fire ev event_args (eng s) :: rest.
Proof.
  unfold _fire_event, bind, get_self, emit. cbn. case_decide; [|by exists []].
  destruct (extends__fire_event_loop fuel ev event_args 0
              (mkSt (eng s) (trace s ++ [Fire ev event_args (eng s)]))) as [r Hr].
  exists r. rewrite Hr. cbn. by rewrite <- app_assoc.
Qed.

Lemma extends__fire_event fuel ev event_args : extends (_fire_event fuel ev event_args).
Proof. intros s. destruct (_fire_event_first fuel ev event_args s) as [r Hr]. by eexists. Qed.

Lemma extends__handle_exception fuel x : extends (_handle_exception fuel x).
Proof.
  intros s. unfold _handle_exception, bind, get_self. cbn. case_decide.
  - apply extends__fire_event.
  - exists []. by rewrite app_nil_r.
Qed.

Lemma extends__run_iteration fuel batch : extends (_run_iteration fuel batch).
Proof.
  unfold _run_iteration.
  apply extends_bind; [apply extends_setattr_state|]. intros _.
  apply extends_bind; [apply extends_incr_state|]. intros _.
  apply extends_bind; [apply extends__fire_event|]. intros _.
  assert (H : ∀ o self' (r : result value),
    extends (put_self self';; emit o;;
             let* output := lift r in
             setattr_state "output" output;; _fire_event fuel ITERATION_COMPLETED [])).
  { intros o self' r. apply extends_bind; [by apply extends_same|]. intros _.
    apply extends_bind; [apply extends_emit|]. intros _.
    apply extends_bind; [apply extends_lift|]. intros output.
    apply extends_bind; [apply extends_setattr_state|]. intros _.
    apply extends__fire_event. }
  intros s. change (bind get_self ?k s) with (k (eng s) s). cbv beta.
  destruct (call (_process_function (eng s)) (eng s) [batch] []) as [self' r].
  apply H.
Qed.

Lemma extends__run_batches fuel batches : extends (_run_batches fuel batches).
Proof.
  induction batches as [|b bs IH]; cbn [_run_batches]; [by apply extends_same|].
  apply extends_bind; [apply extends__run_iteration|]. intros _ s.
  change (bind get_self ?k s) with (k (eng s) s). cbv beta.
  destruct (should_terminate (eng s)); [exists []; by rewrite app_nil_r|apply IH].
Qed.

Lemma extends__run_once_on_dataset fuel : extends (_run_once_on_dataset fuel).
Proof.
  unfold _run_once_on_dataset. apply extends_try.
  - apply extends_bind; [apply extends_getattr_state|]. intros v.
    apply extends_bind; [apply extends_lift|]. intros bs.
    apply extends_bind; [apply extends__run_batches|]. intros _. by apply extends_same.
  - intros x. apply extends_bind; [apply extends_emit|]. intros _.
    apply extends_bind; [apply extends__handle_exception|]. intros _. by apply extends_same.
Qed.

Lemma extends__run_epochs max_epochs fuel : extends (_run_epochs fuel max_epochs).
Proof.
  induction fuel as [|fuel IH]; cbn [_run_epochs]; [by apply extends_same|].
  apply extends_bind; [apply extends_getattr_state|]. intros v.
  apply extends_bind; [apply extends_lift|]. intros below s.
  change (bind get_self ?k s) with (k (eng s) s). cbv beta.
  destruct (below && negb (should_terminate (eng s))); [|exists []; by rewrite app_nil_r].
  revert s. apply extends_bind; [apply extends_incr_state|]. intros _.
  apply extends_bind; [apply extends__fire_event|]. intros _.
  apply extends_bind; [apply extends__run_once_on_dataset|]. intros r.
  apply extends_bind; [by destruct r; apply extends_same|]. intros _.
  apply extends_bind; [apply extends_getattr_state|]. intros _ s.
  change (bind get_self ?k s) with (k (eng s) s). cbv beta.
  destruct (should_terminate (eng s)); [exists []; by rewrite app_nil_r|].
  revert s. apply extends_bind; [apply extends__fire_event|]. intros _. apply IH.
Qed.

(** Whatever the fuel and the callables, the first thing [run] records
    is the [STARTED] dispatch, on the engine holding the fresh run state. *)
Lemma run_first fuel data max_epochs s :
  ∃ rest, trace (run fuel data max_epochs s).1 =
          trace s ++ Fire STARTED [] (set_state (Some (fresh_state data max_epochs)) (eng s)) :: rest.
Proof.
  unfold run. change (bind get_self ?k s) with (k (eng s) s). cbv beta.
  unfold bind at 1, put_self at 1. cbn [eng trace]. fold (fresh_state data max_epochs).
  set (s0 := mkSt _ (trace s)).
  assert (Hrest : ∀ (m : M unit) (k : unit → M (option State)) h,
    extends m → (∀ x, extends (h x)) → (∀ a, extends (k a)) →
    ∃ rest, trace (bind (try_except (bind (_fire_event fuel STARTED []) (λ _, m)) h) k s0).1 =
            trace s0 ++ Fire STARTED [] (eng s0) :: rest).
  { intros m k h Hm Hh Hk.
    destruct (_fire_event_first fuel STARTED [] s0) as [r1 H1].
    assert (Hbody : ∃ rest, trace (bind (_fire_event fuel STARTED []) (λ _, m) s0).1 =
                            trace s0 ++ Fire STARTED [] (eng s0) :: rest).
    { unfold bind. destruct (_fire_event fuel STARTED [] s0) as [s1 [[]|x|]]; cbn in *;
        [|by eexists..].
      destruct (Hm s1) as [r2 H2]. exists (r1 ++ r2). rewrite H2, H1.
      by rewrite <- app_assoc. }
    destruct Hbody as [r2 H2].
    assert (Htry : ∃ rest, trace (try_except (bind (_fire_event fuel STARTED []) (λ _, m)) h s0).1 =
                           trace s0 ++ Fire STARTED [] (eng s0) :: rest).
    { unfold try_except. destruct (bind _ _ s0) as [s1 [[]|x|]]; cbn in *; [by eexists| |by eexists].
      destruct (Hh x s1) as [r3 H3]. exists (r2 ++ r3). rewrite H3, H2.
      by rewrite <- app_assoc. }
    destruct Htry as [r3 H3]. unfold bind at 1.
    destruct (try_except _ _ s0) as [s1 [a|x|]]; cbn in *; [|by eexists..].
    destruct (Hk a s1) as [r4 H4]. exists (r3 ++ r4). rewrite H4, H3.
    by rewrite <- app_assoc. }
  apply Hrest.
  - apply extends_bind; [apply extends__run_epochs|]. intros _. apply extends__fire_event.
  - intros x. apply extends_bind; [apply extends_emit|]. intros _.
    apply extends__handle_exception.
  - intros _. by apply extends_same.
Qed.

(** C10. The [State] constructor sets [iteration = 0], [output = None],
    [batch = None] and then applies every keyword argument: each supplied
    name holds the supplied value afterwards (so a supplied [iteration],
    [output] or [batch] replaces the default, and any other name becomes
    a new attribute), and a name that was not supplied holds its default,
    if it has one. [run] builds its run state this way: the engine the
    [STARTED] dispatch sees holds [dataloader = data], [epoch = 0],
    [max_epochs] as given, [metrics = {}] and the three defaults. *)
Theorem State_init_applies_kwargs kwargs :
  NoDup kwargs.*1 →
  (∀ k v, (k, v) ∈ kwargs → State_init kwargs !! k = Some v) ∧
  (∀ k, k ∉ kwargs.*1 →
     State_init kwargs !! k =
       ({[ "iteration" := VInt 0; "output" := VNone; "batch" := VNone ]} : State) !! k) ∧
  ∀ fuel data max_epochs s,
    ∃ self0 st rest,
      trace (run fuel data max_epochs s).1 = trace s ++ Fire STARTED [] self0 :: rest ∧
      state self0 = Some st ∧
      st = State_init [("dataloader", data); ("epoch", VInt 0);
                       ("max_epochs", VInt max_epochs); ("metrics", VDict [])] ∧
      st !! "dataloader" = Some data ∧
      st !! "epoch" = Some (VInt 0) ∧
      st !! "max_epochs" = Some (VInt max_epochs) ∧
      st !! "metrics" = Some (VDict []) ∧
      st !! "iteration" = Some (VInt 0) ∧
      st !! "output" = Some VNone ∧
      st !! "batch" = Some VNone.
Proof.
  intros Hnd. split; [|split].
  - induction kwargs as [|[k' v'] kwargs IH] using rev_ind; intros k v Hin.
    { by apply elem_of_nil in Hin. }
    rewrite State_init_snoc. rewrite fmap_app in Hnd.
    apply NoDup_app in Hnd as (Hnd & Hfresh & _).
    apply elem_of_app in Hin as [Hin|Hin].
    + rewrite lookup_insert_ne; [by apply IH|].
      intros ->. apply (Hfresh k); [|cbn; apply list_elem_of_here].
      apply list_elem_of_fmap. by exists (k, v).
    + apply list_elem_of_singleton in Hin as [= -> ->]. by rewrite lookup_insert_eq.
  - clear Hnd. induction kwargs as [|[k' v'] kwargs IH] using rev_ind; intros k Hk.
    { unfold State_init, State_defaults. cbn.
      destruct (decide (k = "batch")) as [->|]; [done|].
      destruct (decide (k = "output")) as [->|]; [done|].
      destruct (decide (k = "iteration")) as [->|]; [done|].
      rewrite !lookup_insert_ne, lookup_empty by done.
      by rewrite lookup_singleton_ne. }
    rewrite State_init_snoc. rewrite fmap_app in Hk. apply not_elem_of_app in Hk as [Hk Hk'].
    rewrite lookup_insert_ne; [by apply IH|].
    intros ->. apply Hk'. cbn. apply list_elem_of_here.
  - intros fuel data max_epochs s.
    destruct (run_first fuel data max_epochs s) as [rest Hrest].
    by eexists _, _, rest.
Qed.

(** ** A handler that requests termination at a given iteration *)

Lemma dispatch_keeps_flag ev event_args e :
  (∀ f a kw, (f, a, kw) ∈ handlers_of e ev → keeps should_terminate f) →
  should_terminate (dispatch ev event_args e).1.2 = should_terminate e.
Proof.
  intros Hk. apply (dispatch_closed (λ e', should_terminate e' = should_terminate e)); [|done].
  intros f a kw e' Hin He'. by rewrite (Hk f a kw Hin).
Qed.

(** When every handler of the list preserves [R], and [h], which is in
    the list, establishes [R] from [P], which the others preserve, a
    dispatch started in [P] ends in [R]. *)
Lemma dispatch_in_order_establishes (P R : Engine → Prop) h regs event_args : ∀ e,
  (∀ f a kw e', (f, a, kw) ∈ regs → R e' → R (call f e' (event_args ++ a) kw).1) →
  (∀ f a kw e', (f, a, kw) ∈ regs → f ≠ h → P e' → P (call f e' (event_args ++ a) kw).1) →
  (∀ a kw e', (h, a, kw) ∈ regs → P e' → R (call h e' (event_args ++ a) kw).1) →
  (∀ f a kw, (f, a, kw) ∈ regs → returns_normally f) →
  (∃ a kw, (h, a, kw) ∈ regs) →
  P e → R (dispatch_in_order regs event_args e).1.2.
Proof.
  induction regs as [|[[f a] kw] regs IH]; intros e HR HP Hh Hn (a0 & kw0 & Hin) He.
  { by apply elem_of_nil in Hin. }
  cbn. destruct (Hn f a kw (list_elem_of_here _ _) e (event_args ++ a) kw) as [v Hv].
  destruct (call f e (event_args ++ a) kw) as [e1 r] eqn:Hc. cbn in Hv. subst r.
  destruct (decide (f = h)) as [->|Hne].
  - pose proof (Hh a kw e (list_elem_of_here _ _) He) as H1. rewrite Hc in H1. cbn in H1.
    pose proof (dispatch_in_order_closed R regs event_args e1
                  (λ f a kw e' Hin', HR f a kw e' (list_elem_of_further _ _ _ Hin')) H1) as H2.
    by destruct (dispatch_in_order regs event_args e1) as [[os e'] r'].
  - pose proof (HP f a kw e (list_elem_of_here _ _) Hne He) as H1. rewrite Hc in H1. cbn in H1.
    assert (Hin' : ∃ a kw, (h, a, kw) ∈ regs).
    { apply elem_of_cons in Hin as [[= ? ? ?]|Hin]; [congruence|by eauto]. }
    specialize (IH e1
      (λ f a kw e' Hi, HR f a kw e' (list_elem_of_further _ _ _ Hi))
      (λ f a kw e' Hi, HP f a kw e' (list_elem_of_further _ _ _ Hi))
      (λ a kw e' Hi, Hh a kw e' (list_elem_of_further _ _ _ Hi))
      (λ f a kw Hi, Hn f a kw (list_elem_of_further _ _ _ Hi)) Hin' H1).
    by destruct (dispatch_in_order regs event_args e1) as [[os e'] r'].
Qed.

Section TerminateAt.

Variable self0 : Engine.
Variable data : value.
Variable bs : list value.
Variable h : callable.
Variable it0 : Z.
Hypothesis Hframe : frame_ok self0.
Hypothesis Hnormal : handlers_normal self0.
Hypothesis Hdata : py_iter data = Ok bs.
Hypothesis Hprocess : ∀ b, b ∈ bs → processes self0 b.
Hypothesis Hh : on_iteration_completed_only self0 h.
Hypothesis Hat : terminates_at h it0.
Hypothesis Hothers : ∀ f, registered self0 f → f ≠ h → keeps should_terminate f.

Lemma other_events_keep_flag ev event_args e :
  ev ≠ ITERATION_COMPLETED → wiring e = wiring self0 →
  should_terminate (dispatch ev event_args e).1.2 = should_terminate e.
Proof.
  intros Hev Hw. apply dispatch_keeps_flag. intros f a kw Hin.
  rewrite (handlers_of_wiring _ _ _ Hw) in Hin.
  apply Hothers; [by eapply registered_handler|].
  intros ->. destruct Hh as (_ & Honly & _). by apply Honly in Hin.
Qed.

(** The [ITERATION_COMPLETED] dispatch sets the flag exactly at [it0]. *)
Lemma iteration_completed_flag it ep e :
  counting self0 it ep data e → should_terminate e = false →
  should_terminate (dispatch ITERATION_COMPLETED [] e).1.2 = (it =? it0)%Z.
Proof.
  intros He Hfl. pose proof (counting_call_stable self0 it ep data Hframe) as [Hw Hc].
  assert (Hreg : ∀ f a kw, (f, a, kw) ∈ handlers_of e ITERATION_COMPLETED → registered self0 f).
  { intros f a kw Hin. rewrite (handlers_of_wiring _ _ _ (Hw _ He)) in Hin.
    by eapply registered_handler. }
  assert (Hflag : ∀ f a kw e', (f, a, kw) ∈ handlers_of e ITERATION_COMPLETED →
            counting self0 it ep data e' →
            should_terminate (call f e' a kw).1 =
              should_terminate e' || (bool_decide (f = h) && (it =? it0)%Z)).
  { intros f a kw e' Hin He'. destruct (decide (f = h)) as [->|Hne].
    - rewrite Hat, bool_decide_true by done. cbn.
      by destruct (counting_int_attr _ _ _ _ _ He') as [-> _].
    - rewrite (Hothers f (Hreg f a kw Hin) Hne), (bool_decide_false (f = h)) by done.
      by rewrite orb_false_r. }
  unfold dispatch. destruct (it =? it0)%Z eqn:Hit.
  - pose proof (dispatch_in_order_establishes
      (counting self0 it ep data)
      (λ e', counting self0 it ep data e' ∧ should_terminate e' = true) h
      (handlers_of e ITERATION_COMPLETED) [] e) as H.
    destruct (dispatch_in_order _ [] e) as [[os e'] r]. cbn in *. apply H; try done.
    + intros f a kw e1 Hin [He1 Hf1]. split; [apply Hc; eauto|].
      by rewrite Hflag, Hf1.
    + intros f a kw e1 Hin _ He1. apply Hc; eauto.
    + intros a kw e1 Hin He1. split; [apply Hc; eauto|].
      rewrite Hflag, bool_decide_true by done. by rewrite orb_true_r.
    + intros f a kw Hin. rewrite (handlers_of_wiring _ _ _ (Hw _ He)) in Hin.
      by eapply Hnormal.
    + destruct Hh as ((a & kw & Hin) & _). exists a, kw.
      by rewrite (handlers_of_wiring _ _ _ (Hw _ He)).
  - pose proof (dispatch_in_order_closed
      (λ e', counting self0 it ep data e' ∧ should_terminate e' = false)
      (handlers_of e ITERATION_COMPLETED) [] e) as H.
    destruct (dispatch_in_order _ [] e) as [[os e'] r]. cbn in *. apply H; [|done].
    intros f a kw e1 Hin [He1 Hf1]. split; [apply Hc; eauto|].
    rewrite Hflag, Hf1 by done. by rewrite andb_false_r.
Qed.

Lemma iteration_until it ep b e :
  b ∈ bs → counting self0 it ep data e → should_terminate e = false →
  ∃ t e',
    iteration_played b e = (t, e', Ok tt) ∧
    fires t = iteration_events ∧ processed t = [b] ∧
    counting self0 (it + 1) ep data e' ∧
    should_terminate e' = (it + 1 =? it0)%Z.
Proof.
  intros Hb He Hfl.
  destruct (iteration_normal self0 data it ep b e Hframe Hnormal (Hprocess b Hb) He)
    as (os1 & e2 & v & e3 & os2 & e5 & Hd1 & Hc & Hd2 & Hit & Hq1 & Hq2 & He2 & He3 & He5).
  eexists _, e5. split; [exact Hit|].
  destruct Hq1 as (Hq1 & Hq1' & _), Hq2 as (Hq2 & Hq2' & _).
  autorewrite with trace. rewrite Hq1, Hq1', Hq2, Hq2'. conj; try done.
  assert (Hf2 : should_terminate e2 = false).
  { pose proof (other_events_keep_flag ITERATION_STARTED []
      (set_attr "iteration" (VInt (it + 1)) (set_attr "batch" b e))) as H.
    rewrite Hd1 in H. cbn in H. rewrite H; [done|done|by destruct He]. }
  assert (Hf3 : should_terminate e3 = false).
  { pose proof (Hothers (_process_function self0) (or_introl eq_refl)) as H.
    destruct Hh as (_ & _ & Hne). specialize (H (λ E, Hne (eq_sym E)) e2 [b] []).
    rewrite Hc in H. cbn in H. congruence. }
  pose proof (iteration_completed_flag (it + 1) ep (set_attr "output" v e3)) as H.
  rewrite Hd2 in H. cbn in H. apply H; [by apply counting_set_attr|done].
Qed.

Lemma batches_until ep batches : ∀ it e,
  (∀ b, b ∈ batches → b ∈ bs) →
  counting self0 it ep data e → should_terminate e = false →
  (it < it0)%Z →
  ∃ j t e',
    batches_played batches e = (t, e', Ok tt) ∧
    fires t = pass_events j ∧ processed t = take j batches ∧
    counting self0 (it + Z.of_nat j) ep data e' ∧
    ((it0 ≤ it + Z.of_nat (length batches))%Z →
       (it + Z.of_nat j = it0)%Z ∧ should_terminate e' = true) ∧
    ((it + Z.of_nat (length batches) < it0)%Z →
       j = length batches ∧ should_terminate e' = false).
Proof.
  induction batches as [|b batches IH]; intros it e Hsub He Hfl Hlt.
  { exists 0, [], e. cbn. rewrite Z.add_0_r. conj; try done; lia. }
  cbn [batches_played].
  destruct (iteration_until it ep b e (Hsub b (list_elem_of_here _ _)) He Hfl)
    as (t1 & e1 & Hit & Hf1 & Hp1 & He1 & Hfl1).
  rewrite Hit. cbn [and_then]. rewrite Hfl1.
  destruct (it + 1 =? it0)%Z eqn:Heq.
  - apply Z.eqb_eq in Heq. exists 1, t1, e1. rewrite app_nil_r. cbn [length take].
    rewrite take_0. conj; try done; try lia.
  - apply Z.eqb_neq in Heq.
    destruct (IH (it + 1)%Z e1 (λ b' Hb', Hsub b' (list_elem_of_further _ _ _ Hb')) He1)
      as (j & t & e' & Hb & Hft & Hpt & He' & Hyes & Hno); [done|lia|].
    rewrite Hb. exists (S j), (t1 ++ t), e'.
    autorewrite with trace. rewrite Hf1, Hp1, Hft, Hpt. cbn [length take]. conj; try done.
    + eapply counting_eq; [exact He'|lia|done].
    + intros H. destruct Hyes as [H1 H2]; [lia|]. split; [lia|done].
    + intros H. destruct Hno as [H1 H2]; [lia|]. split; [lia|done].
Qed.

Lemma once_on_dataset_until it ep e :
  counting self0 it ep data e → should_terminate e = false →
  (it < it0)%Z →
  ∃ j t e',
    once_on_dataset_played e = (t, e', Ok (Some hms)) ∧
    fires t = pass_events j ∧ processed t = take j bs ∧
    counting self0 (it + Z.of_nat j) ep data e' ∧
    ((it0 ≤ it + Z.of_nat (length bs))%Z →
       (it + Z.of_nat j = it0)%Z ∧ should_terminate e' = true) ∧
    ((it + Z.of_nat (length bs) < it0)%Z →
       j = length bs ∧ should_terminate e' = false).
Proof.
  intros He Hfl Hlt.
  destruct (batches_until ep bs it e (λ b Hb, Hb) He Hfl Hlt) as (j & t & e' & Hb & H).
  exists j, t, e'. split; [|done].
  unfold once_on_dataset_played. destruct He as (_ & _ & _ & Hdl).
  rewrite Hdl. change (default VNone (Some data)) with data. by rewrite Hdata, Hb.
Qed.

Lemma epochs_until max_epochs k : ∀ d n ep e,
  1 ≤ k ≤ length bs →
  it0 = Z.of_nat ((ep + d) * length bs + k) →
  counting self0 (Z.of_nat (ep * length bs)) (Z.of_nat ep) data e →
  should_terminate e = false →
  (Z.of_nat (ep + d + 1) ≤ max_epochs)%Z →
  Z.to_nat (max_epochs - Z.of_nat ep) ≤ n →
  ∃ t e',
    epochs_played n max_epochs e = (t, e', Ok tt) ∧
    fires t = epochs_events (length bs) d (Some k) ∧
    processed t = epochs_batches bs d (Some k) ∧
    counting self0 it0 (Z.of_nat (ep + d + 1)) data e' ∧
    should_terminate e' = true.
Proof.
  induction d as [|d IH]; intros n ep e Hk Hit0 He Hfl HN Hn.
  all: destruct n as [|n]; [lia|].
  all: cbn [epochs_played].
  all: replace (int_attr "epoch" e) with (Z.of_nat ep)
         by (by destruct (counting_int_attr _ _ _ _ _ He)).
  all: rewrite Hfl, (proj2 (Z.ltb_lt _ _)) by lia; cbn [andb negb].
  all: set (e1 := set_attr "epoch" _ e).
  all: assert (He1 : counting self0 (Z.of_nat (ep * length bs)) (Z.of_nat ep + 1) data e1)
         by (by apply (counting_set_epoch _ _ (Z.of_nat ep))).
  all: destruct (dispatch_normal_eq self0 _ EPOCH_STARTED [] e1 Hnormal
                   (counting_call_stable self0 _ _ data Hframe) He1)
         as (os1 & e2 & Hd1 & Hq1 & Hq1' & _ & He2).
  all: assert (Hf2 : should_terminate e2 = false)
         by (pose proof (other_events_keep_flag EPOCH_STARTED [] e1 ltac:(done)
                           ltac:(by destruct He1)) as H;
             rewrite Hd1 in H; cbn in H; by rewrite H).
  all: rewrite Hd1; cbn [and_then].
  all: destruct (once_on_dataset_until _ _ e2 He2 Hf2 ltac:(lia))
         as (j & t2 & e3 & Hpass & Hft & Hpt & He3 & Hyes & Hno).
  all: rewrite Hpass; cbn [and_then].
  - destruct Hyes as [Hj Hf3]; [lia|]. rewrite Hf3.
    assert (j = k) as -> by lia.
    eexists _, e3. split; [done|].
    unfold epochs_events, epochs_batches. cbn [replicate concat].
    autorewrite with trace. rewrite Hq1, Hq1', Hft, Hpt, !app_nil_r. conj; try done.
    eapply counting_eq; [exact He3|lia|lia].
  - destruct Hno as [Hj Hf3]; [lia|]. rewrite Hf3. subst j.
    destruct (dispatch_normal_eq self0 _ EPOCH_COMPLETED [] e3 Hnormal
                (counting_call_stable self0 _ _ data Hframe) He3)
      as (os3 & e4 & Hd3 & Hq3 & Hq3' & _ & He4).
    assert (Hf4 : should_terminate e4 = false).
    { pose proof (other_events_keep_flag EPOCH_COMPLETED [] e3 ltac:(done)
                    ltac:(by destruct He3)) as H.
      rewrite Hd3 in H. cbn in H. by rewrite H. }
    rewrite Hd3. cbn [and_then].
    destruct (IH n (S ep) e4 Hk) as (t & e' & Hep & Hft' & Hpt' & He' & Hf'); try done; try lia.
    { eapply counting_eq; [exact He4|lia|lia]. }
    rewrite Hep. eexists _, e'. split; [done|].
    unfold epochs_events, epochs_batches, epoch_events in *. cbn [replicate concat].
    autorewrite with trace. rewrite Hq1, Hq1', Hq3, Hq3', Hft, Hpt, Hft', Hpt', firstn_all.
    conj; try done.
    + cbn. by rewrite <- !app_assoc.
    + by rewrite <- !app_assoc.
    + eapply counting_eq; [exact He'|lia|lia].
Qed.

End TerminateAt.

(** C5. When a handler registered for [ITERATION_COMPLETED] calls
    [terminate()] at iteration [k] of epoch [m + 1] (nothing else
    requests termination and nothing raises), the run dispatches
    [STARTED], the events of [m] whole epochs, [EPOCH_STARTED] and the
    [k] iteration pairs of epoch [m + 1], then [COMPLETED], and returns
    the run state: no iteration [k + 1] in that epoch, no
    [EPOCH_COMPLETED] for it, no further epoch. *)
Theorem terminate_in_iteration_completed_ends_the_run data bs N m k h s :
  py_iter data = Ok bs →
  should_terminate (eng s) = false →
  frame_ok (eng s) →
  handlers_normal (eng s) →
  (∀ b, b ∈ bs → processes (eng s) b) →
  1 ≤ k ≤ length bs →
  (Z.of_nat (m + 1) ≤ N)%Z →
  on_iteration_completed_only (eng s) h →
  terminates_at h (Z.of_nat (m * length bs + k)) →
  (∀ f, registered (eng s) f → f ≠ h → keeps should_terminate f) →
  ∃ fuel0, ∀ fuel, fuel0 ≤ fuel →
    ∃ s' st t,
      run fuel data N s = (s', Ret (Some st)) ∧
      trace s' = trace s ++ t ∧
      fires t = STARTED :: epochs_events (length bs) m (Some k) ++ [COMPLETED] ∧
      processed t = epochs_batches bs m (Some k) ∧
      st !! "epoch" = Some (VInt (Z.of_nat (m + 1))) ∧
      st !! "iteration" = Some (VInt (Z.of_nat (m * length bs + k))).
Proof.
  intros Hd Hflag Hf Hn Hp Hk HN Hh Hat Hothers.
  exists (S (longest (eng s) + Z.to_nat N)). intros fuel Hfuel.
  rewrite run_as_played by (done || lia).
  unfold run_played, run_body_played.
  pose proof (counting_fresh (eng s) data N) as He0.
  set (e0 := set_state _ (eng s)) in *.
  destruct (dispatch_normal_eq (eng s) _ STARTED [] e0 Hn
              (counting_call_stable (eng s) 0 0 data Hf) He0)
    as (os0 & e1 & Hd0 & Hq0 & Hq0' & _ & He1).
  assert (Hf1 : should_terminate e1 = false).
  { pose proof (other_events_keep_flag (eng s) h Hh Hothers STARTED [] e0 ltac:(done)
                  ltac:(done)) as H.
    rewrite Hd0 in H. cbn in H. by rewrite H. }
  rewrite Hd0. cbn [and_then].
  destruct (epochs_until (eng s) data bs h _ Hf Hn Hd Hp Hh Hat Hothers N k m
              (Z.to_nat N) 0 e1 Hk) as (t & e2 & Hep & Hft & Hpt & He2 & Hf2);
    try done; try lia.
  rewrite Hep. cbn [and_then].
  destruct (dispatch_normal_eq (eng s) _ COMPLETED [] e2 Hn
              (counting_call_stable (eng s) _ _ data Hf) He2)
    as (os3 & e3 & Hd3 & Hq3 & Hq3' & _ & He3).
  rewrite Hd3. unfold play. cbn [to_outcome].
  destruct He3 as (_ & Hit & Hepo & _).
  destruct (attr_lookup _ _ _ Hit) as (st & Hst & Hit').
  destruct (attr_lookup _ _ _ Hepo) as (st' & Hst' & Hep').
  rewrite Hst in Hst'. injection Hst' as <-.
  eexists _, st, _. rewrite Hst. split; [done|]. split; [done|].
  autorewrite with trace. rewrite Hq0, Hq0', Hq3, Hq3', Hft, Hpt, !app_nil_r.
  by conj.
Qed.

(** ** Runs in which the process function raises *)

(** A dispatch in which nothing raises invokes every registration. *)
Lemma dispatch_normal_invocations self0 (P : Engine → Prop) ev event_args e :
  handlers_normal self0 → call_stable self0 P → P e →
  ∃ os e', dispatch ev event_args e = (Fire ev event_args e :: os, e', Ok tt) ∧
           fires os = [] ∧ processed os = [] ∧ caught os = [] ∧ P e' ∧
           invocations os = invoked_as event_args <$> handlers_of self0 ev.
Proof.
  intros Hn HP He.
  destruct (dispatch_normal_eq self0 P ev event_args e Hn HP He)
    as (os & e' & Hd & Hq & Hq' & Hq'' & He').
  exists os, e'. conj; try done.
  unfold dispatch in Hd.
  pose proof (dispatch_in_order_spec (handlers_of e ev) event_args e) as Hspec.
  destruct (dispatch_in_order _ event_args e) as [[os0 e0] r0].
  injection Hd as -> -> ->. destruct Hspec as (Hi & _ & Hlen & _).
  rewrite Hi, Hlen, firstn_all. by rewrite (handlers_of_wiring _ _ _ (proj1 HP _ He)).
Qed.

(** An iteration in which the handlers return and the process function
    raises [x]: the iteration raises [x] after the [ITERATION_STARTED]
    dispatch and the call. *)
Lemma iteration_raising self0 data it ep b x e :
  frame_ok self0 → handlers_normal self0 →
  (∀ self, (call (_process_function self0) self [b] []).2 = Err x) →
  counting self0 it ep data e →
  let e1 := set_attr "iteration" (VInt (it + 1)) (set_attr "batch" b e) in
  ∃ os1 e2 e3,
    iteration_played b e =
      (Fire ITERATION_STARTED [] e1 :: os1 ++
       [Processed (_process_function self0) e2 b e3 (Err x)], e3, Err x) ∧
    (fires os1 = [] ∧ processed os1 = [] ∧ caught os1 = [] ∧ invocations os1 =
       invoked_as [] <$> handlers_of self0 ITERATION_STARTED) ∧
    counting self0 (it + 1) ep data e3 ∧
    (∀ P, call_stable self0 P → P e1 → P e3).
Proof.
  intros Hf Hn Hp He e1.
  pose proof (counting_call_stable self0 (it + 1) ep data Hf) as Hst.
  assert (He1 : counting self0 (it + 1) ep data e1).
  { apply (counting_set_iteration _ it). by apply counting_set_attr. }
  destruct (dispatch_normal_invocations self0 _ ITERATION_STARTED [] e1 Hn Hst He1)
    as (os1 & e2 & Hd1 & Hq1 & Hq1' & Hq1'' & He2 & Hi1).
  assert (Hpf : _process_function e2 = _process_function self0).
  { destruct He2 as (Hw & _). unfold wiring in Hw. congruence. }
  specialize (Hp e2).
  destruct (call (_process_function self0) e2 [b] []) as [e3 r] eqn:Hc.
  cbn in Hp. subst r.
  assert (He3 : counting self0 (it + 1) ep data e3).
  { pose proof (proj2 Hst (_process_function self0) e2 [b] []) as H.
    rewrite Hc in H. apply H; [by left|done]. }
  exists os1, e2, e3. conj; try done.
  - unfold iteration_played.
    replace (int_attr "iteration" e) with it by (by destruct (counting_int_attr _ _ _ _ _ He)).
    fold e1. rewrite Hd1. cbn [and_then]. unfold process_played. by rewrite Hpf, Hc.
  - intros P HP HP1.
    pose proof (dispatch_stable self0 P ITERATION_STARTED [] e1 HP HP1) as H2.
    rewrite Hd1 in H2. cbn in H2.
    pose proof (proj2 HP (_process_function self0) e2 [b] [] (or_introl eq_refl) H2) as H3.
    by rewrite Hc in H3.
Qed.

Lemma flag_false_pass_stable self0 :
  frame_ok self0 →
  (∀ f, registered self0 f → keeps should_terminate f) →
  run_stable self0 (λ e, wiring e = wiring self0 ∧ should_terminate e = false).
Proof.
  intros Hf Hk. apply (flag_run_stable self0 (λ b, b = false) Hf).
  intros f e a k Hr He. by rewrite (Hk f Hr e a k).
Qed.

(** C3. The dataset has at least two batches and the process function
    raises [ValueError("x")] on the second one (the handlers return
    normally and nothing requests termination). With no entry for
    [EXCEPTION_RAISED] in the handler table, [run] raises that
    [ValueError]. With one, [run] returns the run state with
    [iteration = 2], every [EXCEPTION_RAISED] handler has been invoked
    with that [ValueError], and the two batches are the only ones
    processed, in the only epoch started. *)
Theorem process_raising_on_second_batch data b1 b2 rest N s :
  py_iter data = Ok (b1 :: b2 :: rest) →
  (1 ≤ N)%Z →
  should_terminate (eng s) = false →
  frame_ok (eng s) →
  handlers_normal (eng s) →
  (∀ f, registered (eng s) f → keeps should_terminate f) →
  processes (eng s) b1 →
  (∀ self, (call (_process_function (eng s)) self [b2] []).2 = Err (ValueError "x")) →
  ∃ fuel0, ∀ fuel, fuel0 ≤ fuel →
    (_event_handlers (eng s) !! KEvent EXCEPTION_RAISED = None →
       (run fuel data N s).2 = Raise (ValueError "x")) ∧
    (is_Some (_event_handlers (eng s) !! KEvent EXCEPTION_RAISED) →
       ∃ s' st t,
         run fuel data N s = (s', Ret (Some st)) ∧
         trace s' = trace s ++ t ∧
         st !! "iteration" = Some (VInt 2) ∧
         Forall (λ reg, invoked_as [VExc (ValueError "x")] reg ∈ invocations t)
           (handlers_of (eng s) EXCEPTION_RAISED) ∧
         processed t = [b1; b2] ∧
         fires t = [STARTED; EPOCH_STARTED; ITERATION_STARTED; ITERATION_COMPLETED;
                    ITERATION_STARTED; EXCEPTION_RAISED; EXCEPTION_RAISED]).
Proof.
  intros Hd HN Hflag Hf Hn Hk Hp1 Hp2.
  exists (S (longest (eng s) + Z.to_nat N)). intros fuel Hfuel.
  rewrite run_as_played by (done || lia).
  set (self0 := eng s) in *.
  pose proof (flag_false_pass_stable self0 Hf Hk) as Hfs.
  set (F := λ e, wiring e = wiring self0 ∧ should_terminate e = false) in Hfs.
  (* STARTED *)
  pose proof (counting_fresh self0 data N) as He0.
  set (e0 := set_state _ self0) in He0.
  destruct (dispatch_normal_eq self0 _ STARTED [] e0 Hn
              (counting_call_stable self0 0 0 data Hf) He0)
    as (os0 & e1 & Hd0 & Hq0 & Hq0' & Hq0'' & He1).
  assert (HF1 : F e1).
  { pose proof (dispatch_stable self0 F STARTED [] e0 (proj1 Hfs) (conj eq_refl Hflag)) as H.
    by rewrite Hd0 in H. }
  (* EPOCH_STARTED *)
  set (e1' := set_attr "epoch" (VInt (0 + 1)) e1).
  assert (He1' : counting self0 0 1 data e1') by (by apply (counting_set_epoch _ _ 0)).
  destruct (dispatch_normal_eq self0 _ EPOCH_STARTED [] e1' Hn
              (counting_call_stable self0 0 1 data Hf) He1')
    as (os1 & e2 & Hd1 & Hq1 & Hq1' & Hq1'' & He2).
  assert (HF2 : F e2).
  { pose proof (dispatch_stable self0 F EPOCH_STARTED [] e1' (proj1 Hfs)
                  (proj2 Hfs _ _ HF1)) as H.
    by rewrite Hd1 in H. }
  (* first iteration *)
  destruct (iteration_normal self0 data 0 1 b1 e2 Hf Hn Hp1 He2)
    as (osa & ea2 & va & ea3 & osb & e3 & _ & _ & _ & Hit1 & (Hqa & Hqa' & Hqa'') &
        (Hqb & Hqb' & Hqb'') & _ & _ & He3).
  assert (HF3 : F e3).
  { pose proof (iteration_stable self0 F b1 e2 (run_stable_pass_stable _ _ Hfs) HF2) as H.
    by rewrite Hit1 in H. }
  (* second iteration *)
  destruct (iteration_raising self0 data (0 + 1) 1 b2 (ValueError "x") e3 Hf Hn Hp2 He3)
    as (osc & ec2 & e4 & Hit2 & (Hqc & Hqc' & Hqc'' & _) & He4 & Hcl4).
  assert (HF4 : F e4).
  { apply (Hcl4 F (proj1 Hfs)). do 2 apply (proj2 Hfs). exact HF3. }
  (* the pass, up to the exception *)
  set (t3 := Fire ITERATION_STARTED [] _ :: osa ++ _) in Hit1.
  set (t4 := Fire ITERATION_STARTED [] _ :: osc ++ _) in Hit2.
  assert (Hbody : batches_played (b1 :: b2 :: rest) e2 = (t3 ++ t4, e4, Err (ValueError "x"))).
  { cbn [batches_played]. rewrite Hit1. cbn [and_then]. rewrite (proj2 HF3).
    rewrite Hit2. by cbn [and_then]. }
  assert (Ht3 : fires t3 = iteration_events ∧ processed t3 = [b1] ∧ caught t3 = []).
  { unfold t3. autorewrite with trace. by rewrite Hqa, Hqa', Hqa'', Hqb, Hqb', Hqb''. }
  assert (Ht4 : fires t4 = [ITERATION_STARTED] ∧ processed t4 = [b2] ∧ caught t4 = []).
  { unfold t4. autorewrite with trace. by rewrite Hqc, Hqc', Hqc''. }
  destruct Ht3 as (Hf3 & Hp3 & Hc3), Ht4 as (Hf4 & Hp4 & Hc4).
  assert (Hw4 : _event_handlers e4 = _event_handlers self0).
  { destruct He4 as (Hw & _). unfold wiring in Hw. congruence. }
  assert (Hdl : attr "dataloader" e2 = Some data) by (by destruct He2 as (_ & _ & _ & ?)).
  unfold run_played, run_body_played. fold e0. rewrite Hd0. cbn [and_then].
  destruct (Z.to_nat N) as [|n] eqn:HNn; [lia|]. cbn [epochs_played].
  replace (int_attr "epoch" e1) with 0%Z by (by destruct (counting_int_attr _ _ _ _ _ He1)).
  rewrite (proj2 HF1), (proj2 (Z.ltb_lt 0 N)) by lia. cbn [andb negb].
  fold e1'. rewrite Hd1. cbn [and_then].
  unfold once_on_dataset_played. rewrite Hdl.
  change (default VNone (Some data)) with data. rewrite Hd, Hbody. cbn [and_then].
  unfold handle_exception_played. rewrite Hw4.
  split.
  - intros Hnone. rewrite Hnone.
    rewrite decide_False by (by intros [? ?]). cbn [and_then].
    rewrite Hw4, Hnone. by rewrite decide_False by (by intros [? ?]).
  - intros Hsome. rewrite decide_True by done.
    destruct (dispatch_normal_invocations self0 _ EXCEPTION_RAISED [VExc (ValueError "x")] e4 Hn
                (counting_call_stable self0 _ _ data Hf) He4)
      as (os5 & e5 & Hd5 & Hq5 & Hq5' & Hq5'' & He5 & Hi5).
    rewrite Hd5. cbn [and_then].
    assert (Hw5 : _event_handlers e5 = _event_handlers self0).
    { destruct He5 as (Hw & _). unfold wiring in Hw. congruence. }
    rewrite Hw5, decide_True by done.
    destruct (dispatch_normal_eq self0 _ EXCEPTION_RAISED
                [VExc (TypeError "cannot unpack non-iterable NoneType object")] e5 Hn
                (counting_call_stable self0 _ _ data Hf) He5)
      as (os6 & e6 & Hd6 & Hq6 & Hq6' & Hq6'' & He6).
    rewrite Hd6. cbn [and_then]. unfold play. cbn [to_outcome].
    destruct He6 as (_ & Hit & _).
    destruct (attr_lookup _ _ _ Hit) as (st & Hst & Hit').
    eexists _, st, _. rewrite Hst. split; [done|]. split; [done|].
    autorewrite with trace.
    rewrite Hq0, Hq0', Hq1, Hq1', Hf3, Hf4, Hp3, Hp4, Hq5, Hq5', Hq6, Hq6', Hi5.
    conj; try done.
    apply Forall_forall. intros reg Hreg.
    assert (H : invoked_as [VExc (ValueError "x")] reg ∈
                invoked_as [VExc (ValueError "x")] <$> handlers_of self0 EXCEPTION_RAISED).
    { apply list_elem_of_fmap. by exists reg. }
    rewrite !elem_of_app. tauto.
Qed.

(** ** Exception routing *)

Lemma raised_app t1 t2 : raised (t1 ++ t2) = raised t1 ++ raised t2.
Proof. apply omap_app. Qed.

Lemma raised_Fire ev a e t : raised (Fire ev a e :: t) = raised t.
Proof. done. Qed.

Lemma raised_LogError m x t : raised (LogError m x :: t) = raised t.
Proof. done. Qed.

Lemma raised_nil : raised [] = [].
Proof. done. Qed.

#[local] Hint Rewrite raised_app raised_Fire raised_LogError raised_nil : trace.

Lemma informed_app_l self0 x t t' : informed self0 x t → informed self0 x (t ++ t').
Proof.
  unfold informed. intros Hi. eapply Forall_impl; [exact Hi|]. intros reg H.
  rewrite invocations_app. apply elem_of_app. by left.
Qed.

Lemma informed_app_r self0 x t t' : informed self0 x t' → informed self0 x (t ++ t').
Proof.
  unfold informed. intros Hi. eapply Forall_impl; [exact Hi|]. intros reg H.
  rewrite invocations_app. apply elem_of_app. by right.
Qed.

Lemma origin_app_l data x t t' : origin data x t → raised t' = [] → origin data x (t ++ t').
Proof.
  unfold origin. rewrite raised_app. intros [->| [-> Hd]] ->; [by left|by right].
Qed.

Lemma origin_app_r data x t t' : raised t = [] → origin data x t' → origin data x (t ++ t').
Proof.
  unfold origin. rewrite raised_app. by intros -> [->| [-> Hd]]; [left|right].
Qed.

Lemma clean_nil {A} (a : A) : clean [] (Ok a).
Proof. done. Qed.

Lemma and_then_clean {A B} (m : out A) (k : A → Engine → out B) :
  clean m.1.1 m.2 →
  (∀ a e, clean (k a e).1.1 (k a e).2) →
  clean (and_then m k).1.1 (and_then m k).2.
Proof.
  destruct m as [[t e] [a|x]]; cbn; [|done]. intros [Hc Hr] Hk.
  specialize (Hk a e). destruct (k a e) as [[t' e'] r']. cbn in *.
  destruct Hk as [Hc' Hr']. split; [by rewrite caught_app, Hc, Hc'|].
  rewrite raised_app, Hr. by destruct r'.
Qed.

Lemma dispatch_in_order_clean regs event_args : ∀ e,
  clean (dispatch_in_order regs event_args e).1.1 (dispatch_in_order regs event_args e).2.
Proof.
  induction regs as [|[[f a] k] regs IH]; intros e; cbn; [done|].
  destruct (call f e (event_args ++ a) k) as [e1 [v|x]]; cbn; [|done].
  specialize (IH e1). by destruct (dispatch_in_order regs event_args e1) as [[os e'] r].
Qed.

Lemma dispatch_clean ev event_args e :
  clean (dispatch ev event_args e).1.1 (dispatch ev event_args e).2.
Proof.
  unfold dispatch. pose proof (dispatch_in_order_clean (handlers_of e ev) event_args e) as H.
  by destruct (dispatch_in_order _ event_args e) as [[os e'] r].
Qed.

Lemma process_clean b e : clean (process_played b e).1.1 (process_played b e).2.
Proof.
  unfold process_played.
  by destruct (call (_process_function e) e [b] []) as [e' [v|x]].
Qed.

Lemma iteration_clean b e : clean (iteration_played b e).1.1 (iteration_played b e).2.
Proof.
  unfold iteration_played. apply and_then_clean; [apply dispatch_clean|].
  intros _ e2. apply and_then_clean; [apply process_clean|].
  intros v e3. apply dispatch_clean.
Qed.

Lemma batches_clean bs : ∀ e, clean (batches_played bs e).1.1 (batches_played bs e).2.
Proof.
  induction bs as [|b bs IH]; intros e; cbn [batches_played]; [done|].
  apply and_then_clean; [apply iteration_clean|].
  intros _ e'. by destruct (should_terminate e').
Qed.

Lemma wiring_run_stable self0 : frame_ok self0 → run_stable self0 (λ e, wiring e = wiring self0).
Proof.
  intros Hf. split; [split|]; try done.
  intros f e a k Hr Hw. destruct (Hf f Hr) as [Hkw _]. by rewrite (Hkw e a k).
Qed.

Lemma handle_exception_cases self0 x e :
  exception_handlers_normal self0 → wiring e = wiring self0 →
  (exception_handled self0 ∧
   ∃ t e', handle_exception_played x e = (t, e', Ok tt) ∧
           caught t = [] ∧ raised t = [] ∧ informed self0 x t) ∨
  (¬ exception_handled self0 ∧ handle_exception_played x e = ([], e, Err x)).
Proof.
  intros Hn Hw. unfold handle_exception_played, exception_handled.
  assert (Ht : _event_handlers e = _event_handlers self0)
    by (unfold wiring in Hw; congruence).
  rewrite Ht. case_decide as Hreg; [left|by right].
  split; [done|]. unfold dispatch. rewrite (handlers_of_wiring _ _ _ Hw).
  pose proof (dispatch_in_order_Ok (handlers_of self0 EXCEPTION_RAISED) [VExc x] e Hn) as Hok.
  pose proof (dispatch_in_order_spec (handlers_of self0 EXCEPTION_RAISED) [VExc x] e) as Hspec.
  pose proof (dispatch_in_order_clean (handlers_of self0 EXCEPTION_RAISED) [VExc x] e) as Hcl.
  destruct (dispatch_in_order _ [VExc x] e) as [[os e'] r]. cbn in *. subst r.
  destruct Hspec as (Hi & _ & Hlen & _). destruct Hcl as [Hc Hr].
  eexists _, e'. split; [done|]. autorewrite with trace. conj; try done.
  unfold informed. rewrite invocations_Fire, Hi, Hlen, firstn_all.
  apply Forall_forall. intros reg Hin. apply list_elem_of_fmap. by exists reg.
Qed.

Lemma once_on_dataset_outcome self0 data ep e :
  frame_ok self0 → exception_handlers_normal self0 → steady self0 ep data e →
  pass_outcome self0 data (once_on_dataset_played e).1.1 (once_on_dataset_played e).2.
Proof.
  intros Hf Hn Hs. pose proof Hs as (Hw & _ & _ & Hdl). unfold once_on_dataset_played.
  rewrite Hdl. change (default VNone (Some data)) with data.
  set (body := match py_iter data with Ok batches => _ | Err x => _ end).
  assert (Hcl : caught body.1.1 = [] ∧
                match body.2 with
                | Ok _ => raised body.1.1 = []
                | Err x => origin data x body.1.1
                end).
  { unfold body. destruct (py_iter data) as [bs|x] eqn:Hd.
    - destruct (batches_clean bs e) as [Hc Hr]. split; [done|].
      destruct (batches_played bs e).2; [done|by left].
    - split; [done|]. by right. }
  assert (Hwb : wiring body.1.2 = wiring self0).
  { unfold body. destruct (py_iter data); [|done].
    by apply (batches_stable self0 _ _ _
                (run_stable_pass_stable _ _ (wiring_run_stable self0 Hf))). }
  destruct body as [[t e'] [[]|x]]; cbn [fst snd] in Hcl, Hwb; cbn.
  - left. split; [done|by eexists].
  - right. destruct Hcl as [Hc Ho].
    destruct (handle_exception_cases self0 x e' Hn Hwb)
      as [(Hreg & th & e'' & Hh & Hch & Hrh & Hih)|(Hreg & Hh)]; rewrite Hh; cbn.
    + right. exists x. autorewrite with trace. rewrite Hc, Hch, !app_nil_r.
      conj; try done.
      * apply origin_app_l; [by apply origin_app_l|done].
      * by apply informed_app_r.
    + left. exists x. autorewrite with trace. rewrite Hc, !app_nil_r. conj; try done.
      by apply origin_app_l.
Qed.

Lemma inner_and_then_clean {A} self0 data (m : out A) (k : A → Engine → out unit) :
  clean m.1.1 m.2 →
  (∀ a, m.2 = Ok a → inner_outcome self0 data (k a m.1.2).1.1 (k a m.1.2).2) →
  inner_outcome self0 data (and_then m k).1.1 (and_then m k).2.
Proof.
  destruct m as [[t e] [a|x]]; cbn; [|by left]. intros [Hc Hr] Hk.
  specialize (Hk a eq_refl). destruct (k a e) as [[t' e'] r']. cbn in *.
  destruct Hk as [[Hc' Hr']|[(x & H1 & H2 & H3 & H4)|(x & H1 & H2 & H3 & H4 & H5)]].
  - left. split; [by rewrite caught_app, Hc, Hc'|]. rewrite raised_app, Hr. by destruct r'.
  - right. left. exists x. rewrite caught_app, Hc. conj; try done. by apply origin_app_r.
  - right. right. exists x. rewrite caught_app, Hc. conj; try done.
    + by apply origin_app_r.
    + by apply informed_app_r.
Qed.

Lemma inner_then_clean self0 data (m : out unit) (k : unit → Engine → out unit) :
  inner_outcome self0 data m.1.1 m.2 →
  (∀ a e, clean (k a e).1.1 (k a e).2) →
  inner_outcome self0 data (and_then m k).1.1 (and_then m k).2.
Proof.
  intros [Hm|[(x & H1 & H2 & H3 & H4)|(x & H1 & H2 & H3 & H4 & H5)]] Hk.
  - left. by apply and_then_clean.
  - destruct m as [[t e] r]. cbn in *. subst r. right. left. by exists x.
  - destruct m as [[t e] r]. cbn in *. subst r. right. right. by exists x.
Qed.

Lemma inner_after_pass self0 data (m : out (option (Z * Z * Z)))
    (k : option (Z * Z * Z) → Engine → out unit) :
  pass_outcome self0 data m.1.1 m.2 →
  (∀ v, m.2 = Ok (Some v) →
     inner_outcome self0 data (k (Some v) m.1.2).1.1 (k (Some v) m.1.2).2) →
  (∀ e, k None e = ([], e, Err unpack_error)) →
  inner_outcome self0 data (and_then m k).1.1 (and_then m k).2.
Proof.
  destruct m as [[t e] r]. cbn.
  intros [[[Hc Hr] [v ->]]|[(x & H1 & H2 & H3 & ->)|(x & H1 & H2 & H3 & -> & H5)]] Hk Hnone.
  - specialize (Hk v eq_refl). cbn. destruct (k (Some v) e) as [[t' e'] r']. cbn in *.
    destruct Hk as [[Hc' Hr']|[(x & H1 & H2 & H3 & H4)|(x & H1 & H2 & H3 & H4 & H5)]].
    + left. split; [by rewrite caught_app, Hc, Hc'|]. rewrite raised_app, Hr. by destruct r'.
    + right. left. exists x. rewrite caught_app, Hc. conj; try done. by apply origin_app_r.
    + right. right. exists x. rewrite caught_app, Hc. conj; try done.
      * by apply origin_app_r.
      * by apply informed_app_r.
  - cbn. right. left. by exists x.
  - cbn. rewrite Hnone. cbn. rewrite app_nil_r. right. right. by exists x.
Qed.

Lemma epochs_outcome self0 data max_epochs n : ∀ ep e,
  frame_ok self0 → exception_handlers_normal self0 → steady self0 ep data e →
  inner_outcome self0 data (epochs_played n max_epochs e).1.1 (epochs_played n max_epochs e).2.
Proof.
  induction n as [|n IH]; intros ep e Hf Hn Hs; cbn [epochs_played];
    destruct (_ && _); try (by left).
  apply inner_and_then_clean; [apply dispatch_clean|]. intros [] Hd1.
  set (ep1 := (int_attr "epoch" e + 1)%Z).
  set (e2 := (dispatch EPOCH_STARTED [] _).1.2).
  assert (Hs2 : steady self0 ep1 data e2).
  { apply (dispatch_steady self0 data Hf). by apply (steady_set_epoch _ ep). }
  apply inner_after_pass; [by apply (once_on_dataset_outcome _ _ ep1)| |done].
  intros v Hv. set (e3 := (once_on_dataset_played e2).1.2).
  assert (Hs3 : steady self0 ep1 data e3) by (by apply (once_on_dataset_steady self0 data Hf)).
  destruct (should_terminate e3); [by left|].
  apply inner_and_then_clean; [apply dispatch_clean|]. intros [] Hd3.
  apply (IH ep1); [done..|]. by apply (dispatch_steady self0 data Hf).
Qed.

Lemma run_body_outcome self0 data max_epochs ep e :
  frame_ok self0 → exception_handlers_normal self0 → steady self0 ep data e →
  inner_outcome self0 data (run_body_played max_epochs e).1.1 (run_body_played max_epochs e).2.
Proof.
  intros Hf Hn Hs. unfold run_body_played.
  apply inner_and_then_clean; [apply dispatch_clean|]. intros [] Hd1.
  apply inner_then_clean; [|intros; apply dispatch_clean].
  apply (epochs_outcome _ _ _ _ ep); [done..|]. by apply (dispatch_steady self0 data Hf).
Qed.

(** The engine [run] leaves still holds a run state. *)
Lemma run_played_steady self data max_epochs :
  frame_ok self → ∃ ep, steady self ep data (run_played data max_epochs self).1.2.
Proof.
  intros Hf. unfold run_played.
  destruct (run_body_steady self data Hf max_epochs 0 _ (steady_fresh self data max_epochs))
    as [ep Hs].
  destruct (run_body_played max_epochs _) as [[t e'] [[]|x]]; cbn in Hs |- *; [by exists ep|].
  exists ep. unfold handle_exception_played. case_decide as Hreg; cbn; [|done].
  pose proof (dispatch_steady self data Hf ep EXCEPTION_RAISED [VExc x] e' Hs) as Hd.
  by destruct (dispatch EXCEPTION_RAISED [VExc x] e') as [[t' e''] [[]|y]].
Qed.

Lemma run_played_routed data max_epochs self :
  frame_ok self → exception_handlers_normal self →
  routed self data (run_played data max_epochs self).1.1 (run_played data max_epochs self).2
    (state (run_played data max_epochs self).1.2).
Proof.
  intros Hf Hn. unfold run_played.
  set (e0 := set_state _ self).
  pose proof (run_body_outcome self data max_epochs 0 e0 Hf Hn
                (steady_fresh self data max_epochs)) as Hout.
  assert (Hwb : wiring (run_body_played max_epochs e0).1.2 = wiring self).
  { destruct (run_body_steady self data Hf max_epochs 0 e0 (steady_fresh self data max_epochs))
      as [ep Hs]. apply Hs. }
  destruct (run_body_played max_epochs e0) as [[t e'] [[]|x]]; cbn in Hout, Hwb |- *.
  - destruct Hout as [[Hc Hr]|[(x & _ & _ & _ & ?)|(x & _ & _ & _ & ? & _)]]; try done.
    unfold routed. by rewrite Hc.
  - unfold routed.
    destruct (handle_exception_cases self x e' Hn Hwb)
      as [(Hreg & th & e'' & Hh & Hch & Hrh & Hih)|(Hreg & Hh)]; rewrite Hh; cbn;
      autorewrite with trace; rewrite ?Hch, ?app_nil_r.
    + destruct Hout as [[Hc Hr]|[(y & H1 & H2 & H3 & H4)|(y & H1 & H2 & H3 & H4 & H5)]];
        try done.
      * rewrite Hc. cbn. split.
        { left. autorewrite with trace. by rewrite Hr, Hrh. }
        split; [|done]. intros _. split; [done|]. by apply informed_app_r.
      * rewrite H1. cbn. split.
        { apply origin_app_l; [by apply origin_app_l|done]. }
        split; [|by intros Hno]. intros _. split; [done|].
        by apply informed_app_l, informed_app_l.
    + destruct Hout as [[Hc Hr]|[(y & H1 & H2 & H3 & H4)|(y & H1 & H2 & H3 & H4 & H5)]];
        try done.
      * rewrite Hc. cbn. split.
        { left. autorewrite with trace. by rewrite Hr. }
        by split.
      * rewrite H1. cbn. injection H4 as ->. split.
        { by apply origin_app_l. }
        by split.
Qed.

(** C2, as it holds. The registered callables leave the handler table,
    the process function, the counters and the dataset alone, and the
    [EXCEPTION_RAISED] handlers return normally. Then [run] ends, and the
    engine it leaves holds a run state [st]. When [run] caught nothing, no
    callable raised and [run] returns [st]. Otherwise the first exception
    it caught, [x], is the error a callable raised (the only one that
    raised) or, no callable having raised, the error of iterating the
    dataset; when the handler table has no entry for [EXCEPTION_RAISED],
    [run] raises [x] itself; when it has one, [run] returns [st] and
    every [EXCEPTION_RAISED] registration has been invoked with the engine
    and [x]. *)
Theorem run_routes_the_first_exception data max_epochs s :
  frame_ok (eng s) →
  exception_handlers_normal (eng s) →
  ∃ fuel0, ∀ fuel, fuel0 ≤ fuel →
    ∃ s' t st (r : result (option State)),
      run fuel data max_epochs s = (s', to_outcome r) ∧
      trace s' = trace s ++ t ∧
      state (eng s') = Some st ∧
      match head (caught t) with
      | None => raised t = [] ∧ r = Ok (Some st)
      | Some x =>
          (raised t = [x] ∨ (raised t = [] ∧ py_iter data = Err x)) ∧
          (exception_handled (eng s) → r = Ok (Some st) ∧ informed (eng s) x t) ∧
          (¬ exception_handled (eng s) → r = Err x)
      end.
Proof.
  intros Hf Hn. exists (S (longest (eng s) + Z.to_nat max_epochs)). intros fuel Hfuel.
  rewrite run_as_played by (done || lia).
  pose proof (run_played_routed data max_epochs (eng s) Hf Hn) as Hr.
  destruct (run_played_steady (eng s) data max_epochs Hf) as [ep Hs].
  destruct (run_played data max_epochs (eng s)) as [[t e'] r]. cbn in Hr, Hs |- *.
  destruct (steady_has_state _ _ _ _ Hs) as [st Hst]. rewrite Hst in Hr.
  by exists (mkSt e' (trace s ++ t)), t, st, r.
Qed.

(** ** The counters and the keys of the handler table *)

Lemma snapshots_snoc t o : snapshots (t ++ [o]) = snapshots t ++ engines_of o.
Proof. unfold snapshots. by rewrite bind_app, bind_singleton. Qed.

Lemma iterations_started_snoc t o :
  iterations_started (t ++ [o]) = iterations_started t ++ iterations_started [o].
Proof. apply omap_app. Qed.

Lemma tracked_step self0 max_epochs t e o e' (n n' : nat) ep' :
  tracked self0 max_epochs t e →
  attr "iteration" e = Some (VInt (Z.of_nat n)) →
  wiring e' = wiring self0 →
  attr "iteration" e' = Some (VInt (Z.of_nat n')) →
  attr "epoch" e' = Some (VInt ep') →
  (ep' ≤ Z.max 0 max_epochs)%Z →
  iterations_started [o] = Z.of_nat <$> seq (S n) (n' - n) →
  n ≤ n' →
  StronglySorted Z.le (int_attr "iteration" <$> engines_of o) →
  Forall (λ x, (Z.of_nat n ≤ int_attr "iteration" x ≤ Z.of_nat n')%Z ∧
               (int_attr "epoch" x ≤ Z.max 0 max_epochs)%Z) (engines_of o) →
  tracked self0 max_epochs (t ++ [o]) e'.
Proof.
  intros (Hw & n0 & ep & Hit & Hep & Hle & Hst & Hso & Hall) Hn Hw' Hit' Hep' Hle' Ho Hnn Hso' Hall'.
  assert (n0 = n) as -> by (rewrite Hit in Hn; injection Hn; lia).
  split; [done|]. exists n', ep'. conj; try done.
  - rewrite iterations_started_snoc, Hst, Ho, <- fmap_app. f_equal.
    replace n' with (n + (n' - n)) at 2 by lia. by rewrite seq_app.
  - rewrite snapshots_snoc, fmap_app. apply StronglySorted_app. conj; try done.
    intros x1 x2 H1 H2.
    apply list_elem_of_fmap in H1 as (e1 & -> & H1).
    apply list_elem_of_fmap in H2 as (e2 & -> & H2).
    rewrite Forall_forall in Hall, Hall'.
    specialize (Hall _ H1). specialize (Hall' _ H2). lia.
  - rewrite snapshots_snoc. apply Forall_app. split.
    + eapply Forall_impl; [exact Hall|]. cbn. intros; lia.
    + eapply Forall_impl; [exact Hall'|]. cbn. intros; lia.
Qed.

Lemma int_attr_Some k z self : attr k self = Some (VInt z) → int_attr k self = z.
Proof. unfold int_attr. by intros ->. Qed.

Lemma sorted_pair (a b : Z) : (a ≤ b)%Z → StronglySorted Z.le [a; b].
Proof. intros. repeat constructor. done. Qed.

Lemma sorted_one (a : Z) : StronglySorted Z.le [a].
Proof. repeat constructor. Qed.

Lemma tracked_call self0 max_epochs t e e' o :
  tracked self0 max_epochs t e →
  wiring e' = wiring e →
  progress e' = progress e →
  engines_of o = [e; e'] →
  iterations_started [o] = [] →
  tracked self0 max_epochs (t ++ [o]) e'.
Proof.
  intros Ht Hw Hp Ho Hi. pose proof Ht as (Hw0 & n & ep & Hit & Hep & Hle & _).
  unfold progress in Hp. injection Hp as Hp1 Hp2 _.
  eapply (tracked_step _ _ _ _ _ _ n n ep); try done.
  - congruence.
  - congruence.
  - congruence.
  - by rewrite Hi, Nat.sub_diag.
  - rewrite Ho. cbn. apply sorted_pair.
    rewrite (int_attr_Some _ _ _ Hit), (int_attr_Some _ (Z.of_nat n) e') by congruence. lia.
  - rewrite Ho. repeat constructor;
      rewrite ?(int_attr_Some _ _ _ Hit), ?(int_attr_Some _ _ _ Hep),
        ?(int_attr_Some _ (Z.of_nat n) e'), ?(int_attr_Some _ ep e') by congruence; lia.
Qed.

Lemma tracked_invariant self0 max_epochs :
  frame_ok self0 → invariant self0 max_epochs (tracked self0 max_epochs).
Proof.
  intros Hf. split.
  - by intros t e [Hw _].
  - intros t e f a k Hreg Ht. destruct (Hf f Hreg) as [Hkw Hkp].
    by apply (tracked_call _ _ _ e).
  - intros t e b Ht. pose proof Ht as [Hw _].
    destruct (Hf (_process_function self0) (registered_process_function self0)) as [Hkw Hkp].
    by apply (tracked_call _ _ _ e).
  - intros t e ev args H1 H2 Ht. pose proof Ht as (Hw0 & n & ep & Hit & Hep & Hle & _).
    eapply (tracked_step _ _ _ _ _ _ n n ep); try done.
    + rewrite Nat.sub_diag. by destruct ev.
    + apply sorted_one.
    + repeat constructor;
        rewrite ?(int_attr_Some _ _ _ Hit), ?(int_attr_Some _ _ _ Hep); lia.
  - intros t e b Ht. pose proof Ht as (Hw0 & n & ep & Hit & Hep & Hle & _).
    rewrite (int_attr_Some _ _ _ Hit).
    set (e1 := set_attr "iteration" _ _).
    assert (Hit1 : attr "iteration" e1 = Some (VInt (Z.of_nat (S n)))).
    { unfold e1. rewrite attr_set_attr_eq. do 2 f_equal. lia. }
    assert (Hep1 : attr "epoch" e1 = Some (VInt ep)).
    { unfold e1. by rewrite !attr_set_attr_ne. }
    eapply (tracked_step _ _ _ _ _ _ n (S n) ep); try done.
    + cbn. rewrite (int_attr_Some _ _ _ Hit1).
      by replace (S n - n) with 1 by lia.
    + lia.
    + apply sorted_one.
    + repeat constructor;
        rewrite ?(int_attr_Some _ _ _ Hit1), ?(int_attr_Some _ _ _ Hep1); lia.
  - intros t e v (Hw0 & n & ep & Hit & Hep & Hle & Hst & Hso & Hall). split; [done|].
    exists n, ep. rewrite !attr_set_attr_ne by done. by conj.
  - intros t e Ht Hlt. pose proof Ht as (Hw0 & n & ep & Hit & Hep & Hle & _).
    rewrite (int_attr_Some _ _ _ Hep) in Hlt |- *.
    set (e1 := set_attr "epoch" _ _).
    assert (Hit1 : attr "iteration" e1 = Some (VInt (Z.of_nat n))).
    { unfold e1. by rewrite attr_set_attr_ne. }
    assert (Hep1 : attr "epoch" e1 = Some (VInt (ep + 1))).
    { unfold e1. by rewrite attr_set_attr_eq. }
    eapply (tracked_step _ _ _ _ _ _ n n (ep + 1)); try done.
    + lia.
    + by rewrite Nat.sub_diag.
    + apply sorted_one.
    + repeat constructor;
        rewrite ?(int_attr_Some _ _ _ Hit1), ?(int_attr_Some _ _ _ Hep1); lia.
  - intros t e m x Ht. pose proof Ht as (Hw0 & n & ep & Hit & Hep & Hle & _).
    eapply (tracked_step _ _ _ _ _ _ n n ep); try done.
    + by rewrite Nat.sub_diag.
    + constructor.
Qed.

Lemma tracked_fresh data max_epochs self :
  tracked self max_epochs [] (set_state (Some (fresh_state data max_epochs)) self).
Proof.
  split; [done|]. exists 0, 0%Z. conj; try done; try constructor. lia.
Qed.

Lemma add_event_handler_keys event_name handler args kwargs self :
  table_keys_valid self →
  table_keys_valid (add_event_handler event_name handler args kwargs self).1.
Proof.
  intros Hok. unfold add_event_handler.
  destruct (in_Events_members event_name) eqn:Hin; cbn; [|done].
  apply in_Events_members_spec in Hin as [ev ->]. cbn.
  assert (Hev : ev ∈ Events_members) by (destruct ev; set_solver).
  destruct (_event_handlers self !! KEvent ev) as [l|] eqn:Hl.
  - rewrite Hl. cbn. intros k Hk.
    destruct (decide (k = KEvent ev)) as [->|Hne]; [by exists ev|].
    cbn in Hk. rewrite lookup_insert_ne in Hk by done. by apply Hok.
  - rewrite lookup_insert_eq. cbn. intros k Hk.
    destruct (decide (k = KEvent ev)) as [->|Hne]; [by exists ev|].
    cbn in Hk. rewrite !lookup_insert_ne in Hk by done. by apply Hok.
Qed.

Lemma add_event_handlers_keys calls : ∀ self,
  table_keys_valid self → table_keys_valid (add_event_handlers calls self).
Proof.
  induction calls as [|c calls IH]; intros self Hok; [done|].
  cbn. apply IH. by apply add_event_handler_keys.
Qed.

Lemma Engine_init_keys f self : Engine_init (Some f) = Ok self → table_keys_valid self.
Proof.
  intros [= <-] k [l Hl]. cbn in Hl. by rewrite lookup_empty in Hl.
Qed.

Lemma iterated_app t1 t2 : iterated (t1 ++ t2) = iterated t1 ++ iterated t2.
Proof. apply omap_app. Qed.

Lemma iterated_Fire ev a e t :
  iterated (Fire ev a e :: t) =
    (if decide (ev = ITERATION_STARTED) then [default VNone (attr "batch" e)] else []) ++
    iterated t.
Proof. by destruct ev. Qed.

Lemma iterated_quiet t : fires t = [] → iterated t = [].
Proof.
  induction t as [|o t IH]; [done|]. destruct o; cbn; try done. all: by intros; apply IH.
Qed.

Lemma length_iterated t : length (iterated t) = length (iterations_started t).
Proof.
  unfold iterated, iterations_started.
  induction t as [|o t IH]; [done|]. destruct o as [[] a e| | |]; simpl; auto.
Qed.

Lemma dispatches_app ev t1 t2 : dispatches ev (t1 ++ t2) = dispatches ev t1 + dispatches ev t2.
Proof. unfold dispatches. by rewrite fires_app, filter_app, length_app. Qed.

Lemma dispatches_quiet ev t : fires t = [] → dispatches ev t = 0.
Proof. unfold dispatches. by intros ->. Qed.

Lemma in_pass_quiet t : fires t = [] → in_pass t.
Proof. unfold in_pass. intros ->. constructor. Qed.

Lemma in_pass_app t1 t2 : in_pass t1 → in_pass t2 → in_pass (t1 ++ t2).
Proof. unfold in_pass. rewrite fires_app. apply Forall_app_2. Qed.

Lemma in_pass_dispatches t :
  in_pass t → dispatches EPOCH_STARTED t = 0 ∧ dispatches EPOCH_COMPLETED t = 0.
Proof.
  unfold in_pass, dispatches. induction 1 as [|ev l [H1 H2] _ [IH1 IH2]]; [done|].
  by rewrite !filter_cons_False by done.
Qed.

(** What a dispatch adds to the readings of the trace. *)
Lemma dispatch_readings ev event_args e :
  let t := (dispatch ev event_args e).1.1 in
  fires t = [ev] ∧ processed t = [] ∧
  iterated t = if decide (ev = ITERATION_STARTED) then [default VNone (attr "batch" e)] else [].
Proof.
  destruct (dispatch_trace ev event_args e) as (os & Ht & Hf & Hp & _). cbn zeta.
  rewrite Ht, fires_Fire, processed_Fire, iterated_Fire, Hf, Hp, (iterated_quiet os Hf).
  by rewrite app_nil_r.
Qed.

Lemma handle_exception_readings x e :
  let t := (handle_exception_played x e).1.1 in
  in_pass t ∧ processed t = [] ∧ iterated t = [].
Proof.
  unfold handle_exception_played. case_decide as Hreg; cbn zeta; [|by conj; try constructor].
  destruct (dispatch_readings EXCEPTION_RAISED [VExc x] e) as (Hf & Hp & Hi).
  conj; try done. unfold in_pass. rewrite Hf. by repeat constructor.
Qed.

(** An iteration draws its batch; the batch goes to the process function
    unless an [ITERATION_STARTED] handler raised. *)
Lemma iteration_draws b e :
  let t := (iteration_played b e).1.1 in
  iterated t = [b] ∧ in_pass t ∧
  (processed t = [b] ∨ (processed t = [] ∧ ¬ is_Ok (iteration_played b e).2)).
Proof.
  unfold iteration_played.
  set (e1 := set_attr "iteration" _ _).
  assert (Hb : attr "batch" e1 = Some b).
  { unfold e1. rewrite attr_set_attr_ne by done. by rewrite attr_set_attr_eq. }
  destruct (dispatch_readings ITERATION_STARTED [] e1) as (Hf1 & Hp1 & Hi1).
  rewrite Hb, decide_True in Hi1 by done. change (default VNone (Some b)) with b in Hi1.
  assert (Hpass : ∀ l, Forall (λ ev, ev = ITERATION_STARTED ∨ ev = ITERATION_COMPLETED) l →
                       Forall (λ ev, ev ≠ EPOCH_STARTED ∧ ev ≠ EPOCH_COMPLETED) l).
  { intros l Hl. eapply Forall_impl; [exact Hl|]. by intros ev [->| ->]. }
  destruct (dispatch ITERATION_STARTED [] e1) as [[t1 e2] [[]|x]];
    cbn [and_then fst snd] in *.
  2:{ unfold in_pass. rewrite Hf1. conj; [done| |right; split; [done|by intros []]].
      apply Hpass. repeat constructor. }
  unfold process_played.
  destruct (call (_process_function e2) e2 [b] []) as [e3 [v|y]]; cbn [and_then fst snd].
  2:{ unfold in_pass. autorewrite with trace. rewrite iterated_app, Hf1, Hp1, Hi1. cbn.
      conj; [done| |by left]. apply Hpass. repeat constructor. }
  destruct (dispatch_readings ITERATION_COMPLETED [] (set_attr "output" v e3)) as (Hf3 & Hp3 & Hi3).
  rewrite decide_False in Hi3 by done.
  destruct (dispatch ITERATION_COMPLETED [] (set_attr "output" v e3)) as [[t3 e5] r3];
    cbn [fst snd] in *.
  unfold in_pass. autorewrite with trace. rewrite !iterated_app, Hf1, Hp1, Hi1, Hf3, Hp3, Hi3. cbn.
  conj; [done| |by left]. apply Hpass. repeat constructor; by right.
Qed.

(** The loop over the batches draws a prefix of them, all of them when it
    ends normally with the flag clear. *)
Lemma batches_draw bs : ∀ e,
  let t := (batches_played bs e).1.1 in
  let r := (batches_played bs e).2 in
  ∃ j, j ≤ length bs ∧ iterated t = take j bs ∧ in_pass t ∧ lag (is_Ok r) t ∧
       (is_Ok r → should_terminate (batches_played bs e).1.2 = false → j = length bs).
Proof.
  induction bs as [|b bs IH]; intros e; cbn [batches_played].
  { exists 0. cbn [fst snd]. conj; try done.
    - by apply in_pass_quiet.
    - by left. }
  destruct (iteration_draws b e) as (Hi & Hin & Hp).
  destruct (iteration_played b e) as [[t1 e1] [[]|x]]; cbn [and_then fst snd] in *.
  2:{ exists 1. cbn [take length]. rewrite take_0. conj; try done; [lia|].
      destruct Hp as [Hp|[Hp _]]; [left; congruence|right]. split; [by intros []|].
      exists b. by rewrite Hp, Hi. }
  destruct Hp as [Hp|[_ Hp]]; [|by destruct Hp].
  destruct (should_terminate e1) eqn:Hfl; cbn [fst snd].
  { exists 1. cbn [take length]. rewrite take_0, app_nil_r. conj; try done; try lia;
      try congruence.
    left. congruence. }
  destruct (IH e1) as (j & Hj & Hi' & Hin' & Hl' & Hfull).
  destruct (batches_played bs e1) as [[t2 e2] r2]; cbn [fst snd] in *.
  exists (S j). cbn [length take]. rewrite iterated_app, Hi, Hi'. conj; try done.
  - lia.
  - by apply in_pass_app.
  - unfold lag in *. rewrite processed_app, iterated_app, Hp, Hi.
    destruct Hl' as [Hl'|[Hno [b' Hl']]]; [left; by rewrite Hl'|right].
    split; [done|]. exists b'. by rewrite Hl', app_assoc.
  - intros Hok Hfl'. by rewrite (Hfull Hok Hfl').
Qed.

(** What an [except] clause adds to the readings of the trace. *)
Lemma except_clause_readings {A} msg x t e (fin : Engine → A) :
  let o := and_then (t ++ [LogError msg x], e, Ok tt)
             (λ _ e1, and_then (handle_exception_played x e1) (λ _ e2, ([], e2, Ok (fin e2)))) in
  iterated o.1.1 = iterated t ∧ processed o.1.1 = processed t ∧
  (in_pass t → in_pass o.1.1) ∧
  (∀ ev, ev ≠ EXCEPTION_RAISED → dispatches ev o.1.1 = dispatches ev t) ∧
  (¬ is_Ok o.2 ∨ o.2 = Ok (fin o.1.2)).
Proof.
  cbn [and_then]. destruct (handle_exception_readings x e) as (Hin & Hp & Hi).
  assert (Hd : ∀ ev, ev ≠ EXCEPTION_RAISED → dispatches ev (handle_exception_played x e).1.1 = 0).
  { intros ev Hev. unfold handle_exception_played. case_decide; [|done].
    destruct (dispatch_readings EXCEPTION_RAISED [VExc x] e) as (Hf & _).
    unfold dispatches. rewrite Hf. by rewrite filter_cons_False by done. }
  destruct (handle_exception_played x e) as [[th e''] [[]|z]]; cbn [and_then fst snd] in *.
  all: rewrite ?app_nil_r, !iterated_app, !processed_app, Hp, Hi; cbn [iterated processed omap];
    rewrite ?app_nil_r.
  all: conj; try done.
  all: try (intros Ht; apply in_pass_app; [apply in_pass_app; [done|by apply in_pass_quiet]|done]).
  all: try (intros ev Hev; rewrite !dispatches_app, (Hd ev Hev), (dispatches_quiet ev [_]) by done;
            lia).
  - by right.
  - left. by intros [].
Qed.

(** A pass draws a prefix of the batches of the dataset. *)
Lemma once_on_dataset_draws self0 data ep e :
  steady self0 ep data e →
  let t := (once_on_dataset_played e).1.1 in
  let r := (once_on_dataset_played e).2 in
  ∃ j, j ≤ length (batches_of data) ∧ iterated t = take j (batches_of data) ∧ in_pass t ∧
       lag (∃ v, r = Ok (Some v)) t ∧
       ((∃ v, r = Ok (Some v)) → processed t = iterated t ∧
          (should_terminate (once_on_dataset_played e).1.2 = false →
           j = length (batches_of data))).
Proof.
  intros (_ & _ & _ & Hdl). cbv zeta. unfold once_on_dataset_played, batches_of.
  rewrite Hdl. change (default VNone (Some data)) with data.
  destruct (py_iter data) as [bs|x].
  - destruct (batches_draw bs e) as (j & Hj & Hi & Hin & Hl & Hfull).
    destruct (batches_played bs e) as [[t e'] [[]|y]]; cbn [fst snd] in Hi, Hin, Hl, Hfull.
    + exists j. cbn [fst snd]. conj; try done.
      * destruct Hl as [Hl|[Hno _]]; [by left|by destruct Hno].
      * intros _. split; [|by apply Hfull].
        destruct Hl as [Hl|[Hno _]]; [done|by destruct Hno].
    + destruct (except_clause_readings "Current run is terminating due to exception: %s"
                  y t e' (λ _, @None (Z * Z * Z))) as (Hi' & Hp' & Hin' & _ & Hr).
      cbv zeta in Hi', Hp', Hin', Hr.
      destruct (and_then (t ++ [_], e', Ok tt) _) as [[t' e''] r']; cbn [fst snd] in *.
      assert (Hnot : ¬ ∃ v, r' = Ok (Some v)).
      { intros [v ->]. destruct Hr as [Hr|Hr]; [by apply Hr|done]. }
      exists j. unfold lag. rewrite Hi', Hp'. conj; try done; [by apply Hin'|].
      destruct Hl as [Hl|[_ Hl]]; [by left|right]. by split.
  - destruct (except_clause_readings "Current run is terminating due to exception: %s"
                x [] e (λ _, @None (Z * Z * Z))) as (Hi' & Hp' & Hin' & _ & Hr).
    cbv zeta in Hi', Hp', Hin', Hr. rewrite app_nil_l in *.
    destruct (and_then ([_], e, Ok tt) _) as [[t' e''] r']; cbn [fst snd] in *.
    assert (Hnot : ¬ ∃ v, r' = Ok (Some v)).
    { intros [v ->]. destruct Hr as [Hr|Hr]; [by apply Hr|done]. }
    exists 0. unfold lag. rewrite Hi', Hp'. conj; try done; [by apply Hin', in_pass_quiet|by left].
Qed.

Lemma dispatches_one ev ev' t :
  fires t = [ev'] → dispatches ev t = if decide (ev' = ev) then 1 else 0.
Proof.
  unfold dispatches. intros ->. case_decide.
  - by rewrite filter_cons_True by done.
  - by rewrite filter_cons_False by done.
Qed.

Lemma drawn_nil bs : drawn bs 0 0 [].
Proof. unfold drawn. cbn. conj; try done; lia. Qed.

(** The epoch loop draws whole passes, then possibly part of one more. *)
Lemma epochs_draw self0 data max_epochs n : ∀ ep e,
  frame_ok self0 → steady self0 ep data e →
  ∃ c j, drawn (batches_of data) c j (epochs_played n max_epochs e).1.1 ∧
         lag (is_Ok (epochs_played n max_epochs e).2) (epochs_played n max_epochs e).1.1.
Proof.
  induction n as [|n IH]; intros ep e Hf Hs; cbn [epochs_played];
    destruct (_ && _); try (exists 0, 0; split; [apply drawn_nil|by left]).
  set (ep1 := (int_attr "epoch" e + 1)%Z).
  set (e1 := set_attr "epoch" _ e).
  assert (Hs1 : steady self0 ep1 data e1) by (by apply (steady_set_epoch _ ep)).
  destruct (dispatch_readings EPOCH_STARTED [] e1) as (Hf1 & Hp1 & Hi1).
  rewrite decide_False in Hi1 by done.
  pose proof (dispatches_one EPOCH_STARTED _ _ Hf1) as Hs1'.
  pose proof (dispatches_one EPOCH_COMPLETED _ _ Hf1) as Hc1'.
  rewrite decide_True in Hs1' by done. rewrite decide_False in Hc1' by done.
  pose proof (dispatch_steady self0 data Hf ep1 EPOCH_STARTED [] e1 Hs1) as Hs2.
  destruct (dispatch EPOCH_STARTED [] e1) as [[t1 e2] [[]|x]]; cbn [and_then fst snd] in *.
  2:{ exists 0, 0. unfold drawn, lag. rewrite Hi1, Hp1, Hs1', Hc1'. cbn.
      split; [conj; try done; lia|by left]. }
  destruct (once_on_dataset_draws self0 data ep1 e2 Hs2) as (j1 & Hj1 & Hi2 & Hin2 & Hl2 & Hfull).
  destruct (in_pass_dispatches _ Hin2) as [Hs2' Hc2'].
  pose proof (once_on_dataset_steady self0 data Hf ep1 e2 Hs2) as Hs3.
  destruct (once_on_dataset_played e2) as [[t2 e3] r2]; cbn [fst snd] in *.
  assert (Hstop : ∀ (r : result unit), ¬ is_Ok r ∨ processed t2 = iterated t2 →
            ∃ c j, drawn (batches_of data) c j (t1 ++ t2 ++ []) ∧ lag (is_Ok r) (t1 ++ t2 ++ [])).
  { intros r Hr. exists 0, j1. unfold drawn, lag.
    rewrite app_nil_r, !iterated_app, !processed_app, !dispatches_app, Hi1, Hp1, Hi2, Hs1', Hc1',
      Hs2', Hc2'. cbn [app concat replicate].
    split; [conj; try done; lia|].
    destruct Hr as [Hr|Hr]; [|left; congruence].
    destruct Hl2 as [Hl2|[_ Hl2]]; [left; congruence|right]. split; [done|].
    by rewrite Hi2 in Hl2. }
  destruct r2 as [[v|]|y]; cbn [and_then].
  3:{ specialize (Hstop (Err y) (or_introl (λ H, H))). by rewrite app_nil_r in Hstop. }
  2:{ apply (Hstop (Err unpack_error)). left. by intros []. }
  destruct (Hfull (ex_intro _ v eq_refl)) as [Hp2 Hj].
  destruct (should_terminate e3) eqn:Hfl; [apply (Hstop (Ok tt)); by right|].
  specialize (Hj eq_refl). subst j1. rewrite firstn_all in Hi2.
  destruct (dispatch_readings EPOCH_COMPLETED [] e3) as (Hf4 & Hp4 & Hi4).
  rewrite decide_False in Hi4 by done.
  pose proof (dispatches_one EPOCH_STARTED _ _ Hf4) as Hs4'.
  pose proof (dispatches_one EPOCH_COMPLETED _ _ Hf4) as Hc4'.
  rewrite decide_False in Hs4' by done. rewrite decide_True in Hc4' by done.
  pose proof (dispatch_steady self0 data Hf ep1 EPOCH_COMPLETED [] e3 Hs3) as Hs4.
  destruct (dispatch EPOCH_COMPLETED [] e3) as [[t4 e4] [[]|z]]; cbn [and_then fst snd] in *.
  2:{ exists 1, 0. unfold drawn, lag.
      rewrite !iterated_app, !processed_app, !dispatches_app, Hi1, Hp1, Hi2, Hp2, Hi2, Hi4, Hp4,
        Hs1', Hc1', Hs2', Hc2', Hs4', Hc4'. cbn [app concat replicate take].
      rewrite !app_nil_r. split; [conj; try done; lia|by left]. }
  destruct (IH ep1 e4 Hf Hs4) as (c & j & (Hj & Hi5 & Hc5 & Hs5 & Hlt5) & Hl5).
  destruct (epochs_played n max_epochs e4) as [[t5 e5] r5]; cbn [fst snd] in *.
  exists (S c), j. unfold drawn, lag in *.
  rewrite !iterated_app, !processed_app, !dispatches_app, Hi1, Hp1, Hi2, Hp2, Hi2, Hi4, Hp4,
    Hs1', Hc1', Hs2', Hc2', Hs4', Hc4', Hi5. cbn [app concat replicate].
  split; [conj; try done; try lia|].
  - by rewrite app_assoc.
  - destruct Hl5 as [Hl5|[Hno [b Hl5]]]; rewrite Hi5 in Hl5; [left; by rewrite Hl5|right].
    split; [done|]. exists b. rewrite Hl5. by rewrite !app_assoc.
Qed.

(** The batches [run] draws. *)
Lemma run_played_draws self data max_epochs :
  frame_ok self →
  let t := (run_played data max_epochs self).1.1 in
  ∃ c j, drawn (batches_of data) c j t ∧ lag False t.
Proof.
  intros Hf. cbv zeta. unfold run_played.
  set (e0 := set_state _ self).
  assert (Hbody : ∃ c j, drawn (batches_of data) c j (run_body_played max_epochs e0).1.1 ∧
                         lag (is_Ok (run_body_played max_epochs e0).2)
                           (run_body_played max_epochs e0).1.1).
  { unfold run_body_played.
    destruct (dispatch_readings STARTED [] e0) as (Hf1 & Hp1 & Hi1).
    rewrite decide_False in Hi1 by done.
    pose proof (dispatches_one EPOCH_STARTED _ _ Hf1) as Hs1'.
    pose proof (dispatches_one EPOCH_COMPLETED _ _ Hf1) as Hc1'.
    rewrite decide_False in Hs1' by done. rewrite decide_False in Hc1' by done.
    pose proof (dispatch_steady self data Hf 0 STARTED [] e0 (steady_fresh self data max_epochs))
      as Hs1.
    destruct (dispatch STARTED [] e0) as [[t1 e1] [[]|x]]; cbn [and_then fst snd] in *.
    2:{ exists 0, 0. unfold drawn, lag. rewrite Hi1, Hp1, Hs1', Hc1'. cbn.
        split; [conj; try done; lia|by left]. }
    destruct (epochs_draw self data max_epochs (Z.to_nat max_epochs) 0 e1 Hf Hs1)
      as (c & j & (Hj & Hi2 & Hc2 & Hs2 & Hlt2) & Hl2).
    destruct (epochs_played (Z.to_nat max_epochs) max_epochs e1) as [[t2 e2] [[]|y]];
      cbn [and_then fst snd] in *.
    2:{ exists c, j. unfold drawn, lag in *.
        rewrite !iterated_app, !processed_app, !dispatches_app, Hi1, Hp1, Hs1', Hc1', Hi2.
        cbn [app]. split; [by conj|]. by rewrite <- Hi2. }
    destruct (dispatch_readings COMPLETED [] e2) as (Hf3 & Hp3 & Hi3).
    rewrite decide_False in Hi3 by done.
    pose proof (dispatches_one EPOCH_STARTED _ _ Hf3) as Hs3'.
    pose proof (dispatches_one EPOCH_COMPLETED _ _ Hf3) as Hc3'.
    rewrite decide_False in Hs3' by done. rewrite decide_False in Hc3' by done.
    destruct (dispatch COMPLETED [] e2) as [[t3 e3] r3]; cbn [fst snd] in *.
    exists c, j. unfold drawn, lag in *.
    rewrite !iterated_app, !processed_app, !dispatches_app, Hi1, Hp1, Hs1', Hc1', Hi2, Hi3, Hp3,
      Hs3', Hc3'. cbn [app]. rewrite !app_nil_r, !Nat.add_0_r.
    split; [by conj|]. left. destruct Hl2 as [Hl2|[Hno _]]; [by rewrite <- Hi2|].
    by destruct Hno. }
  destruct Hbody as (c & j & (Hj & Hi & Hc & Hs & Hlt) & Hl).
  destruct (run_body_played max_epochs e0) as [[t e'] [[]|x]]; cbn [fst snd] in *.
  { exists c, j. split; [done|]. destruct Hl as [Hl|[Hno _]]; [by left|by destruct Hno]. }
  destruct (except_clause_readings "Training is terminating due to exception: %s"
              x t e' state) as (Hi' & Hp' & _ & Hd' & _).
  cbv zeta in Hi', Hp', Hd'.
  destruct (and_then (t ++ [_], e', Ok tt) _) as [[t' e''] r']; cbn [fst snd] in *.
  exists c, j. unfold drawn, lag. rewrite Hi', Hp', !Hd' by done. split; [done|].
  destruct Hl as [Hl|[_ Hl]]; [by left|right]. split; [tauto|done].
Qed.

Lemma length_concat_replicate {A} (c : nat) (l : list A) :
  length (concat (replicate c l)) = c * length l.
Proof. induction c as [|c IH]; [done|]. cbn. rewrite length_app, IH. lia. Qed.

(** C8. The registered callables leave the handler table, the process
    function, the counters and the dataset alone. Then throughout a run
    the iteration counter only goes up, by one per batch drawn. The
    batches drawn, which [state.batch] shows at the [ITERATION_STARTED]
    dispatches, are [c] whole passes over the dataset followed by the
    first [j] batches of one more; these dispatches see the counter at
    [1, 2, .., n] with [n = c * B + j], and it is [n] when [run] ends.
    Each [EPOCH_COMPLETED] dispatch stands for a whole pass, each pass
    lies in an epoch that [EPOCH_STARTED] announced, and every batch drawn
    went to the process function, the last one possibly excepted. Along
    the engines the run records, the last one included, the counter never
    decreases, so it is not reset between epochs. The epoch counter of
    each of these engines is at most [max_epochs] (it stays at [0] when
    [max_epochs] is negative). And after any sequence of
    [add_event_handler] calls on a newly built engine, the keys of the
    handler table are members of [Events]. *)
Theorem counters_and_table_keys_invariant data max_epochs s :
  frame_ok (eng s) →
  (∃ fuel0, ∀ fuel, fuel0 ≤ fuel →
     ∃ s' t (r : result (option State)) (n c j : nat),
       run fuel data max_epochs s = (s', to_outcome r) ∧
       trace s' = trace s ++ t ∧
       iterations_started t = Z.of_nat <$> seq 1 n ∧
       int_attr "iteration" (eng s') = Z.of_nat n ∧
       StronglySorted Z.le (int_attr "iteration" <$> snapshots t ++ [eng s']) ∧
       Forall (λ e, (int_attr "epoch" e ≤ Z.max 0 max_epochs)%Z) (snapshots t ++ [eng s']) ∧
       n = c * length (batches_of data) + j ∧
       j ≤ length (batches_of data) ∧
       iterated t = concat (replicate c (batches_of data)) ++ take j (batches_of data) ∧
       dispatches EPOCH_COMPLETED t ≤ c ∧
       c ≤ dispatches EPOCH_STARTED t ∧
       (0 < j → c < dispatches EPOCH_STARTED t) ∧
       (processed t = iterated t ∨ ∃ b, iterated t = processed t ++ [b])) ∧
  ∀ f calls self,
    Engine_init (Some f) = Ok self → table_keys_valid (add_event_handlers calls self).
Proof.
  intros Hf. split.
  - exists (S (longest (eng s) + Z.to_nat max_epochs)). intros fuel Hfuel.
    rewrite run_as_played by (done || lia).
    pose proof (within_run (eng s) max_epochs _ (tracked_invariant _ max_epochs Hf)
                  data [] (eng s) (tracked_fresh data max_epochs (eng s))) as Ht.
    destruct (run_played_draws (eng s) data max_epochs Hf)
      as (c & j & (Hj & Hdr & Hec & Hes & Hlt) & Hlag).
    destruct (run_played data max_epochs (eng s)) as [[t e'] r]. cbn in Ht |- *.
    cbn [fst snd] in Hj, Hdr, Hec, Hes, Hlt, Hlag.
    destruct Ht as (Hw & n & ep & Hit & Hep & Hle & Hst & Hso & Hall).
    exists (mkSt e' (trace s ++ t)), t, r, n, c, j. cbn. conj; try done.
    + by apply int_attr_Some.
    + rewrite fmap_app. apply StronglySorted_app. conj; try done.
      * intros x1 x2 H1 H2. apply list_elem_of_fmap in H1 as (e1 & -> & H1).
        apply list_elem_of_singleton in H2 as ->.
        rewrite Forall_forall in Hall. specialize (Hall _ H1).
        rewrite (int_attr_Some _ _ _ Hit). lia.
      * apply sorted_one.
    + apply Forall_app. split.
      * eapply Forall_impl; [exact Hall|]. cbn. intros; lia.
      * repeat constructor. by rewrite (int_attr_Some _ _ _ Hep).
    + pose proof (length_iterated t) as Hlen.
      rewrite Hst, length_fmap, length_seq, Hdr, length_app, length_concat_replicate,
        length_take in Hlen. lia.
    + destruct Hlag as [Hl|[_ Hl]]; [by left|by right].
  - intros f calls self Hinit. eapply add_event_handlers_keys, Engine_init_keys, Hinit.
Qed.

(** ** Registering handlers *)

Lemma add_event_handler_valid ev handler args kwargs self :
  add_event_handler (VEvent ev) handler args kwargs self =
    (set_event_handlers
       (<[KEvent ev := handlers_of self ev ++ [(handler, args, kwargs)]]> (_event_handlers self))
       self, Ok tt).
Proof.
  unfold add_event_handler, handlers_of.
  assert (Hin : in_Events_members (VEvent ev) = true) by (apply in_Events_members_spec; by eexists).
  rewrite Hin. cbn.
  destruct (_event_handlers self !! KEvent ev) as [l|] eqn:Hl.
  - by rewrite Hl.
  - rewrite lookup_insert_eq. cbn. by rewrite insert_insert_eq.
Qed.

(** X2. Registering a handler for a member of [Events] never raises: the
    registration goes to the end of the list of that event, the lists of
    the other events, the process function, the termination flag and the
    run state stay as they were. *)
Theorem add_event_handler_appends_registration ev handler args kwargs self :
  ∃ self',
    add_event_handler (VEvent ev) handler args kwargs self = (self', Ok tt) ∧
    handlers_of self' ev = handlers_of self ev ++ [(handler, args, kwargs)] ∧
    (∀ k, k ≠ KEvent ev → _event_handlers self' !! k = _event_handlers self !! k) ∧
    _process_function self' = _process_function self ∧
    should_terminate self' = should_terminate self ∧
    state self' = state self.
Proof.
  eexists. split; [apply add_event_handler_valid|]. conj; try done.
  - unfold handlers_of at 1. cbn. by rewrite lookup_insert_eq.
  - intros k Hk. cbn. by rewrite lookup_insert_ne.
Qed.

Lemma add_event_handler_invalid event_name handler args kwargs self :
  (∀ e, event_name ≠ VEvent e) →
  add_event_handler event_name handler args kwargs self = (self, Err (invalid_event event_name)).
Proof.
  intros Hne. unfold add_event_handler.
  destruct (in_Events_members event_name) eqn:Hin; [|done].
  apply in_Events_members_spec in Hin as [e ->]. by destruct (Hne e).
Qed.

Lemma add_event_handler_handlers_of event_name handler args kwargs self ev :
  handlers_of (add_event_handler event_name handler args kwargs self).1 ev =
    handlers_of self ev ++ registrations_for ev [(event_name, handler, args, kwargs)].
Proof.
  destruct (in_Events_members event_name) eqn:Hin.
  - apply in_Events_members_spec in Hin as [e ->]. rewrite add_event_handler_valid. cbn.
    unfold handlers_of at 1. cbn. case_decide as He.
    + subst e. by rewrite lookup_insert_eq.
    + rewrite lookup_insert_ne by congruence. by rewrite app_nil_r.
  - rewrite add_event_handler_invalid.
    + cbn. destruct event_name; cbn; try by rewrite app_nil_r.
      by rewrite (proj2 (in_Events_members_spec _)) in Hin by by eexists.
    + intros e ->. by rewrite (proj2 (in_Events_members_spec _)) in Hin by by eexists.
Qed.

Lemma add_event_handler_nonempty event_name handler args kwargs self :
  entries_nonempty self →
  entries_nonempty (add_event_handler event_name handler args kwargs self).1.
Proof.
  intros Hok. destruct (in_Events_members event_name) eqn:Hin.
  - apply in_Events_members_spec in Hin as [e ->]. rewrite add_event_handler_valid. cbn.
    intros k l Hl. cbn in Hl. destruct (decide (k = KEvent e)) as [->|Hk].
    + rewrite lookup_insert_eq in Hl. injection Hl as <-. by intros [_ ?]%app_eq_nil.
    + rewrite lookup_insert_ne in Hl by done. by eapply Hok.
  - rewrite add_event_handler_invalid; [done|].
    intros e ->. by rewrite (proj2 (in_Events_members_spec _)) in Hin by by eexists.
Qed.

Lemma registrations_for_app ev calls1 calls2 :
  registrations_for ev (calls1 ++ calls2) =
    registrations_for ev calls1 ++ registrations_for ev calls2.
Proof. apply omap_app. Qed.

Lemma add_event_handlers_handlers_of calls ev : ∀ self,
  handlers_of (add_event_handlers calls self) ev = handlers_of self ev ++ registrations_for ev calls.
Proof.
  unfold add_event_handlers.
  induction calls as [|c calls IH]; intros self; [by rewrite app_nil_r|].
  cbn [foldl]. rewrite IH, add_event_handler_handlers_of, <- app_assoc. f_equal.
  destruct c as [[[event_name handler] args] kwargs].
  by rewrite <- registrations_for_app.
Qed.

Lemma add_event_handlers_nonempty calls : ∀ self,
  entries_nonempty self → entries_nonempty (add_event_handlers calls self).
Proof.
  induction calls as [|c calls IH]; intros self Hok; [done|].
  cbn. apply IH. by apply add_event_handler_nonempty.
Qed.

(** X3. After any sequence of [add_event_handler] calls on a newly built
    engine, the handler list of each event holds the registrations the
    calls made for it, in the order of the calls (a call with an invalid
    event adds nothing), and the table has an entry for an event exactly
    when some call registered a handler for it. *)
Theorem add_event_handlers_in_call_order f calls self ev :
  Engine_init (Some f) = Ok self →
  handlers_of (add_event_handlers calls self) ev = registrations_for ev calls ∧
  (is_Some (_event_handlers (add_event_handlers calls self) !! KEvent ev) ↔
     registrations_for ev calls ≠ []).
Proof.
  intros [= <-].
  pose proof (add_event_handlers_handlers_of calls ev (mkEngine ∅ f false None)) as Hh.
  assert (Hne : entries_nonempty (add_event_handlers calls (mkEngine ∅ f false None))).
  { apply add_event_handlers_nonempty. intros k l Hl. cbn in Hl. by rewrite lookup_empty in Hl. }
  unfold handlers_of at 2 in Hh. cbn in Hh. rewrite lookup_empty in Hh. cbn in Hh.
  split; [done|]. rewrite <- Hh. unfold handlers_of. split.
  - intros [l Hl]. rewrite Hl. cbn. by eapply Hne.
  - destruct (_ !! KEvent ev); [by eexists|done].
Qed.

(** X4. [on(event_name, *args, **kwargs)] applied to [f] hands [f] itself
    back and registers it as [add_event_handler] does, at the end of the
    list of the event; for a value that is not a member of [Events] it
    raises the invalid-event error and leaves the engine as it was. *)
Theorem on_registers_and_returns_the_callable args kwargs f self :
  (∀ ev, ∃ self',
     on (VEvent ev) args kwargs f self = (self', Ok f) ∧
     self' = (add_event_handler (VEvent ev) f args kwargs self).1 ∧
     handlers_of self' ev = handlers_of self ev ++ [(f, args, kwargs)]) ∧
  (∀ event_name, (∀ e, event_name ≠ VEvent e) →
     on event_name args kwargs f self = (self, Err (invalid_event event_name))).
Proof.
  split.
  - intros ev. unfold on. rewrite add_event_handler_valid. eexists. conj; try done.
    unfold handlers_of at 1. cbn. by rewrite lookup_insert_eq.
  - intros event_name Hne. unfold on. by rewrite add_event_handler_invalid.
Qed.

(** X5. Register, then fire: after [add_event_handler] put [handler] on
    the list of [ev], a dispatch of [ev] whose handlers return normally and
    leave that list alone invokes the handlers registered before, then
    [handler], last, with the event arguments followed by its own
    positional arguments, and its keyword arguments. *)
Theorem _fire_event_after_add_event_handler ev handler args kwargs self event_args fuel t0 :
  let self' := (add_event_handler (VEvent ev) handler args kwargs self).1 in
  (∀ f a k, (f, a, k) ∈ handlers_of self ev ++ [(handler, args, kwargs)] →
     returns_normally f ∧ keeps (λ e, _event_handlers e !! KEvent ev) f) →
  length (handlers_of self ev) + 1 < fuel →
  ∃ os self'',
    _fire_event fuel ev event_args (mkSt self' t0) =
      (mkSt self'' (t0 ++ Fire ev event_args self' :: os), Ret tt) ∧
    invocations os =
      (invoked_as event_args <$> handlers_of self ev) ++
      [(handler, event_args ++ args, kwargs)].
Proof.
  intros self' Hh Hfuel.
  assert (Hl : handlers_of self' ev = handlers_of self ev ++ [(handler, args, kwargs)]).
  { unfold self'. rewrite add_event_handler_valid. unfold handlers_of at 1. cbn.
    by rewrite lookup_insert_eq. }
  rewrite _fire_event_as_dispatch; cbn [eng trace].
  2:{ rewrite Hl. intros f a k Hin. by apply (Hh f a k). }
  2:{ rewrite Hl, length_app. cbn. lia. }
  pose proof (dispatch_in_order_spec (handlers_of self' ev) event_args self') as Hspec.
  pose proof (dispatch_in_order_Ok (handlers_of self' ev) event_args self') as Hok.
  destruct (dispatch_in_order _ event_args self') as [[os self''] r]. cbn in Hok.
  assert (r = Ok tt) as ->.
  { apply Hok. rewrite Hl. intros f a k Hin. by apply (Hh f a k). }
  destruct Hspec as (Hi & _ & Hlen & _).
  exists os, self''. split; [done|].
  rewrite Hi, Hlen, firstn_all, Hl, fmap_app. done.
Qed.

(** ** Whole runs, edge cases and repeated runs *)

Lemma processes_wiring self self' b :
  wiring self = wiring self' → processes self b → processes self' b.
Proof.
  intros Hw Hp e. unfold wiring in Hw. injection Hw as _ Hpf. rewrite <- Hpf. apply Hp.
Qed.

(** A run in which nothing raises and nothing requests termination. *)
Lemma run_played_uninterrupted self data bs max_epochs :
  frame_ok self → handlers_normal self →
  py_iter data = Ok bs →
  (∀ b, b ∈ bs → processes self b) →
  (∀ f, registered self f → keeps should_terminate f) →
  should_terminate self = false →
  ∃ t e',
    run_played data max_epochs self = (t, e', Ok (state e')) ∧
    fires t = STARTED :: concat (replicate (Z.to_nat max_epochs) (epoch_events (length bs))) ++
              [COMPLETED] ∧
    processed t = concat (replicate (Z.to_nat max_epochs) bs) ∧
    caught t = [] ∧
    counting self (Z.of_nat (Z.to_nat max_epochs * length bs))
      (Z.of_nat (Z.to_nat max_epochs)) data e' ∧
    should_terminate e' = false.
Proof.
  intros Hf Hn Hd Hp Hk Hflag.
  destruct (run_normal self data bs max_epochs Hf Hn Hd Hp)
    as (m & last & t1 & e_c & os & e' & Hrun & Hfi & Hpr & Hca & (Hq & Hq' & Hq'') & _ & He' &
        Hb & Hl & Hcl).
  pose proof (flag_false_pass_stable self Hf Hk) as Hfs.
  assert (Hfc : should_terminate e_c = false) by (by apply (Hcl _ Hfs)).
  assert (Hfe : should_terminate e' = false).
  { pose proof (run_played_stable self _ data max_epochs self Hfs (conj eq_refl Hflag)) as H.
    rewrite Hrun in H. apply H. }
  destruct last as [j|]; [destruct Hl as (_ & _ & Hl); congruence|].
  destruct Hl as [Hl|Hl]; [|congruence].
  unfold epochs_count, iterations_count, epochs_events, epochs_batches in *.
  cbn [default] in *. rewrite !app_nil_r in *. rewrite !Nat.add_0_r in *.
  assert (m = Z.to_nat max_epochs) as -> by lia.
  exists (t1 ++ Fire COMPLETED [] e_c :: os), e'. autorewrite with trace.
  rewrite Hfi, Hpr, Hca, Hq, Hq', Hq''. by conj; rewrite ?app_nil_r.
Qed.

(** X6. In a run in which nothing raises and nothing requests
    termination, the process function is handed every batch of the
    dataset in order, once per epoch, between the [ITERATION_STARTED] and
    [ITERATION_COMPLETED] dispatches of its iteration: the dispatches are
    [STARTED], [max_epochs] times the events of a whole epoch, and
    [COMPLETED]; nothing is caught, and the flag is still clear at the
    end. *)
Theorem run_processes_every_batch_each_epoch data bs max_epochs s :
  py_iter data = Ok bs →
  should_terminate (eng s) = false →
  frame_ok (eng s) →
  handlers_normal (eng s) →
  (∀ b, b ∈ bs → processes (eng s) b) →
  (∀ f, registered (eng s) f → keeps should_terminate f) →
  ∃ fuel0, ∀ fuel, fuel0 ≤ fuel →
    ∃ s' st t,
      run fuel data max_epochs s = (s', Ret (Some st)) ∧
      trace s' = trace s ++ t ∧
      fires t = STARTED :: concat (replicate (Z.to_nat max_epochs) (epoch_events (length bs))) ++
                [COMPLETED] ∧
      processed t = concat (replicate (Z.to_nat max_epochs) bs) ∧
      caught t = [] ∧
      state (eng s') = Some st ∧
      should_terminate (eng s') = false.
Proof.
  intros Hd Hflag Hf Hn Hp Hk.
  exists (S (longest (eng s) + Z.to_nat max_epochs)). intros fuel Hfuel.
  rewrite run_as_played by (done || lia).
  destruct (run_played_uninterrupted (eng s) data bs max_epochs Hf Hn Hd Hp Hk Hflag)
    as (t & e' & Hrun & Hfi & Hpr & Hca & He' & Hfe).
  rewrite Hrun. unfold play. cbn [to_outcome].
  destruct He' as (_ & Hit & _).
  destruct (attr_lookup _ _ _ Hit) as (st & Hst & _).
  eexists _, st, t. rewrite Hst. by conj.
Qed.

(** X7. [run] builds a new run state each time: a second [run] on the
    engine a first one left (nothing raising, nothing requesting
    termination) counts its iterations and epochs from zero again and
    holds the dataset of the second call. *)
Theorem run_twice_restarts_the_counters data1 bs1 N1 data2 bs2 N2 s :
  py_iter data1 = Ok bs1 →
  py_iter data2 = Ok bs2 →
  should_terminate (eng s) = false →
  frame_ok (eng s) →
  handlers_normal (eng s) →
  (∀ b, b ∈ bs1 ++ bs2 → processes (eng s) b) →
  (∀ f, registered (eng s) f → keeps should_terminate f) →
  ∃ fuel0, ∀ fuel1 fuel2, fuel0 ≤ fuel1 → fuel0 ≤ fuel2 →
    ∃ s1 st1 s2 st2,
      run fuel1 data1 N1 s = (s1, Ret (Some st1)) ∧
      run fuel2 data2 N2 s1 = (s2, Ret (Some st2)) ∧
      st1 !! "iteration" = Some (VInt (Z.of_nat (Z.to_nat N1 * length bs1))) ∧
      st2 !! "iteration" = Some (VInt (Z.of_nat (Z.to_nat N2 * length bs2))) ∧
      st2 !! "epoch" = Some (VInt (Z.of_nat (Z.to_nat N2))) ∧
      st2 !! "dataloader" = Some data2.
Proof.
  intros Hd1 Hd2 Hflag Hf Hn Hp Hk.
  exists (S (longest (eng s) + Z.to_nat N1 + Z.to_nat N2)). intros fuel1 fuel2 H1 H2.
  destruct (run_played_uninterrupted (eng s) data1 bs1 N1 Hf Hn Hd1) as
    (t1 & e1 & Hrun1 & _ & _ & _ & He1 & Hfe1); try done.
  { intros b Hb. apply Hp. set_solver. }
  destruct He1 as (Hw1 & Hit1 & _).
  destruct (attr_lookup _ _ _ Hit1) as (st1 & Hst1 & Hit1').
  set (s1 := mkSt e1 (trace s ++ t1)).
  assert (Hf1 : frame_ok (eng s1)) by (by apply (frame_ok_wiring (eng s))).
  destruct (run_played_uninterrupted (eng s1) data2 bs2 N2 Hf1) as
    (t2 & e2 & Hrun2 & _ & _ & _ & He2 & _); try done.
  { by apply (handlers_normal_wiring (eng s)). }
  { intros b Hb. apply (processes_wiring (eng s)); [done|]. apply Hp. set_solver. }
  { intros f Hr. apply Hk. by apply (registered_wiring (eng s1)). }
  destruct He2 as (_ & Hit2 & Hep2 & Hdl2).
  destruct (attr_lookup _ _ _ Hit2) as (st2 & Hst2 & Hit2').
  destruct (attr_lookup _ _ _ Hep2) as (st2' & Hst2' & Hep2').
  destruct (attr_lookup _ _ _ Hdl2) as (st2'' & Hst2'' & Hdl2').
  rewrite Hst2 in Hst2', Hst2''. injection Hst2' as <-. injection Hst2'' as <-.
  exists s1, st1, (mkSt e2 (trace s1 ++ t2)), st2. conj; try done.
  - rewrite run_as_played by (done || lia). rewrite Hrun1. unfold play. cbn [to_outcome].
    by rewrite Hst1.
  - rewrite run_as_played by (done || (cbn [s1 eng]; rewrite (longest_wiring _ _ Hw1); lia)).
    rewrite Hrun2. unfold play. cbn [to_outcome]. by rewrite Hst2.
Qed.

Lemma run_played_no_epoch self data max_epochs :
  frame_ok self → handlers_normal self → (max_epochs ≤ 0)%Z →
  ∃ os1 e1 os2 e2,
    run_played data max_epochs self =
      (Fire STARTED [] (set_state (Some (fresh_state data max_epochs)) self) :: os1 ++
       Fire COMPLETED [] e1 :: os2, e2, Ok (state e2)) ∧
    (fires os1 = [] ∧ processed os1 = [] ∧ caught os1 = []) ∧
    (fires os2 = [] ∧ processed os2 = [] ∧ caught os2 = []) ∧
    counting self 0 0 data e2.
Proof.
  intros Hf Hn HN. unfold run_played, run_body_played.
  pose proof (counting_call_stable self 0 0 data Hf) as HP.
  destruct (dispatch_normal_eq self _ STARTED []
              (set_state (Some (fresh_state data max_epochs)) self) Hn HP
              (counting_fresh self data max_epochs))
    as (os1 & e1 & Hd1 & Hq1 & Hq1' & Hq1'' & He1).
  rewrite Hd1. cbn [and_then].
  assert (Hep : epochs_played (Z.to_nat max_epochs) max_epochs e1 = ([], e1, Ok tt)).
  { replace (Z.to_nat max_epochs) with 0 by lia. cbn [epochs_played]. by destruct (_ && _). }
  rewrite Hep. cbn [and_then].
  destruct (dispatch_normal_eq self _ COMPLETED [] e1 Hn HP He1)
    as (os2 & e2 & Hd2 & Hq2 & Hq2' & Hq2'' & He2).
  rewrite Hd2. by exists os1, e1, os2, e2.
Qed.

(** X8. With [max_epochs] zero or negative, [run] starts no epoch: it
    dispatches [STARTED] and [COMPLETED] only, never iterates the dataset
    (which need not even be iterable), processes no batch and returns the
    new run state with [epoch = 0] and [iteration = 0]. *)
Theorem run_without_epochs data max_epochs s :
  (max_epochs ≤ 0)%Z →
  frame_ok (eng s) →
  handlers_normal (eng s) →
  ∃ fuel0, ∀ fuel, fuel0 ≤ fuel →
    ∃ s' st t,
      run fuel data max_epochs s = (s', Ret (Some st)) ∧
      trace s' = trace s ++ t ∧
      fires t = [STARTED; COMPLETED] ∧
      processed t = [] ∧
      caught t = [] ∧
      st !! "epoch" = Some (VInt 0) ∧
      st !! "iteration" = Some (VInt 0) ∧
      st !! "dataloader" = Some data.
Proof.
  intros HN Hf Hn. exists (S (longest (eng s))). intros fuel Hfuel.
  rewrite run_as_played by (done || lia).
  destruct (run_played_no_epoch (eng s) data max_epochs Hf Hn HN)
    as (os1 & e1 & os2 & e2 & Hrun & (Hq1 & Hq1' & Hq1'') & (Hq2 & Hq2' & Hq2'') & He2).
  rewrite Hrun. unfold play. cbn [to_outcome].
  destruct He2 as (_ & Hit & Hep & Hdl).
  destruct (attr_lookup _ _ _ Hit) as (st & Hst & Hit').
  destruct (attr_lookup _ _ _ Hep) as (st' & Hst' & Hep').
  destruct (attr_lookup _ _ _ Hdl) as (st'' & Hst'' & Hdl').
  rewrite Hst in Hst', Hst''. injection Hst' as <-. injection Hst'' as <-.
  eexists _, st, _. rewrite Hst. split; [done|]. split; [done|].
  autorewrite with trace. by rewrite Hq1, Hq1', Hq1'', Hq2, Hq2', Hq2''.
Qed.

(** X9. The dataset is first iterated inside [_run_once_on_dataset]: when
    it is not iterable, at least one epoch is asked for and the handler
    table has no entry for [EXCEPTION_RAISED], [run] dispatches [STARTED]
    and [EPOCH_STARTED], processes no batch, logs the iteration error in
    [_run_once_on_dataset] and again in [run], and raises it. *)
Theorem run_on_a_dataset_that_is_not_iterable data x max_epochs s :
  py_iter data = Err x →
  (1 ≤ max_epochs)%Z →
  should_terminate (eng s) = false →
  frame_ok (eng s) →
  handlers_normal (eng s) →
  (∀ f, registered (eng s) f → keeps should_terminate f) →
  _event_handlers (eng s) !! KEvent EXCEPTION_RAISED = None →
  ∃ fuel0, ∀ fuel, fuel0 ≤ fuel →
    ∃ s' t,
      run fuel data max_epochs s = (s', Raise x) ∧
      trace s' = trace s ++ t ∧
      fires t = [STARTED; EPOCH_STARTED] ∧
      processed t = [] ∧
      caught t = [x; x].
Proof.
  intros Hd HN Hflag Hf Hn Hk Hnone.
  exists (S (longest (eng s) + Z.to_nat max_epochs)). intros fuel Hfuel.
  rewrite run_as_played by (done || lia).
  set (self0 := eng s) in *.
  pose proof (flag_false_pass_stable self0 Hf Hk) as Hfs.
  set (F := λ e, wiring e = wiring self0 ∧ should_terminate e = false) in Hfs.
  pose proof (counting_fresh self0 data max_epochs) as He0.
  set (e0 := set_state _ self0) in He0.
  destruct (dispatch_normal_eq self0 _ STARTED [] e0 Hn
              (counting_call_stable self0 0 0 data Hf) He0)
    as (os0 & e1 & Hd0 & Hq0 & Hq0' & Hq0'' & He1).
  assert (HF1 : F e1).
  { pose proof (dispatch_stable self0 F STARTED [] e0 (proj1 Hfs) (conj eq_refl Hflag)) as H.
    by rewrite Hd0 in H. }
  set (e1' := set_attr "epoch" (VInt (0 + 1)) e1).
  assert (He1' : counting self0 0 1 data e1') by (by apply (counting_set_epoch _ _ 0)).
  destruct (dispatch_normal_eq self0 _ EPOCH_STARTED [] e1' Hn
              (counting_call_stable self0 0 1 data Hf) He1')
    as (os1 & e2 & Hd1 & Hq1 & Hq1' & Hq1'' & He2).
  assert (Hw2 : _event_handlers e2 = _event_handlers self0).
  { destruct He2 as (Hw & _). unfold wiring in Hw. congruence. }
  assert (Hdl : attr "dataloader" e2 = Some data) by (by destruct He2 as (_ & _ & _ & ?)).
  unfold run_played, run_body_played. fold e0. rewrite Hd0. cbn [and_then].
  destruct (Z.to_nat max_epochs) as [|n] eqn:HNn; [lia|]. cbn [epochs_played].
  replace (int_attr "epoch" e1) with 0%Z by (by destruct (counting_int_attr _ _ _ _ _ He1)).
  rewrite (proj2 HF1), (proj2 (Z.ltb_lt 0 max_epochs)) by lia. cbn [andb negb].
  fold e1'. rewrite Hd1. cbn [and_then].
  unfold once_on_dataset_played. rewrite Hdl.
  change (default VNone (Some data)) with data. rewrite Hd. cbn [and_then].
  unfold handle_exception_played. rewrite Hw2, Hnone.
  rewrite decide_False by (by intros [? ?]). cbn [and_then].
  rewrite Hw2, Hnone. rewrite decide_False by (by intros [? ?]).
  unfold play. cbn [to_outcome].
  eexists _, _. split; [done|]. split; [done|].
  autorewrite with trace. by rewrite Hq0, Hq0', Hq0'', Hq1, Hq1', Hq1''.
Qed.

(** ** One pass, one iteration *)

Lemma counting_here it ep data self :
  attr "iteration" self = Some (VInt it) →
  attr "epoch" self = Some (VInt ep) →
  attr "dataloader" self = Some data →
  counting self it ep data self.
Proof. by intros; split. Qed.

(** X10. How [_run_once_on_dataset] ends, on an engine whose callables
    keep to the frame and whose [EXCEPTION_RAISED] handlers return
    normally: it returns the time tuple and caught nothing; or it caught
    one exception, the table has no entry for [EXCEPTION_RAISED] and it
    raises that exception; or it caught one exception, invoked every
    [EXCEPTION_RAISED] handler with it and returns [None], not a time
    tuple. *)
Theorem _run_once_on_dataset_ends_in_one_of_three_ways it ep data fuel s :
  frame_ok (eng s) →
  exception_handlers_normal (eng s) →
  attr "iteration" (eng s) = Some (VInt it) →
  attr "epoch" (eng s) = Some (VInt ep) →
  attr "dataloader" (eng s) = Some data →
  longest (eng s) < fuel →
  ∃ s' t (r : result (option (Z * Z * Z))),
    _run_once_on_dataset fuel s = (s', to_outcome r) ∧
    trace s' = trace s ++ t ∧
    ((caught t = [] ∧ r = Ok (Some hms)) ∨
     (∃ x, caught t = [x] ∧ ¬ exception_handled (eng s) ∧ r = Err x) ∨
     (∃ x, caught t = [x] ∧ exception_handled (eng s) ∧ r = Ok None ∧ informed (eng s) x t)).
Proof.
  intros Hf Hn Hit Hep Hdl Hfuel.
  rewrite (_run_once_on_dataset_played (eng s) data Hf ep fuel s)
    by (done || apply (counting_steady _ it), counting_here; done).
  pose proof (once_on_dataset_outcome (eng s) data ep (eng s) Hf Hn
                (counting_steady _ it _ _ _ (counting_here it ep data (eng s) Hit Hep Hdl)))
    as Hout.
  assert (Hhms : ∀ v, (once_on_dataset_played (eng s)).2 = Ok (Some v) → v = hms).
  { unfold once_on_dataset_played.
    destruct (match py_iter _ with Ok _ => _ | Err _ => _ end) as [[t0 e0] [[]|x]]; cbn.
    - by intros v [= <-].
    - destruct (handle_exception_played x e0) as [[t1 e1] [[]|y]]; by cbn. }
  destruct (once_on_dataset_played (eng s)) as [[t e'] r]. cbn in Hout, Hhms |- *.
  exists (mkSt e' (trace s ++ t)), t, r. split; [done|]. split; [done|].
  destruct Hout as [[[Hc _] [v ->]]|[(x & Hc & _ & Hno & ->)|(x & Hc & _ & Hyes & -> & Hi)]].
  - left. by rewrite (Hhms v eq_refl).
  - right. left. by exists x.
  - right. right. by exists x.
Qed.

(** X11. A termination request takes effect when an iteration ends, not
    before: a pass entered with the flag already set (and never cleared)
    still runs its first iteration in full, with [ITERATION_STARTED], the
    process function and [ITERATION_COMPLETED], and only then stops,
    returning the time tuple. *)
Theorem _run_once_on_dataset_with_the_flag_set it ep data b rest fuel s :
  frame_ok (eng s) →
  never_cleared (eng s) →
  handlers_normal (eng s) →
  processes (eng s) b →
  attr "iteration" (eng s) = Some (VInt it) →
  attr "epoch" (eng s) = Some (VInt ep) →
  attr "dataloader" (eng s) = Some data →
  py_iter data = Ok (b :: rest) →
  should_terminate (eng s) = true →
  longest (eng s) < fuel →
  ∃ s' t,
    _run_once_on_dataset fuel s = (s', Ret (Some hms)) ∧
    trace s' = trace s ++ t ∧
    fires t = [ITERATION_STARTED; ITERATION_COMPLETED] ∧
    processed t = [b] ∧
    attr "iteration" (eng s') = Some (VInt (it + 1)) ∧
    should_terminate (eng s') = true.
Proof.
  intros Hf Hnc Hn Hp Hit Hep Hdl Hd Hflag Hfuel.
  pose proof (counting_here it ep data (eng s) Hit Hep Hdl) as Hc.
  rewrite (_run_once_on_dataset_played (eng s) data Hf ep fuel s)
    by (done || by apply (counting_steady _ it)).
  unfold once_on_dataset_played. rewrite Hdl.
  change (default VNone (Some data)) with data. rewrite Hd. cbn [batches_played].
  destruct (iteration_normal (eng s) data it ep b (eng s) Hf Hn Hp Hc)
    as (os1 & e2 & v & e3 & os2 & e5 & _ & _ & _ & Hiter & (Hq1 & Hq1' & _) &
        (Hq2 & Hq2' & _) & _ & _ & He5).
  assert (Hfl : should_terminate e5 = true).
  { pose proof (iteration_stable (eng s) _ b (eng s)
                  (run_stable_pass_stable _ _
                     (flag_run_stable (eng s) (λ fl, fl = true) Hf
                        (λ f e a k Hr He, Hnc f e a k Hr He)))
                  (conj eq_refl Hflag)) as H.
    rewrite Hiter in H. apply H. }
  rewrite Hiter. cbn [and_then]. rewrite Hfl. unfold play. cbn [to_outcome].
  eexists _, _. split; [done|]. split; [done|]. cbn [eng].
  autorewrite with trace. rewrite Hq1, Hq1', Hq2, Hq2'. conj; try done.
  by destruct He5 as (_ & ? & _).
Qed.

(** X12. What the callables of an iteration see, when none of them
    raises: the [ITERATION_STARTED] handlers get the engine with the new
    batch in [state.batch] and the iteration counter already incremented;
    the process function is then called with that batch; its return value
    is in [state.output] when [ITERATION_COMPLETED] is dispatched. *)
Theorem _run_iteration_shows_batch_then_output it ep data b fuel s :
  frame_ok (eng s) →
  handlers_normal (eng s) →
  processes (eng s) b →
  attr "iteration" (eng s) = Some (VInt it) →
  attr "epoch" (eng s) = Some (VInt ep) →
  attr "dataloader" (eng s) = Some data →
  longest (eng s) < fuel →
  ∃ s' e1 os1 e2 v e3 e4 os2,
    _run_iteration fuel b s = (s', Ret tt) ∧
    trace s' = trace s ++ Fire ITERATION_STARTED [] e1 :: os1 ++
               [Processed (_process_function (eng s)) e2 b e3 (Ok v)] ++
               Fire ITERATION_COMPLETED [] e4 :: os2 ∧
    (fires os1 = [] ∧ processed os1 = []) ∧
    (fires os2 = [] ∧ processed os2 = []) ∧
    (attr "batch" e1 = Some b ∧ attr "iteration" e1 = Some (VInt (it + 1))) ∧
    attr "iteration" e2 = Some (VInt (it + 1)) ∧
    (attr "output" e4 = Some v ∧ attr "iteration" e4 = Some (VInt (it + 1))) ∧
    attr "iteration" (eng s') = Some (VInt (it + 1)).
Proof.
  intros Hf Hn Hp Hit Hep Hdl Hfuel.
  pose proof (counting_here it ep data (eng s) Hit Hep Hdl) as Hc.
  rewrite (_run_iteration_played (eng s) data Hf ep fuel b s)
    by (done || by apply (counting_steady _ it)).
  destruct (iteration_normal (eng s) data it ep b (eng s) Hf Hn Hp Hc)
    as (os1 & e2 & v & e3 & os2 & e5 & _ & _ & _ & Hiter & (Hq1 & Hq1' & _) &
        (Hq2 & Hq2' & _) & He2 & He3 & He5).
  rewrite Hiter. unfold play. cbn [to_outcome].
  eexists _, _, os1, e2, v, e3, _, os2. split; [done|]. split; [done|]. cbn [eng].
  conj; try done.
  - rewrite attr_set_attr_ne by done. by rewrite attr_set_attr_eq.
  - by rewrite attr_set_attr_eq.
  - by destruct He2 as (_ & ? & _).
  - by rewrite attr_set_attr_eq.
  - rewrite attr_set_attr_ne by done. by destruct He3 as (_ & ? & _).
  - by destruct He5 as (_ & ? & _).
Qed.

(** X13. When the first [ITERATION_STARTED] handler raises, the iteration
    ends there: the batch has been stored and counted, but the process
    function is not called on it, no further handler is invoked and
    [ITERATION_COMPLETED] is not dispatched. *)
Theorem _run_iteration_skips_the_batch_when_a_handler_raises
    it ep data b h a k rest x fuel s :
  frame_ok (eng s) →
  handlers_of (eng s) ITERATION_STARTED = (h, a, k) :: rest →
  (∀ e args kwargs, (call h e args kwargs).2 = Err x) →
  attr "iteration" (eng s) = Some (VInt it) →
  attr "epoch" (eng s) = Some (VInt ep) →
  attr "dataloader" (eng s) = Some data →
  longest (eng s) < fuel →
  ∃ s' e1 e',
    _run_iteration fuel b s = (s', Raise x) ∧
    trace s' = trace s ++ [Fire ITERATION_STARTED [] e1; Handled h e1 a k e' (Err x)] ∧
    attr "batch" e1 = Some b ∧
    attr "iteration" e1 = Some (VInt (it + 1)) ∧
    processed (trace s') = processed (trace s).
Proof.
  intros Hf Hh Hx Hit Hep Hdl Hfuel.
  pose proof (counting_here it ep data (eng s) Hit Hep Hdl) as Hc.
  rewrite (_run_iteration_played (eng s) data Hf ep fuel b s)
    by (done || by apply (counting_steady _ it)).
  unfold iteration_played. rewrite (int_attr_Some _ _ _ Hit).
  set (e1 := set_attr "iteration" _ _).
  unfold dispatch. rewrite (handlers_of_wiring e1 (eng s) ITERATION_STARTED eq_refl), Hh.
  cbn [dispatch_in_order]. specialize (Hx e1 ([] ++ a) k).
  destruct (call h e1 ([] ++ a) k) as [e' r]. cbn in Hx. subst r. cbn [and_then].
  unfold play. cbn [to_outcome].
  exists (mkSt e' (trace s ++ [Fire ITERATION_STARTED [] e1; Handled h e1 ([] ++ a) k e' (Err x)])),
    e1, e'.
  conj; try done.
  - unfold e1. rewrite attr_set_attr_ne by done. by rewrite attr_set_attr_eq.
  - unfold e1. by rewrite attr_set_attr_eq.
  - cbn [trace]. autorewrite with trace. by rewrite app_nil_r.
Qed.

(** X14. The dispatch loop walks the handler list as the engine holds it
    at each step: when the only handler of [ev] registers a further
    handler for [ev] while it runs, that handler is invoked in the same
    dispatch, after it. *)
Theorem _fire_event_visits_a_registration_made_meanwhile
    ev h a k g ga gk event_args fuel s :
  handlers_of (eng s) ev = [(h, a, k)] →
  (∀ e args kwargs,
     call h e args kwargs = ((add_event_handler (VEvent ev) g ga gk e).1, Ok VNone)) →
  (∀ e args kwargs, (call g e args kwargs).1 = e ∧ ∃ v, (call g e args kwargs).2 = Ok v) →
  3 ≤ fuel →
  ∃ s' os,
    _fire_event fuel ev event_args s = (s', Ret tt) ∧
    trace s' = trace s ++ Fire ev event_args (eng s) :: os ∧
    invocations os = [(h, event_args ++ a, k); (g, event_args ++ ga, gk)] ∧
    handlers_of (eng s') ev = [(h, a, k); (g, ga, gk)].
Proof.
  intros Hh Hch Hcg Hfuel.
  destruct fuel as [|[|[|fuel]]]; try lia.
  assert (Hsome : is_Some (_event_handlers (eng s) !! KEvent ev)).
  { unfold handlers_of in Hh. destruct (_ !! KEvent ev); [by eexists|done]. }
  unfold _fire_event, bind at 1 2, get_self at 1, emit. cbn [eng trace].
  rewrite decide_True by done.
  rewrite _fire_event_loop_S. cbn [eng trace]. rewrite Hh. cbn [lookup list_lookup].
  rewrite Hch, add_event_handler_valid. cbn [fst].
  set (e1 := set_event_handlers _ (eng s)).
  assert (Hh1 : handlers_of e1 ev = [(h, a, k); (g, ga, gk)]).
  { unfold handlers_of at 1. unfold e1. cbn [_event_handlers set_event_handlers].
    rewrite lookup_insert_eq. cbn [default]. by rewrite Hh. }
  rewrite _fire_event_loop_S. cbn [eng trace]. rewrite Hh1. cbn [lookup list_lookup].
  destruct (Hcg e1 (event_args ++ ga) gk) as [Hg1 [v Hg2]].
  destruct (call g e1 (event_args ++ ga) gk) as [e2 r]. cbn in Hg1, Hg2. subst e2 r.
  rewrite _fire_event_loop_S. cbn [eng trace]. rewrite Hh1. cbn [lookup list_lookup].
  eexists _, _. split; [done|]. cbn [eng trace]. rewrite <- !app_assoc. cbn [app].
  split; [done|]. split; [|done]. by autorewrite with trace.
Qed.

End Engine.

(** ** The sample callables meet the assumptions *)

Lemma sample_keeps_wiring f : keeps sample_call wiring f.
Proof.
  intros self args kwargs. unfold sample_call.
  destruct f as [|[|[|[|f]]]]; try done.
  - destruct args as [|[] []]; try done. by destruct (_ =? _)%Z.
  - by destruct (_ =? _)%Z.
Qed.

Lemma sample_keeps_progress f : keeps sample_call progress f.
Proof.
  intros self args kwargs. unfold sample_call.
  destruct f as [|[|[|[|f]]]]; try done.
  - destruct args as [|[] []]; try done. by destruct (_ =? _)%Z.
  - by destruct (_ =? _)%Z.
Qed.

Lemma sample_keeps_table f : keeps sample_call _event_handlers f.
Proof.
  intros self args kwargs. pose proof (sample_keeps_wiring f self args kwargs) as H.
  unfold wiring in H. congruence.
Qed.

Lemma sample_frame_ok self : frame_ok sample_call self.
Proof. intros f _. split; [apply sample_keeps_wiring|apply sample_keeps_progress]. Qed.

Lemma sample_never_cleared self : never_cleared sample_call self.
Proof.
  intros f e a k _ He. unfold sample_call.
  destruct f as [|[|[|[|f]]]]; try done.
  - destruct a as [|[] []]; try done. by destruct (_ =? _)%Z.
  - by destruct (_ =? _)%Z.
Qed.

Lemma sample_returns_normally f : f ≠ 1 → f ≠ 3 → returns_normally sample_call f.
Proof.
  intros H1 H3 self args kwargs. unfold sample_call.
  destruct f as [|[|[|[|f]]]]; try done; by eexists.
Qed.

Lemma sample_keeps_flag f : f ≠ 2 → keeps sample_call should_terminate f.
Proof.
  intros H2 self args kwargs. unfold sample_call.
  destruct f as [|[|[|[|f]]]]; try done.
  destruct args as [|[] []]; try done. by destruct (_ =? _)%Z.
Qed.

Lemma sample_processes self0 b : _process_function self0 = 0 → processes sample_call self0 b.
Proof. intros Hpf self. rewrite Hpf. by eexists. Qed.

(** The registrations of an engine whose table has the single entry
    [ev0 ↦ regs]. *)
Lemma handlers_of_single ev0 regs pf flag st ev f a k :
  (f, a, k) ∈ handlers_of (mkEngine {[ KEvent ev0 := regs ]} pf flag st) ev →
  ev = ev0 ∧ (f, a, k) ∈ regs.
Proof.
  unfold handlers_of. cbn. destruct (decide (ev = ev0)) as [->|Hne].
  - by rewrite lookup_singleton_eq.
  - rewrite lookup_singleton_ne by congruence. cbn. by intros ?%elem_of_nil.
Qed.

Lemma registered_single ev0 regs pf flag st f :
  registered (mkEngine {[ KEvent ev0 := regs ]} pf flag st) f →
  f = pf ∨ ∃ a k, (f, a, k) ∈ regs.
Proof.
  intros [->|(key & l & a & k & Hl & Hin)]; [by left|right]. cbn in Hl.
  apply lookup_singleton_Some in Hl as [_ <-]. by exists a, k.
Qed.

Lemma registered_plain pf flag st f : registered (mkEngine ∅ pf flag st) f → f = pf.
Proof.
  intros [->|(key & l & a & k & Hl & Hin)]; [done|]. cbn in Hl.
  by rewrite lookup_empty in Hl.
Qed.

Lemma handlers_of_plain pf flag st ev : handlers_of (mkEngine ∅ pf flag st) ev = [].
Proof. unfold handlers_of. cbn. by rewrite lookup_empty. Qed.

Lemma plain_handlers_normal pf flag st : handlers_normal sample_call (mkEngine ∅ pf flag st).
Proof. intros ev f a k H. rewrite handlers_of_plain in H. by apply elem_of_nil in H. Qed.

(** ** The theorems at the samples *)

(** Three epochs over two batches with the plain engine: six iterations. *)
Lemma run_counts_iterations_and_epochs_witness :
  ∃ fuel0, ∀ fuel, fuel0 ≤ fuel →
    ∃ s' st,
      run sample_call sample_hms fuel two_batches 3 (mkSt plain_engine []) = (s', Ret (Some st)) ∧
      st !! "iteration" = Some (VInt 6) ∧
      st !! "epoch" = Some (VInt 3).
Proof.
  apply (run_counts_iterations_and_epochs sample_call sample_hms two_batches
           [VInt 1; VInt 2] 3 (mkSt plain_engine [])).
  - lia.
  - reflexivity.
  - reflexivity.
  - apply sample_frame_ok.
  - apply plain_handlers_normal.
  - intros b _. by apply sample_processes.
  - intros f ->%registered_plain. by apply sample_keeps_flag.
Defined.

(** The dispatches of three epochs over two batches with the plain engine. *)
Lemma run_dispatches_epoch_events_in_order_witness :
  ∃ fuel0, ∀ fuel, fuel0 ≤ fuel →
    ∃ s' st m last t1 e_c os,
      run sample_call sample_hms fuel two_batches 3 (mkSt plain_engine []) = (s', Ret st) ∧
      trace s' = [] ++ t1 ++ Fire COMPLETED [] e_c :: os ∧
      fires t1 = STARTED :: epochs_events 2 m last ∧
      fires os = [] ∧
      (epochs_count m last = 0 ∨ (Z.of_nat (epochs_count m last) ≤ 3)%Z) ∧
      match last with
      | Some j => j ≤ 2 ∧ ([VInt 1; VInt 2] ≠ [] → 0 < j) ∧ should_terminate e_c = true
      | None => (3 ≤ Z.of_nat m)%Z ∨ should_terminate e_c = true
      end.
Proof.
  apply (run_dispatches_epoch_events_in_order sample_call sample_hms two_batches
           [VInt 1; VInt 2] 3 (mkSt plain_engine [])).
  - reflexivity.
  - apply sample_frame_ok.
  - apply plain_handlers_normal.
  - intros b _. by apply sample_processes.
Defined.

(** A dispatch of [ITERATION_STARTED] to the two handlers of the listening engine. *)
Lemma _fire_event_in_registration_order_witness :
  ∃ os self' r,
    _fire_event sample_call 3 ITERATION_STARTED [VInt 7] (mkSt listening_engine []) =
      (mkSt self' ([] ++ Fire ITERATION_STARTED [VInt 7] listening_engine :: os), to_outcome r) ∧
    dispatch_in_order sample_call (handlers_of listening_engine ITERATION_STARTED) [VInt 7]
      listening_engine = (os, self', r) ∧
    (handlers_of listening_engine ITERATION_STARTED = [] →
       os = [] ∧ self' = listening_engine ∧ r = Ok tt) ∧
    invocations os =
      invoked_as [VInt 7] <$> take (length os) (handlers_of listening_engine ITERATION_STARTED) ∧
    threaded sample_call listening_engine os self' ∧
    match r with
    | Ok _ => length os = length (handlers_of listening_engine ITERATION_STARTED) ∧
              Forall is_Ok (handler_results os)
    | Err x => ∃ rs, Forall is_Ok rs ∧ handler_results os = rs ++ [Err x]
    end.
Proof.
  apply (_fire_event_in_registration_order sample_call ITERATION_STARTED [VInt 7] 3
           (mkSt listening_engine [])).
  - intros f a k _ self args kwargs. cbn. f_equal. apply sample_keeps_table.
  - vm_compute. lia.
Defined.

(** The string [epoch_started] is not a member of [Events]. *)
Lemma add_event_handler_rejects_invalid_event_witness :
  add_event_handler sample_str (VStr "epoch_started") 4 [] [] plain_engine =
    (plain_engine, Err (invalid_event sample_str (VStr "epoch_started"))).
Proof.
  apply (add_event_handler_rejects_invalid_event sample_str (VStr "epoch_started") 4 [] []
           plain_engine).
  intros e. discriminate.
Defined.

Lemma terminating_handlers_normal : handlers_normal sample_call terminating_engine.
Proof.
  intros ev f a k [_ Hin]%handlers_of_single.
  apply list_elem_of_singleton in Hin as [= -> _ _]. by apply sample_returns_normally.
Qed.

Lemma guarded_handlers_normal : handlers_normal sample_call guarded_engine.
Proof.
  intros ev f a k [_ Hin]%handlers_of_single.
  apply list_elem_of_singleton in Hin as [= -> _ _]. by apply sample_returns_normally.
Qed.

(** Two runs in a row of the engine whose handler requests termination. *)
Lemma run_leaves_should_terminate_as_found_witness :
  ∃ fuel0, ∀ fuel1 fuel2, fuel0 ≤ fuel1 → fuel0 ≤ fuel2 →
    let s1 := (run sample_call sample_hms fuel1 two_batches 2 (mkSt terminating_engine [])).1 in
    ((∀ f, registered terminating_engine f → keeps sample_call should_terminate f) →
       should_terminate (eng s1) = should_terminate terminating_engine) ∧
    ∀ t1, trace s1 = [] ++ t1 →
      should_terminate terminating_engine = true ∨ Exists requested t1 →
      should_terminate (eng s1) = true ∧
      ∃ s2 st t2,
        run sample_call sample_hms fuel2 two_batches 2 s1 = (s2, Ret (Some st)) ∧
        trace s2 = trace s1 ++ t2 ∧
        fires t2 = [STARTED; COMPLETED] ∧
        processed t2 = [] ∧
        st !! "epoch" = Some (VInt 0) ∧
        st !! "iteration" = Some (VInt 0).
Proof.
  apply (run_leaves_should_terminate_as_found sample_call sample_hms two_batches 2
           two_batches 2 (mkSt terminating_engine [])).
  - apply sample_frame_ok.
  - apply sample_never_cleared.
  - apply terminating_handlers_normal.
Defined.

(** A state built with [iteration = 5] and a new attribute [lr]. *)
Lemma State_init_applies_kwargs_witness :
  (∀ k v, (k, v) ∈ [("iteration", VInt 5); ("lr", VInt 1)] →
     State_init [("iteration", VInt 5); ("lr", VInt 1)] !! k = Some v) ∧
  (∀ k, k ∉ [("iteration", VInt 5); ("lr", VInt 1)].*1 →
     State_init [("iteration", VInt 5); ("lr", VInt 1)] !! k =
       ({[ "iteration" := VInt 0; "output" := VNone; "batch" := VNone ]} : State) !! k) ∧
  ∀ fuel data max_epochs s,
    ∃ self0 st rest,
      trace (run sample_call sample_hms fuel data max_epochs s).1 =
        trace s ++ Fire STARTED [] self0 :: rest ∧
      state self0 = Some st ∧
      st = State_init [("dataloader", data); ("epoch", VInt 0);
                       ("max_epochs", VInt max_epochs); ("metrics", VDict [])] ∧
      st !! "dataloader" = Some data ∧
      st !! "epoch" = Some (VInt 0) ∧
      st !! "max_epochs" = Some (VInt max_epochs) ∧
      st !! "metrics" = Some (VDict []) ∧
      st !! "iteration" = Some (VInt 0) ∧
      st !! "output" = Some VNone ∧
      st !! "batch" = Some VNone.
Proof.
  apply (State_init_applies_kwargs sample_call sample_hms
           [("iteration", VInt 5); ("lr", VInt 1)]).
  cbn. apply NoDup_cons. split; [|apply NoDup_singleton].
  intros H%list_elem_of_singleton. discriminate.
Defined.

(** Termination requested at iteration [1] of the second epoch, the third iteration of the run. *)
Lemma terminate_in_iteration_completed_ends_the_run_witness :
  ∃ fuel0, ∀ fuel, fuel0 ≤ fuel →
    ∃ s' st t,
      run sample_call sample_hms fuel two_batches 2 (mkSt terminating_engine []) =
        (s', Ret (Some st)) ∧
      trace s' = [] ++ t ∧
      fires t = STARTED :: epochs_events 2 1 (Some 1) ++ [COMPLETED] ∧
      processed t = epochs_batches [VInt 1; VInt 2] 1 (Some 1) ∧
      st !! "epoch" = Some (VInt 2) ∧
      st !! "iteration" = Some (VInt 3).
Proof.
  apply (terminate_in_iteration_completed_ends_the_run sample_call sample_hms two_batches
           [VInt 1; VInt 2] 2 1 1 2 (mkSt terminating_engine [])).
  - reflexivity.
  - reflexivity.
  - apply sample_frame_ok.
  - apply terminating_handlers_normal.
  - intros b _. by apply sample_processes.
  - cbn. lia.
  - lia.
  - split; [|split].
    + exists [], []. vm_compute. apply list_elem_of_here.
    + by intros ev a kw [-> _]%handlers_of_single.
    + discriminate.
  - intros self args kwargs. cbn. by destruct (_ =? _)%Z, (should_terminate self).
  - intros f [->|(a & k & Hin)]%registered_single Hne.
    + by apply sample_keeps_flag.
    + apply list_elem_of_singleton in Hin as [= -> _ _]. done.
Defined.

(** The process function raising on the second batch, with a quiet [EXCEPTION_RAISED] handler. *)
Lemma process_raising_on_second_batch_witness :
  ∃ fuel0, ∀ fuel, fuel0 ≤ fuel →
    (_event_handlers guarded_engine !! KEvent EXCEPTION_RAISED = None →
       (run sample_call sample_hms fuel two_batches 1 (mkSt guarded_engine [])).2 =
         Raise (ValueError "x")) ∧
    (is_Some (_event_handlers guarded_engine !! KEvent EXCEPTION_RAISED) →
       ∃ s' st t,
         run sample_call sample_hms fuel two_batches 1 (mkSt guarded_engine []) =
           (s', Ret (Some st)) ∧
         trace s' = [] ++ t ∧
         st !! "iteration" = Some (VInt 2) ∧
         Forall (λ reg, invoked_as [VExc (ValueError "x")] reg ∈ invocations t)
           (handlers_of guarded_engine EXCEPTION_RAISED) ∧
         processed t = [VInt 1; VInt 2] ∧
         fires t = [STARTED; EPOCH_STARTED; ITERATION_STARTED; ITERATION_COMPLETED;
                    ITERATION_STARTED; EXCEPTION_RAISED; EXCEPTION_RAISED]).
Proof.
  apply (process_raising_on_second_batch sample_str sample_call sample_hms two_batches
           (VInt 1) (VInt 2) [] 1 (mkSt guarded_engine [])).
  - reflexivity.
  - lia.
  - reflexivity.
  - apply sample_frame_ok.
  - apply guarded_handlers_normal.
  - intros f [->|(a & k & Hin)]%registered_single.
    + by apply sample_keeps_flag.
    + apply list_elem_of_singleton in Hin as [= -> _ _]. by apply sample_keeps_flag.
  - intros self. by eexists.
  - reflexivity.
Defined.

(** The same run, read as the routing of its first exception. *)
Lemma run_routes_the_first_exception_witness :
  ∃ fuel0, ∀ fuel, fuel0 ≤ fuel →
    ∃ s' t st (r : result (option State)),
      run sample_call sample_hms fuel two_batches 1 (mkSt guarded_engine []) =
        (s', to_outcome r) ∧
      trace s' = [] ++ t ∧
      state (eng s') = Some st ∧
      match head (caught t) with
      | None => raised t = [] ∧ r = Ok (Some st)
      | Some x =>
          (raised t = [x] ∨ (raised t = [] ∧ py_iter two_batches = Err x)) ∧
          (exception_handled guarded_engine →
             r = Ok (Some st) ∧ informed guarded_engine x t) ∧
          (¬ exception_handled guarded_engine → r = Err x)
      end.
Proof.
  apply (run_routes_the_first_exception sample_call sample_hms two_batches 1
           (mkSt guarded_engine [])).
  - apply sample_frame_ok.
  - intros f a k Hin. by apply (guarded_handlers_normal EXCEPTION_RAISED f a k).
Defined.

(** The counters of a run of three epochs cut short by a termination request. *)
Lemma counters_and_table_keys_invariant_witness :
  (∃ fuel0, ∀ fuel, fuel0 ≤ fuel →
     ∃ s' t (r : result (option State)) (n c j : nat),
       run sample_call sample_hms fuel two_batches 3 (mkSt terminating_engine []) =
         (s', to_outcome r) ∧
       trace s' = [] ++ t ∧
       iterations_started t = Z.of_nat <$> seq 1 n ∧
       int_attr "iteration" (eng s') = Z.of_nat n ∧
       StronglySorted Z.le (int_attr "iteration" <$> snapshots t ++ [eng s']) ∧
       Forall (λ e, (int_attr "epoch" e ≤ Z.max 0 3)%Z) (snapshots t ++ [eng s']) ∧
       n = c * length (batches_of two_batches) + j ∧
       j ≤ length (batches_of two_batches) ∧
       iterated t = concat (replicate c (batches_of two_batches)) ++
                    take j (batches_of two_batches) ∧
       dispatches EPOCH_COMPLETED t ≤ c ∧
       c ≤ dispatches EPOCH_STARTED t ∧
       (0 < j → c < dispatches EPOCH_STARTED t) ∧
       (processed t = iterated t ∨ ∃ b, iterated t = processed t ++ [b])) ∧
  ∀ f calls self,
    Engine_init (Some f) = Ok self →
    table_keys_valid (add_event_handlers sample_str calls self).
Proof.
  apply (counters_and_table_keys_invariant sample_str sample_call sample_hms two_batches 3
           (mkSt terminating_engine [])).
  apply sample_frame_ok.
Defined.

(** C2 without the assumption on the [EXCEPTION_RAISED] handlers: with the
    raising handler [3] registered for [EXCEPTION_RAISED], the
    [ValueError] of the process function is followed by the handler's own
    [RuntimeError], and that is what [run] raises. It neither returns the
    run state nor raises the original error. *)
Lemma run_raises_the_error_of_a_raising_exception_handler :
  exception_handled failing_engine ∧
  ∃ fuel0, ∀ fuel, fuel0 ≤ fuel →
    ∃ s',
      run sample_call sample_hms fuel two_batches 1 (mkSt failing_engine []) =
        (s', Raise (Exn "RuntimeError" "handler failed")) ∧
      head (raised (trace s')) = Some (ValueError "x").
Proof.
  split; [by eexists|].
  exists 3. intros fuel Hfuel.
  rewrite (run_as_played sample_call sample_hms) by (apply sample_frame_ok || (vm_compute; lia)).
  eexists. split; [vm_compute; reflexivity|]. reflexivity.
Qed.

(** ** Further theorems at the samples *)

Lemma listening_handlers_normal : handlers_normal sample_call listening_engine.
Proof.
  intros ev f a k [_ Hin]%handlers_of_single.
  apply elem_of_cons in Hin as [[= -> _ _]|Hin]; [by apply sample_returns_normally|].
  apply list_elem_of_singleton in Hin as [= -> _ _]. by apply sample_returns_normally.
Qed.

Lemma listening_keeps_flag f :
  registered listening_engine f → keeps sample_call should_terminate f.
Proof.
  intros [->|(a & k & Hin)]%registered_single; [by apply sample_keeps_flag|].
  apply elem_of_cons in Hin as [[= -> _ _]|Hin]; [by apply sample_keeps_flag|].
  apply list_elem_of_singleton in Hin as [= -> _ _]. by apply sample_keeps_flag.
Qed.

(** The calls of [sample_calls] for [ITERATION_STARTED], in their order. *)
Lemma add_event_handlers_in_call_order_witness :
  handlers_of (add_event_handlers sample_str sample_calls plain_engine) ITERATION_STARTED =
    registrations_for ITERATION_STARTED sample_calls ∧
  (is_Some (_event_handlers (add_event_handlers sample_str sample_calls plain_engine)
              !! KEvent ITERATION_STARTED) ↔
     registrations_for ITERATION_STARTED sample_calls ≠ []).
Proof.
  apply (add_event_handlers_in_call_order sample_str 0 sample_calls plain_engine
           ITERATION_STARTED).
  reflexivity.
Defined.

(** A third handler registered on the listening engine, then a dispatch. *)
Lemma _fire_event_after_add_event_handler_witness :
  let self' :=
    (add_event_handler sample_str (VEvent ITERATION_STARTED) 6 [VInt 30] [] listening_engine).1 in
  ∃ os self'',
    _fire_event sample_call 4 ITERATION_STARTED [VInt 7] (mkSt self' []) =
      (mkSt self'' ([] ++ Fire ITERATION_STARTED [VInt 7] self' :: os), Ret tt) ∧
    invocations os =
      (invoked_as [VInt 7] <$> handlers_of listening_engine ITERATION_STARTED) ++
      [(6, [VInt 7] ++ [VInt 30], [])].
Proof.
  apply (_fire_event_after_add_event_handler sample_str sample_call ITERATION_STARTED 6
           [VInt 30] [] listening_engine [VInt 7] 4 []).
  - intros f a k Hin. split.
    + apply elem_of_app in Hin as [Hin|Hin].
      * by apply (listening_handlers_normal ITERATION_STARTED f a k).
      * apply list_elem_of_singleton in Hin as [= -> _ _]. by apply sample_returns_normally.
    + intros self args kwargs. cbn. f_equal. apply sample_keeps_table.
  - vm_compute. lia.
Defined.

(** Two epochs over two batches with the listening engine. *)
Lemma run_processes_every_batch_each_epoch_witness :
  ∃ fuel0, ∀ fuel, fuel0 ≤ fuel →
    ∃ s' st t,
      run sample_call sample_hms fuel two_batches 2 (mkSt listening_engine []) =
        (s', Ret (Some st)) ∧
      trace s' = [] ++ t ∧
      fires t = STARTED :: concat (replicate 2 (epoch_events 2)) ++ [COMPLETED] ∧
      processed t = concat (replicate 2 [VInt 1; VInt 2]) ∧
      caught t = [] ∧
      state (eng s') = Some st ∧
      should_terminate (eng s') = false.
Proof.
  apply (run_processes_every_batch_each_epoch sample_call sample_hms two_batches
           [VInt 1; VInt 2] 2 (mkSt listening_engine [])).
  - reflexivity.
  - reflexivity.
  - apply sample_frame_ok.
  - apply listening_handlers_normal.
  - intros b _. by apply sample_processes.
  - apply listening_keeps_flag.
Defined.

(** Two runs in a row of the listening engine, three epochs then one. *)
Lemma run_twice_restarts_the_counters_witness :
  ∃ fuel0, ∀ fuel1 fuel2, fuel0 ≤ fuel1 → fuel0 ≤ fuel2 →
    ∃ s1 st1 s2 st2,
      run sample_call sample_hms fuel1 two_batches 3 (mkSt listening_engine []) =
        (s1, Ret (Some st1)) ∧
      run sample_call sample_hms fuel2 (VList [VInt 9]) 1 s1 = (s2, Ret (Some st2)) ∧
      st1 !! "iteration" = Some (VInt 6) ∧
      st2 !! "iteration" = Some (VInt 1) ∧
      st2 !! "epoch" = Some (VInt 1) ∧
      st2 !! "dataloader" = Some (VList [VInt 9]).
Proof.
  apply (run_twice_restarts_the_counters sample_str sample_call sample_hms two_batches [VInt 1; VInt 2] 3
           (VList [VInt 9]) [VInt 9] 1 (mkSt listening_engine [])).
  - reflexivity.
  - reflexivity.
  - reflexivity.
  - apply sample_frame_ok.
  - apply listening_handlers_normal.
  - intros b _. by apply sample_processes.
  - apply listening_keeps_flag.
Defined.

(** No epoch asked for, and [None] as the dataset. *)
Lemma run_without_epochs_witness :
  ∃ fuel0, ∀ fuel, fuel0 ≤ fuel →
    ∃ s' st t,
      run sample_call sample_hms fuel VNone 0 (mkSt listening_engine []) = (s', Ret (Some st)) ∧
      trace s' = [] ++ t ∧
      fires t = [STARTED; COMPLETED] ∧
      processed t = [] ∧
      caught t = [] ∧
      st !! "epoch" = Some (VInt 0) ∧
      st !! "iteration" = Some (VInt 0) ∧
      st !! "dataloader" = Some VNone.
Proof.
  apply (run_without_epochs sample_call sample_hms VNone 0 (mkSt listening_engine [])).
  - lia.
  - apply sample_frame_ok.
  - apply listening_handlers_normal.
Defined.

(** An integer as the dataset. *)
Lemma run_on_a_dataset_that_is_not_iterable_witness :
  ∃ fuel0, ∀ fuel, fuel0 ≤ fuel →
    ∃ s' t,
      run sample_call sample_hms fuel (VInt 5) 2 (mkSt listening_engine []) =
        (s', Raise (TypeError "'int' object is not iterable")) ∧
      trace s' = [] ++ t ∧
      fires t = [STARTED; EPOCH_STARTED] ∧
      processed t = [] ∧
      caught t = [TypeError "'int' object is not iterable";
                  TypeError "'int' object is not iterable"].
Proof.
  apply (run_on_a_dataset_that_is_not_iterable sample_call sample_hms (VInt 5)
           (TypeError "'int' object is not iterable") 2 (mkSt listening_engine [])).
  - reflexivity.
  - lia.
  - reflexivity.
  - apply sample_frame_ok.
  - apply listening_handlers_normal.
  - apply listening_keeps_flag.
  - reflexivity.
Defined.

(** A pass of the guarded engine, whose process function raises on the
    second batch. *)
Lemma _run_once_on_dataset_ends_in_one_of_three_ways_witness :
  ∃ s' t (r : result (option (Z * Z * Z))),
    _run_once_on_dataset sample_call sample_hms 2 (mkSt (running guarded_engine) []) =
      (s', to_outcome r) ∧
    trace s' = [] ++ t ∧
    ((caught t = [] ∧ r = Ok (Some sample_hms)) ∨
     (∃ x, caught t = [x] ∧ ¬ exception_handled (running guarded_engine) ∧ r = Err x) ∨
     (∃ x, caught t = [x] ∧ exception_handled (running guarded_engine) ∧ r = Ok None ∧
           informed (running guarded_engine) x t)).
Proof.
  apply (_run_once_on_dataset_ends_in_one_of_three_ways sample_call sample_hms 0 1 two_batches
           2 (mkSt (running guarded_engine) [])).
  - apply sample_frame_ok.
  - intros f a k Hin. by apply (guarded_handlers_normal EXCEPTION_RAISED f a k).
  - reflexivity.
  - reflexivity.
  - reflexivity.
  - vm_compute. lia.
Defined.

(** A pass of the plain engine after [terminate()]. *)
Lemma _run_once_on_dataset_with_the_flag_set_witness :
  ∃ s' t,
    _run_once_on_dataset sample_call sample_hms 1 (mkSt (terminate (running plain_engine)) []) =
      (s', Ret (Some sample_hms)) ∧
    trace s' = [] ++ t ∧
    fires t = [ITERATION_STARTED; ITERATION_COMPLETED] ∧
    processed t = [VInt 1] ∧
    attr "iteration" (eng s') = Some (VInt (0 + 1)) ∧
    should_terminate (eng s') = true.
Proof.
  apply (_run_once_on_dataset_with_the_flag_set sample_call sample_hms 0 1 two_batches
           (VInt 1) [VInt 2] 1 (mkSt (terminate (running plain_engine)) [])).
  - apply sample_frame_ok.
  - apply sample_never_cleared.
  - apply (plain_handlers_normal 0 true (Some sample_state)).
  - by apply sample_processes.
  - reflexivity.
  - reflexivity.
  - reflexivity.
  - reflexivity.
  - reflexivity.
  - vm_compute. lia.
Defined.

(** The first iteration of the listening engine. *)
Lemma _run_iteration_shows_batch_then_output_witness :
  ∃ s' e1 os1 e2 v e3 e4 os2,
    _run_iteration sample_call 3 (VInt 1) (mkSt (running listening_engine) []) = (s', Ret tt) ∧
    trace s' = [] ++ Fire ITERATION_STARTED [] e1 :: os1 ++
               [Processed (_process_function (running listening_engine)) e2 (VInt 1) e3 (Ok v)] ++
               Fire ITERATION_COMPLETED [] e4 :: os2 ∧
    (fires os1 = [] ∧ processed os1 = []) ∧
    (fires os2 = [] ∧ processed os2 = []) ∧
    (attr "batch" e1 = Some (VInt 1) ∧ attr "iteration" e1 = Some (VInt (0 + 1))) ∧
    attr "iteration" e2 = Some (VInt (0 + 1)) ∧
    (attr "output" e4 = Some v ∧ attr "iteration" e4 = Some (VInt (0 + 1))) ∧
    attr "iteration" (eng s') = Some (VInt (0 + 1)).
Proof.
  apply (_run_iteration_shows_batch_then_output sample_call 0 1 two_batches (VInt 1) 3
           (mkSt (running listening_engine) [])).
  - apply sample_frame_ok.
  - apply (handlers_normal_wiring sample_call listening_engine); [done|].
    apply listening_handlers_normal.
  - by apply sample_processes.
  - reflexivity.
  - reflexivity.
  - reflexivity.
  - vm_compute. lia.
Defined.

(** The first iteration of the engine whose first [ITERATION_STARTED]
    handler raises. *)
Lemma _run_iteration_skips_the_batch_when_a_handler_raises_witness :
  ∃ s' e1 e',
    _run_iteration sample_call 3 (VInt 1) (mkSt (running interrupted_engine) []) =
      (s', Raise (Exn "RuntimeError" "handler failed")) ∧
    trace s' = [] ++ [Fire ITERATION_STARTED [] e1;
                      Handled 3 e1 [] [] e' (Err (Exn "RuntimeError" "handler failed"))] ∧
    attr "batch" e1 = Some (VInt 1) ∧
    attr "iteration" e1 = Some (VInt (0 + 1)) ∧
    processed (trace s') = processed [].
Proof.
  apply (_run_iteration_skips_the_batch_when_a_handler_raises sample_call 0 1 two_batches
           (VInt 1) 3 [] [] [(4, [], [])] (Exn "RuntimeError" "handler failed") 3
           (mkSt (running interrupted_engine) [])).
  - apply sample_frame_ok.
  - reflexivity.
  - reflexivity.
  - reflexivity.
  - reflexivity.
  - reflexivity.
  - vm_compute. lia.
Defined.

Lemma registering_call_registers e args kwargs :
  registering_call 0 e args kwargs =
    ((add_event_handler sample_str (VEvent ITERATION_STARTED) 1 [VInt 5] [] e).1, Ok VNone).
Proof. by rewrite add_event_handler_valid. Qed.

(** A dispatch to the handler that registers a further one. *)
Lemma _fire_event_visits_a_registration_made_meanwhile_witness :
  ∃ s' os,
    _fire_event registering_call 3 ITERATION_STARTED [VInt 7] (mkSt registering_engine []) =
      (s', Ret tt) ∧
    trace s' = [] ++ Fire ITERATION_STARTED [VInt 7] registering_engine :: os ∧
    invocations os = [(0, [VInt 7] ++ [], []); (1, [VInt 7] ++ [VInt 5], [])] ∧
    handlers_of (eng s') ITERATION_STARTED = [(0, [], []); (1, [VInt 5], [])].
Proof.
  apply (_fire_event_visits_a_registration_made_meanwhile sample_str registering_call
           ITERATION_STARTED 0 [] [] 1 [VInt 5] [] [VInt 7] 3 (mkSt registering_engine [])).
  - reflexivity.
  - apply registering_call_registers.
  - intros e args kwargs. split; [done|by eexists].
  - lia.
Defined.
